(** * sud.c: a bit-mask Sudoku solver (constraint propagation + backtracking)

    Shallow embedding of [src/sud.c] and verification of its specification.

    Conventions of the embedding:
    - a C [int] holding a cell is a [Z]; the code only applies bitwise
      operators to cells, which agree with [Z.land], [Z.lor], [Z.lnot] and
      [Z.shiftl] on two's complement integers;
    - array indices and loop counters are [nat];
    - [int cells[ROWS][COLS]] is a list of rows, each a list of cells;
    - the nested loops [for (i..) for (j..)] visit the coordinates of
      [coords] in row-major order; [continue] and early [return] are the
      branches of the loop functions;
    - counters ([solved_counter], [changed], [reductions]) are [Z]: signed
      overflow is undefined in C, and on the grids of the data model the
      counter of solved cells stays within 0..81 ([grid_ok_counter_range]);
    - a function that writes through a pointer returns the new contents of
      what it points to, next to the value it returns;
    - the standard input is the list of the characters [getchar] returns
      before it returns [EOF] for ever; only there does a loop counter leave
      the range of an [int] (the column of [read_grid], see [read_row]);
    - what [printf] writes is a list of characters; [main] returns the exit
      status with the text written. *)

From Stdlib Require Import String ZArith List Lia Bool Ascii DecimalString.
Import ListNotations.

#[local] Open Scope Z_scope.

(** ** Constants *)

Definition ROWS : nat := 9.
Definition COLS : nat := 9.
Definition R_ROWS : nat := 3.
Definition R_COLS : nat := 3.
Definition MAX_VAL : Z := 9.
Definition O_CELL : Z := 1022.
Definition SOLVED : Z := 1.

(** ** The grid *)

Record grid : Type := mkGrid { cells : list (list Z); solved_counter : Z }.

(** [upd n x l] is [l] with position [n] overwritten by [x]; a position
    outside [l] does not exist and nothing is written. *)
Fixpoint upd {A : Type} (n : nat) (x : A) (l : list A) : list A :=
  match l, n with
  | [], _ => []
  | _ :: t, O => x :: t
  | h :: t, S n' => h :: upd n' x t
  end.

(** [g->cells[i][j]] *)
Definition get_cell (g : grid) (i j : nat) : Z := nth j (nth i (cells g) []) 0.

(** [g->cells[i][j] = v] *)
Definition set_cell (g : grid) (i j : nat) (v : Z) : grid :=
  mkGrid (upd i (upd j v (nth i (cells g) [])) (cells g)) (solved_counter g).

(** [g->solved_counter++] *)
Definition incr_solved (g : grid) : grid :=
  mkGrid (cells g) (solved_counter g + 1).

(** Row-major enumeration of the index pairs of the two nested loops. *)
Definition coords : list (nat * nat) :=
  flat_map (fun i => map (fun j => (i, j)) (seq 0 COLS)) (seq 0 ROWS).

(** The shape of [int cells[9][9]]. *)
Definition wf_grid (g : grid) : bool :=
  (length (cells g) =? ROWS)%nat
  && forallb (fun row => (length row =? COLS)%nat) (cells g).

(** ** Cell encoding *)

(** [cell & 1<<k] as a truth value *)
Definition candidate (cell k : Z) : bool :=
  negb (Z.land cell (Z.shiftl 1 k) =? 0).

(** [cell & SOLVED] as a truth value *)
Definition flagged (cell : Z) : bool := negb (Z.land cell SOLVED =? 0).

Definition set_value (value : Z) : Z := Z.lor (Z.shiftl 1 value) SOLVED.

(** The [for (i=1; i<=MAX_VAL; i++) if (cell & 1<<i) break;] of [get_value];
    [n] is the number of values of [i] still to test. *)
Fixpoint get_value_loop (n : nat) (i cell : Z) : Z :=
  match n with
  | O => i
  | S n' => if candidate cell i then i else get_value_loop n' (i + 1) cell
  end.

Definition get_value (cell : Z) : Z :=
  if flagged cell then get_value_loop 9 1 cell else 0.

(** The values [1..MAX_VAL] of a loop [for (k=1; k<=MAX_VAL; k++)]. *)
Definition values : list Z := map Z.of_nat (seq 1 9).

(** The counting loop shared by [mark_if_solved] and [choose_target_cell]. *)
Definition count_poss (cell : Z) : Z :=
  fold_left (fun poss i => if candidate cell i then poss + 1 else poss) values 0.

Definition mark_if_solved (cell : Z) : Z :=
  if count_poss cell =? 1 then Z.lor cell SOLVED else cell.

(** ** Initialisation and copy *)

(** One assignment per index pair. *)
Definition fill (f : nat -> nat -> Z) (g : grid) : grid :=
  fold_left (fun acc ij => set_cell acc (fst ij) (snd ij) (f (fst ij) (snd ij))) coords g.

Definition grid_zero (g : grid) : grid :=
  mkGrid (cells (fill (fun _ _ => O_CELL) g)) 0.

(** [copy_grid sg dg]: the contents of [dg] afterwards. *)
Definition copy_grid (sg dg : grid) : grid :=
  mkGrid (cells (fill (get_cell sg) dg)) (solved_counter sg).

(** ** Single-source reduction *)

Definition same_unit (row column i j : nat) : bool :=
  (i =? row)%nat || (j =? column)%nat
  || ((row / R_ROWS =? i / R_ROWS)%nat && (column / R_COLS =? j / R_COLS)%nat).

(** The loop of [reduce] over the index pairs [ps] still to visit.  The
    result is the grid and the value returned ([-1] as soon as a cell is
    wiped out, [changed] when the loop ends). *)
Fixpoint reduce_loop (row column : nat) (mask : Z) (ps : list (nat * nat))
    (g : grid) (changed : Z) : grid * Z :=
  match ps with
  | [] => (g, changed)
  | (i, j) :: ps' =>
    if (i =? row)%nat && (j =? column)%nat then
      reduce_loop row column mask ps' g changed
    else
      let cell_prev := get_cell g i j in
      if same_unit row column i j && negb (Z.land cell_prev mask =? 0) then
        let cell := mark_if_solved (Z.land cell_prev mask) in
        let g1 := set_cell g i j cell in
        let changed1 := if cell =? cell_prev then changed else changed + 1 in
        let g2 := if negb (cell =? cell_prev) && flagged cell
                  then incr_solved g1 else g1 in
        if (cell =? 0) || (cell =? 1) then (g2, -1)
        else reduce_loop row column mask ps' g2 changed1
      else reduce_loop row column mask ps' g changed
  end.

Definition reduce (g : grid) (row column : nat) : grid * Z :=
  let source_cell := get_cell g row column in
  if Z.land source_cell SOLVED =? 0 then (g, 0)
  else reduce_loop row column (Z.lnot (Z.land source_cell O_CELL)) coords g 0.

(** ** Whole-grid reduction *)

Fixpoint reduce_grid_loop (ps : list (nat * nat)) (g : grid) (reductions : Z)
    : grid * Z :=
  match ps with
  | [] => (g, reductions)
  | (i, j) :: ps' =>
    let (g', r) := reduce g i j in
    if r =? -1 then (g', -1) else reduce_grid_loop ps' g' (reductions + r)
  end.

Definition reduce_grid (g : grid) : grid * Z := reduce_grid_loop coords g 0.

(** ** Least-candidate cell selection *)

(** The scan of [choose_target_cell]: [t] is the number of possibles of the
    best target so far, [(tr, tc)] its coordinates. *)
Fixpoint choose_loop (g : grid) (ps : list (nat * nat)) (t : Z) (tr tc : nat)
    : nat * nat :=
  match ps with
  | [] => (tr, tc)
  | (i, j) :: ps' =>
    if flagged (get_cell g i j) then choose_loop g ps' t tr tc
    else
      let a := count_poss (get_cell g i j) in
      if a <? t then choose_loop g ps' a i j else choose_loop g ps' t tr tc
  end.

Definition choose_target_cell (g : grid) : nat * nat :=
  choose_loop g coords MAX_VAL 0%nat 0%nat.

(** ** Reading a grid *)

Definition NUL : ascii := Ascii.zero.
Definition NL : ascii := ascii_of_nat 10.
Definition is_digit (c : ascii) : bool :=
  (49 <=? nat_of_ascii c)%nat && (nat_of_ascii c <=? 57)%nat.
Definition digit_of (c : ascii) : Z := Z.of_nat (nat_of_ascii c) - 48.

(** What reading one row of text does: the row ends (grid so far, rest of
    the input), or [read_grid] returns 0 (grid so far). *)
Inductive row_result : Type :=
| RowEnd (g : grid) (rest : list ascii)
| RowBad (g : grid).

(** The [while ((in = getchar()))] loop of row [i], at column [j], the
    number of characters of the row read so far (fewer than 2^31 in a row
    of the text).  The standard input is the list of characters not yet
    read.  Once it is exhausted [getchar] returns [EOF] for ever, which as
    a [char] is neither zero nor one of the characters tested: in a column
    below [COLS] the function returns 0 at once; from column [COLS] on
    [EOF] is skipped and the [int] counter [j] incremented, until it wraps
    around from [INT_MAX] to [INT_MIN], a column below [COLS], where the
    function returns 0 as well. *)
Fixpoint read_row (input : list ascii) (g : grid) (i j : nat) : row_result :=
  match input with
  | [] => RowBad g
  | c :: rest =>
    if Ascii.eqb c NUL then RowEnd g rest
    else if Ascii.eqb c NL then RowEnd g rest
    else if Ascii.eqb c " " || Ascii.eqb c "-" || (COLS <=? j)%nat then
      read_row rest g i (S j)
    else if is_digit c then
      read_row rest (incr_solved (set_cell g i j (set_value (digit_of c)))) i (S j)
    else RowBad g
  end.

(** The rows [i, i+1, ..., i+n-1]: the value returned and the grid. *)
Fixpoint read_rows (n : nat) (input : list ascii) (g : grid) (i : nat)
    : Z * grid :=
  match n with
  | O => (1, g)
  | S n' =>
    match read_row input g i 0 with
    | RowEnd g' rest => read_rows n' rest g' (S i)
    | RowBad g' => (0, g')
    end
  end.

Definition read_grid (input : list ascii) (g : grid) : Z * grid :=
  read_rows ROWS input g 0.

(** ** The recursive solver *)

(** Number of candidate bits plus one for a cell that is not yet flagged:
    what a reduction pass that changes a cell makes smaller. *)
Definition cell_weight (cell : Z) : nat :=
  (Z.to_nat (count_poss cell) + (if flagged cell then 0 else 1))%nat.

Definition weight (g : grid) : nat :=
  fold_right (fun ij acc => (cell_weight (get_cell g (fst ij) (snd ij)) + acc)%nat)
    0%nat coords.

(** [do { r = reduce_grid(&wg); if (r == -1) return 0; } while (r > 0);]
    with at most [n] passes; the result is the grid and the last [r]. *)
Fixpoint reduce_until (n : nat) (wg : grid) : option (grid * Z) :=
  match n with
  | O => None
  | S n' =>
    let (wg', r) := reduce_grid wg in
    if r =? -1 then Some (wg', -1)
    else if 0 <? r then reduce_until n' wg'
    else Some (wg', r)
  end.

(** The guessing loop of [try], over the values [ks] still to try; [rec] is
    the recursive call.  [None] stands for a call that does not return. *)
Fixpoint guess_loop (rec : grid -> grid -> option (Z * grid)) (ks : list Z)
    (wc : Z) (tr tc : nat) (wg og : grid) : option (Z * grid) :=
  match ks with
  | [] => Some (0, og)
  | k :: ks' =>
    if candidate wc k then
      let wg1 := set_cell wg tr tc (set_value k) in
      match rec wg1 og with
      | None => None
      | Some (ret, og1) =>
        if ret =? 0 then guess_loop rec ks' wc tr tc wg1 og1
        else Some (1, og1)
      end
    else guess_loop rec ks' wc tr tc wg og
  end.

(** The indeterminate initial contents of the local [struct grid wg]; every
    field is overwritten by [copy_grid] before it is read. *)
Definition wg_local : grid := mkGrid (repeat (repeat 0 COLS) ROWS) 0.

(** [try depth ig og]: [depth] bounds the nesting of recursive calls.  The
    result is the value returned and the contents of the output grid.  The
    loop of propagation is allowed one pass more than the weight of the
    grid, which it never exhausts ([reduce_until_total]).  The local
    [reductions] is only ever added to and is left out. *)
Fixpoint try (depth : nat) (ig og : grid) : option (Z * grid) :=
  match depth with
  | O => None
  | S depth' =>
    let wg := copy_grid ig wg_local in
    match reduce_until (S (weight wg)) wg with
    | None => None
    | Some (wg, r) =>
      if r =? -1 then Some (0, og)
      else if solved_counter wg =? Z.of_nat (ROWS * COLS) then
        Some (1, copy_grid wg og)
      else
        let (tr, tc) := choose_target_cell wg in
        let wc := get_cell wg tr tc in
        let wg := incr_solved wg in
        guess_loop (try depth') values wc tr tc wg og
    end
  end.

(** ** Printing a grid *)

Definition H_LINE : list ascii :=
  list_ascii_of_string " ------- ------- ------- ".

(** What [printf("%d", v)] writes. *)
Definition decimal (v : Z) : list ascii :=
  list_ascii_of_string (NilZero.string_of_int (Z.to_int v)).

(** The body of the inner loop of [print_grid]: the cell, then the
    separator that ends a region. *)
Definition print_cell (g : grid) (i j : nat) : list ascii :=
  let output_value := get_value (get_cell g i j) in
  (if output_value =? 0 then [" "; " "]%char
   else decimal output_value ++ [" "%char])
  ++ (if (j mod R_COLS =? R_COLS - 1)%nat then ["|"; " "]%char else []).

(** The body of the outer loop. *)
Definition print_row (g : grid) (i : nat) : list ascii :=
  ["|"; " "]%char ++ flat_map (print_cell g i) (seq 0 COLS) ++ [NL]
  ++ (if (i mod R_ROWS =? R_ROWS - 1)%nat then H_LINE ++ [NL] else []).

(** The characters written to the standard output. *)
Definition print_grid (g : grid) : list ascii :=
  H_LINE ++ [NL] ++ flat_map (print_row g) (seq 0 ROWS).

(** ** The program *)

Definition read_failure : list ascii :=
  list_ascii_of_string "Failed to read: invalid input file." ++ [NL].

Definition solve_failure : list ascii :=
  list_ascii_of_string "Failed to solve." ++ [NL].

(** [main depth input]: the exit status and what is written to the standard
    output when the standard input holds [input].  [depth] is the bound on
    the nesting of [try]; [None] when it is too small.  The two local grids
    are overwritten by [grid_zero] before they are read. *)
Definition main (depth : nat) (input : list ascii) : option (Z * list ascii) :=
  let ig := grid_zero wg_local in
  let og := grid_zero wg_local in
  let (r, ig) := read_grid input ig in
  if r =? 0 then Some (1, read_failure)
  else
    let out := print_grid ig in
    match try depth ig og with
    | None => None
    | Some (t, og) =>
      if t =? 0 then Some (1, out ++ solve_failure)
      else Some (0, out ++ print_grid og)
    end.

(** * Vocabulary of the specification *)

(** ** The data model

    A cell is a bit-vector over the bits 0..9; a cell with the solved flag
    has exactly one candidate bit. *)
Definition cell_ok (cell : Z) : bool :=
  (0 <=? cell) && (cell <? 1024)
  && (negb (flagged cell) || (count_poss cell =? 1)).

Definition cells_ok (g : grid) : bool :=
  forallb (fun ij => cell_ok (get_cell g (fst ij) (snd ij))) coords.

(** Number of cells whose solved flag is set. *)
Definition count_solved (g : grid) : nat :=
  length (filter (fun ij => flagged (get_cell g (fst ij) (snd ij))) coords).

(** Number of cells whose solved flag is not set. *)
Definition count_unsolved (g : grid) : nat :=
  length (filter (fun ij => negb (flagged (get_cell g (fst ij) (snd ij)))) coords).

Definition counter_ok (g : grid) : bool :=
  solved_counter g =? Z.of_nat (count_solved g).

(** A grid of the data model: 9 by 9, every cell well formed, and the
    counter equal to the number of flagged cells. *)
Definition grid_ok (g : grid) : bool :=
  wf_grid g && cells_ok g && counter_ok g.

(** ** Peers and units *)

(** [(i, j)] is another cell of the row, column or region of [(row, column)]. *)
Definition is_peer (row column i j : nat) : bool :=
  negb ((i =? row)%nat && (j =? column)%nat) && same_unit row column i j.

Definition row_coords (u : nat) : list (nat * nat) :=
  map (fun k => (u, k)) (seq 0 9).
Definition col_coords (u : nat) : list (nat * nat) :=
  map (fun k => (k, u)) (seq 0 9).
Definition region_coords (u : nat) : list (nat * nat) :=
  map (fun k => (3 * (u / 3) + k / 3, 3 * (u mod 3) + k mod 3)%nat) (seq 0 9).

(** The digits shown by the cells at the coordinates [ps]. *)
Definition digits_at (g : grid) (ps : list (nat * nat)) : list Z :=
  map (fun ij => get_value (get_cell g (fst ij) (snd ij))) ps.

(** Number of peers of [(row, column)] whose cell differs between [g] and [g']. *)
Definition modified_peers (row column : nat) (g g' : grid) : nat :=
  length (filter (fun ij => is_peer row column (fst ij) (snd ij)
                            && negb (get_cell g' (fst ij) (snd ij)
                                     =? get_cell g (fst ij) (snd ij)))
            coords).

(** ** One step of [reduce] on a single peer *)

(** The mask computed from the source cell. *)
Definition mask_of (source_cell : Z) : Z := Z.lnot (Z.land source_cell O_CELL).

(** The value [reduce] writes into a peer it processes. *)
Definition new_cell (mask cell_prev : Z) : Z :=
  mark_if_solved (Z.land cell_prev mask).

(** What the data model promises about that write when the source holds the
    value [w] and the peer [c] is a well-formed cell that is not wiped out:
    the new cell is well formed, the counter is incremented exactly when the
    peer becomes flagged, a flagged peer is left alone, and a changed peer
    loses weight. *)
Definition step_facts (w c : Z) : bool :=
  let mask := mask_of (set_value w) in
  let cell := new_cell mask c in
  if negb (cell_ok c) || (Z.land c mask =? 0) || (cell =? 0) || (cell =? 1)
  then true
  else
    cell_ok cell
    && Bool.eqb (negb (cell =? c) && flagged cell) (flagged cell && negb (flagged c))
    && (negb (flagged c) || (cell =? c))
    && ((cell =? c) || (cell_weight cell <? cell_weight c)%nat)
    && negb (candidate cell w).

(** A flagged well-formed cell is the encoding of a digit. *)
Definition solved_facts (c : Z) : bool :=
  negb (cell_ok c && flagged c) || existsb (fun v => c =? set_value v) values.

(** An unflagged well-formed peer of a source holding [w] that is left
    unchanged by a pass has fewer than nine candidates. *)
Definition fixpoint_facts (w c : Z) : bool :=
  let mask := mask_of (set_value w) in
  if negb (cell_ok c) || flagged c then true
  else if Z.land c mask =? 0 then count_poss c <? 9
  else negb (new_cell mask c =? c) || (count_poss c <? 9).

(** Whether the loop of [reduce] processes the cell [cell] at [(i, j)]. *)
Definition touched (row column : nat) (mask : Z) (i j : nat) (cell : Z) : bool :=
  is_peer row column i j && negb (Z.land cell mask =? 0).

(** The grid after the loop body has written [cell] at [(i, j)]. *)
Definition step_grid (g : grid) (i j : nat) (cell : Z) : grid :=
  if negb (cell =? get_cell g i j) && flagged cell
  then incr_solved (set_cell g i j cell) else set_cell g i j cell.

(** [tightens g' g]: no cell of [g'] has a candidate bit 1..9 that the same
    cell of [g] lacks, and the counter of [g'] is not below that of [g]. *)
Definition tightens (g' g : grid) : Prop :=
  (forall i j k, 1 <= k <= 9 ->
     candidate (get_cell g' i j) k = true -> candidate (get_cell g i j) k = true)
  /\ solved_counter g <= solved_counter g'.

(** ** Solved grids *)

Definition each_digit_once (l : list Z) : Prop :=
  forall d, 1 <= d <= 9 -> count_occ Z.eq_dec l d = 1%nat.

(** Every cell is flagged, and every row, column and region shows each of
    the digits 1..9 exactly once. *)
Definition valid_solution (g : grid) : Prop :=
  (forall i j, (i < ROWS)%nat -> (j < COLS)%nat -> flagged (get_cell g i j) = true)
  /\ forall u, (u < 9)%nat ->
       each_digit_once (digits_at g (row_coords u))
       /\ each_digit_once (digits_at g (col_coords u))
       /\ each_digit_once (digits_at g (region_coords u)).

Definition coord_eqb (p q : nat * nat) : bool :=
  (fst p =? fst q)%nat && (snd p =? snd q)%nat.

Fixpoint nodupb (l : list (nat * nat)) : bool :=
  match l with
  | [] => true
  | p :: t => negb (existsb (coord_eqb p) t) && nodupb t
  end.

(** Nine distinct coordinates of the grid, any two of them peers. *)
Definition unit_ok (ps : list (nat * nat)) : bool :=
  (length ps =? 9)%nat && nodupb ps
  && forallb (fun p => (fst p <? ROWS)%nat && (snd p <? COLS)%nat
                       && forallb (fun q => coord_eqb p q
                                            || is_peer (fst p) (snd p) (fst q) (snd q))
                            ps)
       ps.

(** A cell is wiped out: it becomes empty (it was not and now is), or it is
    left holding only the solved flag. *)
Definition wiped_out (cell_prev cell : Z) : Prop :=
  (cell_prev <> 0 /\ cell = 0) \/ cell = 1.

(** ** Positions in the input text *)

(** Row and column of the character that follows [pre] in a text whose rows
    end at the characters [row_end], counted from row [row], column [col]. *)
Fixpoint text_position (row_end : ascii -> bool) (pre : list ascii)
    (row col : nat) : nat * nat :=
  match pre with
  | [] => (row, col)
  | c :: pre' =>
    if row_end c then text_position row_end pre' (S row) 0
    else text_position row_end pre' row (S col)
  end.

Definition is_newline (c : ascii) : bool := Ascii.eqb c NL.
Definition is_newline_or_nul (c : ascii) : bool :=
  Ascii.eqb c NUL || Ascii.eqb c NL.

(** A digit 1..9, a space, a hyphen or a newline. *)
Definition is_grid_char (c : ascii) : bool :=
  is_digit c || Ascii.eqb c " " || Ascii.eqb c "-" || Ascii.eqb c NL.

(** ** The grids [try] is called on

    [main] calls [try] on the grid read into the grid made by [grid_zero];
    [try] calls itself on its working grid after a guess. *)
Inductive called_on : grid -> Prop :=
| called_by_main (input : list ascii) (g0 ig : grid) :
    wf_grid g0 = true ->
    read_grid input (grid_zero g0) = (1, ig) ->
    called_on ig
| called_by_try (ig wg : grid) (r k : Z) :
    called_on ig ->
    reduce_until (S (weight ig)) ig = Some (wg, r) -> r <> -1 ->
    solved_counter wg <> 81 -> 1 <= k <= 9 ->
    candidate (get_cell wg (fst (choose_target_cell wg))
                 (snd (choose_target_cell wg))) k = true ->
    called_on (set_cell (incr_solved wg) (fst (choose_target_cell wg))
                 (snd (choose_target_cell wg)) (set_value k)).

(** ** Example grids *)

Definition example_text : list ascii :=
  list_ascii_of_string
    "53--7----
6--195---
-98----6-
8---6---3
4--8-3--1
7---2---6
-6----28-
---419--5
----8--79
"%string.

(** The grid [main] passes to [try] for [example_text]. *)
Definition example_grid : grid :=
  snd (read_grid example_text (grid_zero wg_local)).

Definition example_solution : grid :=
  mkGrid (map (map set_value)
            [[5; 3; 4; 6; 7; 8; 9; 1; 2]; [6; 7; 2; 1; 9; 5; 3; 4; 8];
             [1; 9; 8; 3; 4; 2; 5; 6; 7]; [8; 5; 9; 7; 6; 1; 4; 2; 3];
             [4; 2; 6; 8; 5; 3; 7; 9; 1]; [7; 1; 3; 9; 2; 4; 8; 5; 6];
             [9; 6; 1; 5; 3; 7; 2; 8; 4]; [2; 8; 7; 4; 1; 9; 6; 3; 5];
             [3; 4; 5; 2; 8; 6; 1; 7; 9]])
    81.

(** One clue in the top left corner, every other cell open. *)
Definition one_clue_grid : grid :=
  incr_solved (set_cell (grid_zero wg_local) 0 0 (set_value 1)).

(** Two 5s in the first row. *)
Definition clash_grid : grid :=
  incr_solved (set_cell
    (incr_solved (set_cell (grid_zero wg_local) 0 0 (set_value 5)))
    0 7 (set_value 5)).

(** [one_clue_grid] after propagation: the digit 1 has been cleared from
    the 20 peers of the corner. *)
Definition one_clue_fixpoint : grid := fst (reduce_grid one_clue_grid).

(** ** Solutions of a grid *)

(** The 27 units: rows, columns and regions. *)
Definition all_units : list (list (nat * nat)) :=
  map row_coords (seq 0 9) ++ map col_coords (seq 0 9)
  ++ map region_coords (seq 0 9).

(** Some unit holds both coordinates. *)
Definition share_unit (p q : nat * nat) : bool :=
  existsb (fun ps => existsb (coord_eqb p) ps && existsb (coord_eqb q) ps)
    all_units.

(** The digit [s] shows in each cell is a candidate of that cell in [g]. *)
Definition fits (s g : grid) : Prop :=
  forall i j, (i < ROWS)%nat -> (j < COLS)%nat ->
    candidate (get_cell g i j) (get_value (get_cell s i j)) = true.

(** [s] is a solution of [g]: a completely solved grid of the data model,
    each digit once in every row, column and region, that fits [g]. *)
Definition solves (s g : grid) : Prop :=
  grid_ok s = true /\ valid_solution s /\ fits s g.

(** [(i, j)] comes before [(a, b)] in the row-major scan. *)
Definition scanned_before (i j a b : nat) : Prop :=
  (i < a)%nat \/ (i = a /\ (j < b)%nat).

Definition scanned_beforeb (p q : nat * nat) : bool :=
  (fst p <? fst q)%nat || ((fst p =? fst q)%nat && (snd p <? snd q)%nat).

(** Every element of the list is scanned before all that follow it. *)
Fixpoint scan_sorted (l : list (nat * nat)) : bool :=
  match l with
  | [] => true
  | p :: t => forallb (scanned_beforeb p) t && scan_sorted t
  end.

(** [valid_solution] as a test. *)
Definition each_digit_onceb (l : list Z) : bool :=
  forallb (fun d => (count_occ Z.eq_dec l d =? 1)%nat) values.

Definition valid_solutionb (g : grid) : bool :=
  forallb (fun ij => flagged (get_cell g (fst ij) (snd ij))) coords
  && forallb (fun u => each_digit_onceb (digits_at g (row_coords u))
                       && each_digit_onceb (digits_at g (col_coords u))
                       && each_digit_onceb (digits_at g (region_coords u)))
       (seq 0 9).

(** ** The rows of a text *)

(** The text cut at every newline and every NUL character; the last row is
    what follows the last of them. *)
Fixpoint text_rows (input : list ascii) : list (list ascii) :=
  match input with
  | [] => [[]]
  | c :: rest =>
    if is_newline_or_nul c then [] :: text_rows rest
    else match text_rows rest with
         | [] => [[c]]
         | r :: rs => (c :: r) :: rs
         end
  end.

(** The character in column [j] of row [i], if the row is that long. *)
Definition char_at (input : list ascii) (i j : nat) : option ascii :=
  nth_error (nth i (text_rows input) []) j.

(** A digit 1..9, a space or a hyphen. *)
Definition is_cell_char (c : ascii) : bool :=
  is_digit c || Ascii.eqb c " " || Ascii.eqb c "-".

(** The first nine characters of the row are digits, spaces and hyphens. *)
Definition row_ok (r : list ascii) : bool := forallb is_cell_char (firstn 9 r).

(** The cells of row [i] from column [j] on after the characters [r] have
    been read into them: a digit in a column below 9 is a clue. *)
Fixpoint put_row (r : list ascii) (g : grid) (i j : nat) : grid :=
  match r with
  | [] => g
  | c :: r' =>
    if (j <? COLS)%nat && is_digit c
    then put_row r' (incr_solved (set_cell g i j (set_value (digit_of c)))) i (S j)
    else put_row r' g i (S j)
  end.

(** The grid after the first [n] rows of [rows] have been read into the rows
    [i], [i+1], ... *)
Fixpoint put_rows (n : nat) (rows : list (list ascii)) (g : grid) (i : nat)
    : grid :=
  match n, rows with
  | S n', r :: rs => put_rows n' rs (put_row r g i 0) (S i)
  | _, _ => g
  end.

(** [n] rows of the text are ended and hold only cell characters in their
    first nine columns. *)
Definition rows_accepted (n : nat) (rows : list (list ascii)) : Prop :=
  (n < length rows)%nat /\ forall k, (k < n)%nat -> row_ok (nth k rows []) = true.

(** The number of digits in the first nine columns of the first [n] rows. *)
Fixpoint clue_count (n : nat) (rows : list (list ascii)) : nat :=
  match n, rows with
  | S n', r :: rs => length (filter is_digit (firstn 9 r)) + clue_count n' rs
  | _, _ => 0
  end.

(** ** The printed grid *)

(** The character that shows a value 0..9: a space for 0, the digit
    otherwise. *)
Definition cell_char (v : Z) : ascii :=
  if v =? 0 then " "%char else ascii_of_nat (48 + Z.to_nat v).

(** The 13 lines of a printed grid whose cell [(i, j)] shows [f i j]. *)
Definition layout (f : nat -> nat -> ascii) : list ascii :=
  H_LINE ++ [NL]
  ++ flat_map (fun i =>
       ["|"; " "]%char
       ++ flat_map (fun j =>
            [f i j; " "%char]
            ++ (if (j mod 3 =? 2)%nat then ["|"; " "]%char else []))
            (seq 0 9)
       ++ [NL] ++ (if (i mod 3 =? 2)%nat then H_LINE ++ [NL] else []))
       (seq 0 9).

(** Where cell [(i, j)] stands in the printed grid: 26 characters for the
    top line, 27 for each row, 26 more after every third row; in a row, two
    characters for the bar, two for each cell and two more after every
    third cell. *)
Definition print_position (i j : nat) : nat :=
  26 + 27 * i + 26 * (i / 3) + 2 + 2 * j + 2 * (j / 3).

(** The clue, or the space, the text shows at row [i], column [j]. *)
Definition text_char (input : list ascii) (i j : nat) : ascii :=
  match char_at input i j with
  | Some c => if is_digit c then c else " "%char
  | None => " "%char
  end.

(** ** Clearing a value from a well-formed cell

    What is left of a well-formed cell [c] when the value [w] of the source
    is masked out: exactly the flag when [c] is solved with [w]; nothing
    when [c] is empty or is unsolved with [w] as its only candidate; and
    what [reduce] writes no longer has [w] as a candidate. *)
Definition clear_facts (w c : Z) : bool :=
  let r := Z.land c (mask_of (set_value w)) in
  negb (cell_ok c)
  || (Bool.eqb (r =? 1) (flagged c && (get_value c =? w))
      && Bool.eqb (r =? 0)
           ((c =? 0) || (negb (flagged c) && (count_poss c =? 1) && candidate c w))
      && ((r =? 0) || negb (candidate (mark_if_solved r) w))).

(** [one_clue_grid] with the peer (0, 1) of the clue unsolved and left with
    the clue's value 1 as its only candidate. *)
Definition sole_candidate_grid : grid := set_cell one_clue_grid 0 1 2.

(** * Verification *)

(** ** Lists and grids *)

Section ListUpdate.
Context {A : Type}.

Lemma upd_length (n : nat) (x : A) (l : list A) : length (upd n x l) = length l.
Proof.
  revert n; induction l as [|h t IH]; intros [|n]; simpl; auto.
Qed.

Lemma nth_upd_eq (n : nat) (x d : A) (l : list A) :
  (n < length l)%nat -> nth n (upd n x l) d = x.
Proof.
  revert n; induction l as [|h t IH]; intros [|n] Hn; simpl in *;
    try lia; auto.
  apply IH; lia.
Qed.

Lemma nth_upd_neq (n m : nat) (x d : A) (l : list A) :
  n <> m -> nth m (upd n x l) d = nth m l d.
Proof.
  revert n m; induction l as [|h t IH]; intros [|n] [|m] Hnm; simpl;
    try reflexivity; try congruence.
  apply IH; congruence.
Qed.

Lemma upd_out (n : nat) (x : A) (l : list A) :
  (length l <= n)%nat -> upd n x l = l.
Proof.
  revert n; induction l as [|h t IH]; intros [|n] Hn; simpl in *;
    try reflexivity; try lia.
  f_equal; apply IH; lia.
Qed.

Lemma upd_upd (n : nat) (x y : A) (l : list A) :
  upd n y (upd n x l) = upd n y l.
Proof.
  revert n; induction l as [|h t IH]; intros [|n]; simpl; auto.
  f_equal; apply IH.
Qed.

Lemma upd_same (n : nat) (d : A) (l : list A) :
  (n < length l)%nat -> upd n (nth n l d) l = l.
Proof.
  revert n; induction l as [|h t IH]; intros [|n] Hn; simpl in *;
    try lia; auto.
  f_equal; apply IH; lia.
Qed.
End ListUpdate.

Lemma in_coords (i j : nat) :
  In (i, j) coords <-> (i < ROWS)%nat /\ (j < COLS)%nat.
Proof.
  unfold coords. rewrite in_flat_map. split.
  - intros (x & Hx & Hin). apply in_map_iff in Hin.
    destruct Hin as (y & Heq & Hy). inversion Heq; subst.
    apply in_seq in Hx. apply in_seq in Hy. lia.
  - intros [Hi Hj]. exists i. split.
    + apply in_seq; lia.
    + apply in_map_iff. exists j. split; [reflexivity | apply in_seq; lia].
Qed.

Lemma coord_eqb_eq (p q : nat * nat) : coord_eqb p q = true <-> p = q.
Proof.
  destruct p as [a b], q as [c d]. unfold coord_eqb. simpl.
  rewrite andb_true_iff, !Nat.eqb_eq. split.
  - intros [-> ->]. reflexivity.
  - intros H. inversion H. auto.
Qed.

Lemma nodupb_NoDup (l : list (nat * nat)) : nodupb l = true -> NoDup l.
Proof.
  induction l as [|p t IH]; intros H; constructor; simpl in H;
    apply andb_true_iff in H; destruct H as [Hp Ht].
  - intros Hin. apply negb_true_iff in Hp.
    assert (Hex : existsb (coord_eqb p) t = true).
    { apply existsb_exists. exists p. split; [assumption|].
      apply coord_eqb_eq. reflexivity. }
    congruence.
  - apply IH. assumption.
Qed.

Lemma NoDup_coords : NoDup coords.
Proof. apply nodupb_NoDup. vm_compute. reflexivity. Qed.

Lemma length_coords : length coords = 81%nat.
Proof. reflexivity. Qed.

Lemma wf_grid_spec (g : grid) :
  wf_grid g = true <->
  length (cells g) = ROWS /\
  forall i, (i < ROWS)%nat -> length (nth i (cells g) []) = COLS.
Proof.
  unfold wf_grid. rewrite andb_true_iff, Nat.eqb_eq, forallb_forall. split.
  - intros [Hlen Hrows]. split; [assumption|]. intros i Hi.
    apply Nat.eqb_eq, Hrows, nth_In. lia.
  - intros [Hlen Hrows]. split; [assumption|]. intros row Hin.
    destruct (In_nth _ _ [] Hin) as (i & Hi & <-).
    apply Nat.eqb_eq, Hrows. lia.
Qed.

Lemma get_set_neq (g : grid) (i j i' j' : nat) (v : Z) :
  (i, j) <> (i', j') -> get_cell (set_cell g i j v) i' j' = get_cell g i' j'.
Proof.
  intros Hne. unfold get_cell, set_cell; simpl.
  destruct (Nat.eq_dec i i') as [->|Hi].
  - destruct (Nat.lt_ge_cases i' (length (cells g))) as [Hlt|Hge].
    + rewrite nth_upd_eq by assumption. apply nth_upd_neq. congruence.
    + rewrite upd_out by assumption. reflexivity.
  - rewrite nth_upd_neq by assumption. reflexivity.
Qed.

Lemma get_set_eq (g : grid) (i j : nat) (v : Z) :
  wf_grid g = true -> (i < ROWS)%nat -> (j < COLS)%nat ->
  get_cell (set_cell g i j v) i j = v.
Proof.
  intros Hwf Hi Hj. apply wf_grid_spec in Hwf. destruct Hwf as [Hlen Hrows].
  unfold get_cell, set_cell; simpl.
  rewrite nth_upd_eq by lia. apply nth_upd_eq. rewrite Hrows; assumption.
Qed.

(** Whatever the shape of the grid, an assignment changes at most the cell
    assigned, and a cell that reads non-zero exists. *)
Lemma get_set_cases (g : grid) (i j i' j' : nat) (v : Z) :
  get_cell (set_cell g i j v) i' j' = get_cell g i' j' \/
  ((i, j) = (i', j') /\ get_cell (set_cell g i j v) i' j' = v).
Proof.
  destruct (Nat.eq_dec i i') as [->|Hi]; [destruct (Nat.eq_dec j j') as [->|Hj]|].
  - unfold get_cell, set_cell; simpl.
    destruct (Nat.lt_ge_cases i' (length (cells g))) as [Hlt|Hge].
    + rewrite nth_upd_eq by assumption.
      destruct (Nat.lt_ge_cases j' (length (nth i' (cells g) []))) as [Hlt'|Hge'].
      * right. split; [reflexivity | apply nth_upd_eq; assumption].
      * left. rewrite upd_out by assumption. reflexivity.
    + left. rewrite upd_out by assumption. reflexivity.
  - left. apply get_set_neq. congruence.
  - left. apply get_set_neq. congruence.
Qed.

Lemma get_set_nonzero (g : grid) (i j : nat) (v : Z) :
  get_cell g i j <> 0 -> get_cell (set_cell g i j v) i j = v.
Proof.
  intros Hnz. unfold get_cell, set_cell in *; simpl.
  destruct (Nat.lt_ge_cases i (length (cells g))) as [Hlt|Hge].
  - rewrite nth_upd_eq by assumption.
    destruct (Nat.lt_ge_cases j (length (nth i (cells g) []))) as [Hlt'|Hge'].
    + apply nth_upd_eq; assumption.
    + rewrite nth_overflow in Hnz by assumption. congruence.
  - rewrite (nth_overflow (cells g)) in Hnz by assumption.
    destruct j; simpl in Hnz; congruence.
Qed.

Lemma wf_set (g : grid) (i j : nat) (v : Z) :
  wf_grid (set_cell g i j v) = wf_grid g.
Proof.
  apply eq_true_iff_eq. rewrite !wf_grid_spec. unfold set_cell; simpl.
  rewrite upd_length. split; intros [Hlen Hrows]; (split; [assumption|]);
    intros k Hk; specialize (Hrows k Hk).
  - destruct (Nat.eq_dec i k) as [->|Hne].
    + rewrite nth_upd_eq, upd_length in Hrows by lia. assumption.
    + rewrite nth_upd_neq in Hrows by assumption. assumption.
  - destruct (Nat.eq_dec i k) as [->|Hne].
    + rewrite nth_upd_eq, upd_length by lia. assumption.
    + rewrite nth_upd_neq by assumption. assumption.
Qed.

Lemma set_set (g : grid) (i j : nat) (v w : Z) :
  set_cell (set_cell g i j v) i j w = set_cell g i j w.
Proof.
  unfold set_cell; simpl. f_equal.
  destruct (Nat.lt_ge_cases i (length (cells g))) as [Hlt|Hge].
  - rewrite nth_upd_eq by assumption. rewrite upd_upd, upd_upd. reflexivity.
  - rewrite !(upd_out i) by (rewrite ?upd_length; assumption). reflexivity.
Qed.

Lemma set_same (g : grid) (i j : nat) :
  set_cell g i j (get_cell g i j) = g.
Proof.
  destruct g as [cs n]. unfold set_cell, get_cell; simpl. f_equal.
  destruct (Nat.lt_ge_cases i (length cs)) as [Hlt|Hge].
  - destruct (Nat.lt_ge_cases j (length (nth i cs []))) as [Hlt'|Hge'].
    + rewrite upd_same by assumption. apply upd_same; assumption.
    + rewrite (upd_out j) by assumption. apply upd_same; assumption.
  - apply upd_out; assumption.
Qed.

Lemma grid_ext (g h : grid) :
  wf_grid g = true -> wf_grid h = true ->
  (forall i j, (i < ROWS)%nat -> (j < COLS)%nat -> get_cell g i j = get_cell h i j) ->
  solved_counter g = solved_counter h -> g = h.
Proof.
  intros Hg Hh Hcells Hcnt. apply wf_grid_spec in Hg, Hh.
  destruct Hg as [Hlg Hrg], Hh as [Hlh Hrh].
  destruct g as [cg ng], h as [ch nh]; simpl in *. subst nh. f_equal.
  apply (nth_ext _ _ [] []); [congruence|].
  intros i Hi. rewrite Hlg in Hi.
  apply (nth_ext _ _ 0 0); [rewrite Hrg, Hrh by assumption; reflexivity|].
  intros j Hj. rewrite Hrg in Hj by assumption.
  apply (Hcells i j); assumption.
Qed.

Section Fill.
Variable f : nat -> nat -> Z.

Let step (acc : grid) (ij : nat * nat) : grid :=
  set_cell acc (fst ij) (snd ij) (f (fst ij) (snd ij)).

Lemma fill_loop_wf (ps : list (nat * nat)) (g : grid) :
  wf_grid (fold_left step ps g) = wf_grid g.
Proof.
  revert g; induction ps as [|p ps IH]; intros g; simpl; [reflexivity|].
  rewrite IH. apply wf_set.
Qed.

Lemma fill_loop_counter (ps : list (nat * nat)) (g : grid) :
  solved_counter (fold_left step ps g) = solved_counter g.
Proof.
  revert g; induction ps as [|p ps IH]; intros g; simpl; [reflexivity|].
  rewrite IH. reflexivity.
Qed.

Lemma fill_loop_frame (ps : list (nat * nat)) (g : grid) (i j : nat) :
  ~ In (i, j) ps -> get_cell (fold_left step ps g) i j = get_cell g i j.
Proof.
  revert g; induction ps as [|[a b] ps IH]; intros g Hnin; simpl;
    [reflexivity|].
  rewrite IH by (intros Hin; apply Hnin; right; assumption).
  apply get_set_neq. intros Heq. apply Hnin. left. assumption.
Qed.

Lemma fill_loop_get (ps : list (nat * nat)) (g : grid) (i j : nat) :
  wf_grid g = true -> (i < ROWS)%nat -> (j < COLS)%nat -> In (i, j) ps ->
  get_cell (fold_left step ps g) i j = f i j.
Proof.
  revert g; induction ps as [|[a b] ps IH]; intros g Hwf Hi Hj Hin; simpl;
    [contradiction|].
  destruct (in_dec (fun p q : nat * nat =>
                      ltac:(decide equality; apply Nat.eq_dec) : {p = q} + {p <> q})
              (i, j) ps) as [Hps|Hps].
  - apply IH; try assumption. unfold step. rewrite wf_set. assumption.
  - destruct Hin as [Heq|Hin]; [|contradiction]. inversion Heq; subst.
    rewrite fill_loop_frame by assumption.
    apply get_set_eq; assumption.
Qed.

Lemma fill_wf (g : grid) : wf_grid (fill f g) = wf_grid g.
Proof. apply fill_loop_wf. Qed.

Lemma fill_get (g : grid) (i j : nat) :
  wf_grid g = true -> (i < ROWS)%nat -> (j < COLS)%nat ->
  get_cell (fill f g) i j = f i j.
Proof.
  intros Hwf Hi Hj. apply fill_loop_get; try assumption.
  apply in_coords; split; assumption.
Qed.
End Fill.


Lemma get_cell_recounter (g : grid) (n : Z) (i j : nat) :
  get_cell (mkGrid (cells g) n) i j = get_cell g i j.
Proof. reflexivity. Qed.

Lemma wf_grid_recounter (g : grid) (n : Z) :
  wf_grid (mkGrid (cells g) n) = wf_grid g.
Proof. reflexivity. Qed.

Lemma copy_grid_eq (sg dg : grid) :
  wf_grid sg = true -> wf_grid dg = true -> copy_grid sg dg = sg.
Proof.
  intros Hs Hd. unfold copy_grid. apply grid_ext; try assumption.
  - rewrite wf_grid_recounter, fill_wf. assumption.
  - intros i j Hi Hj. rewrite get_cell_recounter.
    apply fill_get; assumption.
  - reflexivity.
Qed.

Lemma grid_zero_wf (g : grid) : wf_grid (grid_zero g) = wf_grid g.
Proof. unfold grid_zero. rewrite wf_grid_recounter. apply fill_wf. Qed.

Lemma grid_zero_get (g : grid) (i j : nat) :
  wf_grid g = true -> (i < ROWS)%nat -> (j < COLS)%nat ->
  get_cell (grid_zero g) i j = O_CELL.
Proof.
  intros Hwf Hi Hj. unfold grid_zero. rewrite get_cell_recounter.
  apply (fill_get (fun _ _ => O_CELL)); assumption.
Qed.

Lemma wg_local_wf : wf_grid wg_local = true.
Proof. reflexivity. Qed.

(** ** Bits of a cell *)

Lemma shiftl_1_testbit (k n : Z) :
  0 <= k -> Z.testbit (Z.shiftl 1 k) n = (k =? n).
Proof.
  intros Hk. rewrite Z.shiftl_1_l. apply Z.pow2_bits_eqb. assumption.
Qed.

Lemma candidate_testbit (cell k : Z) :
  0 <= k -> candidate cell k = Z.testbit cell k.
Proof.
  intros Hk. unfold candidate.
  destruct (Z.eqb_spec (Z.land cell (Z.shiftl 1 k)) 0) as [Hz|Hnz]; simpl.
  - assert (H : Z.testbit (Z.land cell (Z.shiftl 1 k)) k = false)
      by (rewrite Hz; apply Z.bits_0).
    rewrite Z.land_spec, shiftl_1_testbit, Z.eqb_refl, andb_true_r in H
      by assumption.
    congruence.
  - destruct (Z.testbit cell k) eqn:Hb; [reflexivity|].
    exfalso. apply Hnz. apply Z.bits_inj'. intros n Hn.
    rewrite Z.land_spec, shiftl_1_testbit, Z.bits_0 by assumption.
    destruct (Z.eqb_spec k n) as [->|Hne]; [|apply andb_false_r].
    rewrite Hb. reflexivity.
Qed.

Lemma flagged_testbit (cell : Z) : flagged cell = Z.testbit cell 0.
Proof. apply (candidate_testbit cell 0). lia. Qed.

Lemma cells_forall (P : Z -> bool) :
  forallb P (map Z.of_nat (seq 0 1024)) = true ->
  forall c, 0 <= c < 1024 -> P c = true.
Proof.
  intros Hall c Hc. rewrite forallb_forall in Hall. apply Hall.
  apply in_map_iff. exists (Z.to_nat c). split; [lia|]. apply in_seq. lia.
Qed.

Lemma values_forall (P : Z -> bool) :
  forallb P values = true -> forall v, 1 <= v <= 9 -> P v = true.
Proof.
  intros Hall v Hv. rewrite forallb_forall in Hall. apply Hall.
  apply in_map_iff. exists (Z.to_nat v). split; [lia|]. apply in_seq. lia.
Qed.

Lemma in_values (v : Z) : In v values <-> 1 <= v <= 9.
Proof.
  unfold values. rewrite in_map_iff. split.
  - intros (n & <- & Hn). apply in_seq in Hn. lia.
  - intros Hv. exists (Z.to_nat v). split; [lia|]. apply in_seq. lia.
Qed.

Lemma count_loop_acc (cell : Z) (l : list Z) (a : Z) :
  fold_left (fun poss i => if candidate cell i then poss + 1 else poss) l a
  = a + Z.of_nat (length (filter (candidate cell) l)).
Proof.
  revert a; induction l as [|k l IH]; intros a; simpl; [lia|].
  rewrite IH. destruct (candidate cell k); simpl; lia.
Qed.

Lemma count_poss_filter (cell : Z) :
  count_poss cell = Z.of_nat (length (filter (candidate cell) values)).
Proof. unfold count_poss. rewrite count_loop_acc. lia. Qed.

Lemma count_poss_range (cell : Z) : 0 <= count_poss cell <= 9.
Proof.
  rewrite count_poss_filter.
  pose proof (filter_length_le (candidate cell) values) as H.
  change (length values) with 9%nat in H. lia.
Qed.

Lemma filter_length_mono {A : Type} (p q : A -> bool) (l : list A) :
  (forall x, In x l -> p x = true -> q x = true) ->
  (length (filter p l) <= length (filter q l))%nat.
Proof.
  induction l as [|x l IH]; intros Hpq; simpl; [lia|].
  assert (IH' : (length (filter p l) <= length (filter q l))%nat)
    by (apply IH; intros y Hy; apply Hpq; right; assumption).
  destruct (p x) eqn:Hp.
  - rewrite (Hpq x (or_introl eq_refl) Hp). simpl. lia.
  - destruct (q x); simpl; lia.
Qed.

Lemma filter_length_strict {A : Type} (p q : A -> bool) (l : list A) (a : A) :
  (forall x, In x l -> p x = true -> q x = true) ->
  In a l -> p a = false -> q a = true ->
  (length (filter p l) < length (filter q l))%nat.
Proof.
  induction l as [|x l IH]; intros Hpq Hin Hpa Hqa; simpl; [contradiction|].
  assert (Hmono : (length (filter p l) <= length (filter q l))%nat)
    by (apply filter_length_mono; intros y Hy; apply Hpq; right; assumption).
  destruct Hin as [->|Hin].
  - rewrite Hpa, Hqa. simpl. lia.
  - assert (IH' : (length (filter p l) < length (filter q l))%nat)
      by (apply IH; try assumption; intros y Hy; apply Hpq; right; assumption).
    destruct (p x) eqn:Hp.
    + rewrite (Hpq x (or_introl eq_refl) Hp). simpl. lia.
    + destruct (q x); simpl; lia.
Qed.

(** Clearing candidate bits can only lower the count. *)
Lemma count_poss_mono (x y : Z) :
  (forall k, 1 <= k <= 9 -> candidate x k = true -> candidate y k = true) ->
  count_poss x <= count_poss y.
Proof.
  intros H. rewrite !count_poss_filter. apply inj_le.
  apply filter_length_mono. intros k Hk. apply H, in_values, Hk.
Qed.

Lemma count_poss_strict (x y k : Z) :
  (forall k, 1 <= k <= 9 -> candidate x k = true -> candidate y k = true) ->
  1 <= k <= 9 -> candidate x k = false -> candidate y k = true ->
  count_poss x < count_poss y.
Proof.
  intros H Hk Hx Hy. rewrite !count_poss_filter. apply inj_lt.
  apply (filter_length_strict _ _ _ k); try assumption.
  - intros j Hj. apply H, in_values, Hj.
  - apply in_values, Hk.
Qed.

Lemma count_poss_ext (x y : Z) :
  (forall k, 1 <= k <= 9 -> candidate x k = candidate y k) ->
  count_poss x = count_poss y.
Proof.
  intros H. apply Z.le_antisymm; apply count_poss_mono; intros k Hk;
    rewrite (H k Hk); auto.
Qed.

Lemma candidate_lor_flag (x k : Z) :
  1 <= k -> candidate (Z.lor x SOLVED) k = candidate x k.
Proof.
  intros Hk. rewrite !candidate_testbit by lia. rewrite Z.lor_spec.
  unfold SOLVED. change 1 with (Z.shiftl 1 0).
  rewrite shiftl_1_testbit by lia.
  destruct (Z.eqb_spec 0 k); [lia | apply orb_false_r].
Qed.

Lemma flagged_lor_flag (x : Z) : flagged (Z.lor x SOLVED) = true.
Proof.
  rewrite flagged_testbit, Z.lor_spec. unfold SOLVED.
  change (Z.testbit 1 0) with true. apply orb_true_r.
Qed.

Lemma candidate_land (x m k : Z) :
  0 <= k -> candidate (Z.land x m) k = candidate x k && Z.testbit m k.
Proof.
  intros Hk. rewrite !candidate_testbit by assumption. apply Z.land_spec.
Qed.

Lemma mark_if_solved_cases (x : Z) :
  (count_poss x = 1 /\ mark_if_solved x = Z.lor x SOLVED) \/
  (count_poss x <> 1 /\ mark_if_solved x = x).
Proof.
  unfold mark_if_solved. destruct (Z.eqb_spec (count_poss x) 1); auto.
Qed.

Lemma candidate_mark (x k : Z) :
  1 <= k -> candidate (mark_if_solved x) k = candidate x k.
Proof.
  intros Hk. destruct (mark_if_solved_cases x) as [[_ ->]|[_ ->]];
    [apply candidate_lor_flag; assumption | reflexivity].
Qed.

Lemma count_poss_mark (x : Z) : count_poss (mark_if_solved x) = count_poss x.
Proof. apply count_poss_ext. intros k Hk. apply candidate_mark. lia. Qed.

Lemma flagged_mark (x : Z) :
  flagged (mark_if_solved x) = flagged x || (count_poss x =? 1).
Proof.
  destruct (mark_if_solved_cases x) as [[Hc ->]|[Hc ->]].
  - rewrite flagged_lor_flag, Hc. simpl. symmetry. apply orb_true_r.
  - apply Z.eqb_neq in Hc. rewrite Hc. symmetry. apply orb_false_r.
Qed.

(** The mask built by [reduce] keeps the flag and every bit that is not a
    candidate bit of the source cell. *)
Lemma mask_testbit (s k : Z) :
  0 <= k ->
  Z.testbit (Z.lnot (Z.land s O_CELL)) k
  = negb (Z.testbit s k && (1 <=? k) && (k <=? 9)).
Proof.
  intros Hk. rewrite Z.lnot_spec, Z.land_spec by assumption. f_equal.
  rewrite <- andb_assoc. f_equal.
  assert (H : forall n, 0 <= n < 10 -> Z.testbit O_CELL n = (1 <=? n) && (n <=? 9)).
  { intros n Hn.
    assert (Hlow : forallb (fun b => Bool.eqb (Z.testbit O_CELL b)
                                       ((1 <=? b) && (b <=? 9)))
                     (map Z.of_nat (seq 0 10)) = true) by reflexivity.
    rewrite forallb_forall in Hlow. apply eqb_prop, Hlow.
    apply in_map_iff. exists (Z.to_nat n). split; [lia|]. apply in_seq. lia. }
  destruct (Z.lt_ge_cases k 10) as [Hlt|Hge].
  - apply H. lia.
  - replace (k <=? 9) with false by (symmetry; apply Z.leb_gt; lia).
    rewrite andb_false_r.
    apply (Z.bits_above_log2 O_CELL k); [unfold O_CELL; lia|].
    change (Z.log2 O_CELL) with 9. lia.
Qed.

Lemma flagged_land_mask (x s : Z) :
  flagged (Z.land x (Z.lnot (Z.land s O_CELL))) = flagged x.
Proof.
  rewrite !flagged_testbit, Z.land_spec, mask_testbit by lia.
  rewrite andb_false_r. simpl. apply andb_true_r.
Qed.

Lemma candidate_land_mask (x s k : Z) :
  1 <= k <= 9 ->
  candidate (Z.land x (Z.lnot (Z.land s O_CELL))) k
  = candidate x k && negb (candidate s k).
Proof.
  intros Hk. rewrite candidate_land, mask_testbit by lia.
  rewrite (candidate_testbit s) by lia.
  replace (1 <=? k) with true by (symmetry; apply Z.leb_le; lia).
  replace (k <=? 9) with true by (symmetry; apply Z.leb_le; lia).
  rewrite !andb_true_r. reflexivity.
Qed.

(** ** Encoded digits *)

Lemma set_value_testbit (v n : Z) :
  1 <= v -> 0 <= n -> Z.testbit (set_value v) n = (v =? n) || (n =? 0).
Proof.
  intros Hv Hn. unfold set_value, SOLVED. rewrite Z.lor_spec.
  rewrite shiftl_1_testbit by lia. f_equal.
Qed.

Lemma flagged_set_value (v : Z) : 1 <= v -> flagged (set_value v) = true.
Proof.
  intros Hv. rewrite flagged_testbit, set_value_testbit by lia.
  apply orb_true_r.
Qed.

Lemma candidate_set_value (v k : Z) :
  1 <= v -> 1 <= k -> candidate (set_value v) k = (v =? k).
Proof.
  intros Hv Hk. rewrite candidate_testbit, set_value_testbit by lia.
  destruct (Z.eqb_spec k 0); [lia | apply orb_false_r].
Qed.

Lemma set_value_facts (v : Z) :
  1 <= v <= 9 ->
  count_poss (set_value v) = 1 /\ cell_ok (set_value v) = true
  /\ get_value (set_value v) = v /\ set_value v <> 0 /\ set_value v <> 1
  /\ mark_if_solved (set_value v) = set_value v.
Proof.
  intros Hv.
  pose proof (values_forall
                (fun v => (count_poss (set_value v) =? 1) && cell_ok (set_value v)
                          && (get_value (set_value v) =? v)
                          && negb (set_value v =? 0) && negb (set_value v =? 1)
                          && (mark_if_solved (set_value v) =? set_value v))
                ltac:(vm_compute; reflexivity) v Hv) as H.
  cbv beta in H. rewrite !andb_true_iff, !negb_true_iff, !Z.eqb_eq, !Z.eqb_neq in H.
  tauto.
Qed.

Lemma set_value_inj (v w : Z) :
  1 <= v <= 9 -> 1 <= w <= 9 -> set_value v = set_value w -> v = w.
Proof.
  intros Hv Hw Heq.
  destruct (set_value_facts v Hv) as (_ & _ & Hgv & _).
  destruct (set_value_facts w Hw) as (_ & _ & Hgw & _).
  congruence.
Qed.

(** Clearing the candidates of a source from an encoded digit leaves it
    untouched, or leaves only the flag. *)
Lemma land_mask_set_value (s v : Z) :
  1 <= v <= 9 ->
  Z.land (set_value v) (mask_of s) = if candidate s v then 1 else set_value v.
Proof.
  intros Hv. unfold mask_of.
  assert (Hmask : forall n, 0 <= n ->
            ((v =? n) || (n =? 0)) && negb (Z.testbit s n && (1 <=? n) && (n <=? 9))
            = if Z.testbit s v then (n =? 0) else (v =? n) || (n =? 0)).
  { intros n Hn.
    destruct (Z.eqb_spec v n) as [Hvn|Hne]; destruct (Z.eqb_spec n 0) as [Hz|Hn0];
      try lia; simpl.
    - rewrite <- Hvn.
      replace (1 <=? v) with true by (symmetry; apply Z.leb_le; lia).
      replace (v <=? 9) with true by (symmetry; apply Z.leb_le; lia).
      destruct (Z.testbit s v); reflexivity.
    - rewrite Hz. rewrite andb_false_r. destruct (Z.testbit s v); reflexivity.
    - destruct (Z.testbit s v); reflexivity. }
  rewrite (candidate_testbit s v) by lia.
  apply Z.bits_inj'; intros n Hn.
  rewrite Z.land_spec, mask_testbit, set_value_testbit, Hmask by lia.
  destruct (Z.testbit s v); [reflexivity|].
  rewrite set_value_testbit by lia. reflexivity.
Qed.

Lemma new_cell_set_value (s v : Z) :
  1 <= v <= 9 ->
  new_cell (mask_of s) (set_value v) = if candidate s v then 1 else set_value v.
Proof.
  intros Hv. unfold new_cell. rewrite land_mask_set_value by assumption.
  destruct (candidate s v); [reflexivity|].
  apply set_value_facts; assumption.
Qed.

(** ** Well-formed cells, by enumeration of the 1024 bit-vectors *)

Lemma cell_ok_range (c : Z) : cell_ok c = true -> 0 <= c < 1024.
Proof.
  unfold cell_ok. rewrite !andb_true_iff, Z.leb_le, Z.ltb_lt. tauto.
Qed.

Lemma cell_ok_solved (c : Z) :
  cell_ok c = true -> flagged c = true ->
  exists v, 1 <= v <= 9 /\ c = set_value v.
Proof.
  intros Hok Hfl.
  pose proof (cells_forall solved_facts ltac:(vm_compute; reflexivity) c
                (cell_ok_range c Hok)) as H.
  unfold solved_facts in H. rewrite Hok, Hfl in H. cbn [andb negb orb] in H.
  apply existsb_exists in H. destruct H as (v & Hin & Heq).
  exists v. split; [apply in_values, Hin | apply Z.eqb_eq, Heq].
Qed.

Lemma step_facts_all (w c : Z) :
  1 <= w <= 9 -> cell_ok c = true -> step_facts w c = true.
Proof.
  intros Hw Hc.
  pose proof (values_forall
                (fun w => forallb (step_facts w) (map Z.of_nat (seq 0 1024)))
                ltac:(vm_compute; reflexivity) w Hw) as H.
  cbv beta in H. apply (cells_forall _ H c), cell_ok_range, Hc.
Qed.

Lemma fixpoint_facts_all (w c : Z) :
  1 <= w <= 9 -> cell_ok c = true -> fixpoint_facts w c = true.
Proof.
  intros Hw Hc.
  pose proof (values_forall
                (fun w => forallb (fixpoint_facts w) (map Z.of_nat (seq 0 1024)))
                ltac:(vm_compute; reflexivity) w Hw) as H.
  cbv beta in H. apply (cells_forall _ H c), cell_ok_range, Hc.
Qed.

(** ** A proof rule for the loop of [reduce] *)

Lemma reduce_loop_cons (row column : nat) (mask : Z) (i j : nat)
    (ps : list (nat * nat)) (g : grid) (changed : Z) :
  reduce_loop row column mask ((i, j) :: ps) g changed =
  if touched row column mask i j (get_cell g i j) then
    let cell := new_cell mask (get_cell g i j) in
    if (cell =? 0) || (cell =? 1) then (step_grid g i j cell, -1)
    else reduce_loop row column mask ps (step_grid g i j cell)
           (if cell =? get_cell g i j then changed else changed + 1)
  else reduce_loop row column mask ps g changed.
Proof.
  unfold touched, is_peer, step_grid, new_cell. simpl.
  destruct ((i =? row)%nat && (j =? column)%nat); reflexivity.
Qed.

Section ReduceLoopRule.
Variables (row column : nat) (mask : Z).
(** [Inv ps g changed]: the state before the index pairs [ps] are visited;
    [Stop g]: the state when the loop returns [-1]. *)
Variable Inv : list (nat * nat) -> grid -> Z -> Prop.
Variable Stop : grid -> Prop.

Hypothesis Hskip : forall i j ps g changed,
  Inv ((i, j) :: ps) g changed ->
  touched row column mask i j (get_cell g i j) = false ->
  Inv ps g changed.

Hypothesis Hstep : forall i j ps g changed,
  Inv ((i, j) :: ps) g changed ->
  touched row column mask i j (get_cell g i j) = true ->
  let cell := new_cell mask (get_cell g i j) in
  if (cell =? 0) || (cell =? 1) then Stop (step_grid g i j cell)
  else Inv ps (step_grid g i j cell)
         (if cell =? get_cell g i j then changed else changed + 1).

Lemma reduce_loop_rule (ps : list (nat * nat)) (g : grid) (changed : Z) :
  Inv ps g changed ->
  (snd (reduce_loop row column mask ps g changed) = -1
   /\ Stop (fst (reduce_loop row column mask ps g changed)))
  \/ Inv [] (fst (reduce_loop row column mask ps g changed))
            (snd (reduce_loop row column mask ps g changed)).
Proof.
  revert g changed; induction ps as [|[i j] ps IH]; intros g changed HI.
  - right. exact HI.
  - rewrite reduce_loop_cons.
    destruct (touched row column mask i j (get_cell g i j)) eqn:Ht.
    + pose proof (Hstep i j ps g changed HI Ht) as Hs. cbv zeta in *.
      destruct ((new_cell mask (get_cell g i j) =? 0)
                || (new_cell mask (get_cell g i j) =? 1)).
      * left. split; [reflexivity | exact Hs].
      * apply IH. exact Hs.
    + apply IH. apply (Hskip i j); assumption.
Qed.
End ReduceLoopRule.

Lemma reduce_unsolved (g : grid) (row column : nat) :
  flagged (get_cell g row column) = false -> reduce g row column = (g, 0).
Proof.
  unfold flagged, reduce. intros H. apply negb_false_iff in H. rewrite H.
  reflexivity.
Qed.

Lemma reduce_solved (g : grid) (row column : nat) :
  flagged (get_cell g row column) = true ->
  reduce g row column
  = reduce_loop row column (mask_of (get_cell g row column)) coords g 0.
Proof.
  unfold flagged, reduce. intros H. apply negb_true_iff in H. rewrite H.
  reflexivity.
Qed.

Lemma touched_nonzero (row column : nat) (mask : Z) (i j : nat) (cell : Z) :
  touched row column mask i j cell = true -> cell <> 0.
Proof.
  unfold touched. rewrite andb_true_iff, negb_true_iff, Z.eqb_neq.
  intros [_ H] ->. apply H. reflexivity.
Qed.

Lemma get_step_grid_neq (g : grid) (i j i' j' : nat) (cell : Z) :
  (i, j) <> (i', j') -> get_cell (step_grid g i j cell) i' j' = get_cell g i' j'.
Proof.
  intros Hne. unfold step_grid.
  destruct (negb (cell =? get_cell g i j) && flagged cell);
    [unfold incr_solved; rewrite get_cell_recounter|]; apply get_set_neq, Hne.
Qed.

Lemma get_step_grid_eq (g : grid) (i j : nat) (cell : Z) :
  get_cell g i j <> 0 -> get_cell (step_grid g i j cell) i j = cell.
Proof.
  intros Hnz. unfold step_grid.
  destruct (negb (cell =? get_cell g i j) && flagged cell);
    [unfold incr_solved; rewrite get_cell_recounter|]; apply get_set_nonzero, Hnz.
Qed.

Lemma wf_step_grid (g : grid) (i j : nat) (cell : Z) :
  wf_grid (step_grid g i j cell) = wf_grid g.
Proof.
  unfold step_grid.
  destruct (negb (cell =? get_cell g i j) && flagged cell);
    [unfold incr_solved; rewrite wf_grid_recounter|]; apply wf_set.
Qed.

Lemma counter_step_grid (g : grid) (i j : nat) (cell : Z) :
  solved_counter (step_grid g i j cell)
  = solved_counter g
    + (if negb (cell =? get_cell g i j) && flagged cell then 1 else 0).
Proof.
  unfold step_grid.
  destruct (negb (cell =? get_cell g i j) && flagged cell); simpl; lia.
Qed.

(** ** Monotonicity of propagation *)

Lemma tightens_refl (g : grid) : tightens g g.
Proof. split; [auto | lia]. Qed.

Lemma tightens_trans (g1 g2 g3 : grid) :
  tightens g3 g2 -> tightens g2 g1 -> tightens g3 g1.
Proof.
  intros [H32 C32] [H21 C21]. split; [|lia].
  intros i j k Hk H. apply H21, H32; assumption.
Qed.

Lemma tightens_step (row column : nat) (mask : Z) (g : grid) (i j : nat) :
  touched row column mask i j (get_cell g i j) = true ->
  tightens (step_grid g i j (new_cell mask (get_cell g i j))) g.
Proof.
  intros Ht. split.
  - intros i' j' k Hk.
    destruct (Nat.eq_dec i i') as [<-|Hi]; [destruct (Nat.eq_dec j j') as [<-|Hj]|].
    + rewrite get_step_grid_eq by (eapply touched_nonzero; eassumption).
      unfold new_cell. rewrite candidate_mark, candidate_land by lia.
      intros H. apply andb_true_iff in H. tauto.
    + rewrite get_step_grid_neq by congruence. auto.
    + rewrite get_step_grid_neq by congruence. auto.
  - rewrite counter_step_grid.
    destruct (negb _ && _); lia.
Qed.

Lemma reduce_loop_tightens (row column : nat) (mask : Z)
    (ps : list (nat * nat)) (g : grid) (changed : Z) :
  tightens (fst (reduce_loop row column mask ps g changed)) g.
Proof.
  destruct (reduce_loop_rule row column mask
              (fun _ g' _ => tightens g' g) (fun g' => tightens g' g))
    with (ps := ps) (g := g) (changed := changed) as [[_ H]|H]; auto.
  - intros i j ps' g' ch HI Ht. cbv zeta.
    pose proof (tightens_trans _ _ _ (tightens_step _ _ _ _ _ _ Ht) HI) as H.
    destruct (_ || _); exact H.
  - apply tightens_refl.
Qed.

Lemma reduce_tightens (g : grid) (row column : nat) :
  tightens (fst (reduce g row column)) g.
Proof.
  destruct (flagged (get_cell g row column)) eqn:Hf.
  - rewrite reduce_solved by assumption. apply reduce_loop_tightens.
  - rewrite reduce_unsolved by assumption. apply tightens_refl.
Qed.

Lemma reduce_grid_loop_tightens (ps : list (nat * nat)) (g : grid) (n : Z) :
  tightens (fst (reduce_grid_loop ps g n)) g.
Proof.
  revert g n; induction ps as [|[i j] ps IH]; intros g n; simpl.
  - apply tightens_refl.
  - pose proof (reduce_tightens g i j) as H.
    destruct (reduce g i j) as [g' r]. simpl in H.
    destruct (r =? -1); [exact H|].
    eapply tightens_trans; [apply IH | exact H].
Qed.

(** C7. Every application of [reduce], and hence of [reduce_grid], only
    clears candidate bits 1..9 (each cell's candidates afterwards are among
    its candidates before) and never lowers [solved_counter]; this holds
    whatever the value returned, the failure signal included. *)
Theorem reduce_monotone (g : grid) (row column : nat) :
  tightens (fst (reduce g row column)) g /\ tightens (fst (reduce_grid g)) g.
Proof.
  split; [apply reduce_tightens | apply reduce_grid_loop_tightens].
Qed.

(** ** Encoded digits through a reduction *)

Lemma is_peer_sym (row column i j : nat) :
  is_peer row column i j = is_peer i j row column.
Proof.
  unfold is_peer, same_unit.
  rewrite (Nat.eqb_sym i row), (Nat.eqb_sym j column).
  rewrite (Nat.eqb_sym (row / R_ROWS)), (Nat.eqb_sym (column / R_COLS)).
  reflexivity.
Qed.

Lemma is_peer_neq (row column i j : nat) :
  is_peer row column i j = true -> (i, j) <> (row, column).
Proof.
  unfold is_peer. intros H Heq. inversion Heq; subst.
  rewrite !Nat.eqb_refl in H. discriminate.
Qed.

(** A reduction that does not fail leaves every encoded digit in place. *)
Lemma reduce_loop_keeps (row column : nat) (s : Z) (ps : list (nat * nat))
    (g : grid) (changed : Z) (a b : nat) (v : Z) :
  1 <= v <= 9 -> get_cell g a b = set_value v ->
  snd (reduce_loop row column (mask_of s) ps g changed) = -1
  \/ get_cell (fst (reduce_loop row column (mask_of s) ps g changed)) a b
     = set_value v.
Proof.
  intros Hv Hg.
  destruct (set_value_facts v Hv) as (_ & _ & _ & Hn0 & Hn1 & _).
  destruct (reduce_loop_rule row column (mask_of s)
              (fun _ g' _ => get_cell g' a b = set_value v) (fun _ => True))
    with (ps := ps) (g := g) (changed := changed) as [[H _]|H]; auto.
  intros i j ps' g' ch HI Ht. cbv zeta.
  destruct (_ || _) eqn:Hab; [exact I|].
  destruct (Nat.eq_dec i a) as [->|Hi]; [destruct (Nat.eq_dec j b) as [->|Hj]|].
  - rewrite get_step_grid_eq by congruence.
    rewrite HI in *. rewrite new_cell_set_value in * by assumption.
    destruct (candidate s v); [discriminate | reflexivity].
  - rewrite get_step_grid_neq by congruence. assumption.
  - rewrite get_step_grid_neq by congruence. assumption.
Qed.

Lemma reduce_keeps (g : grid) (row column a b : nat) (v : Z) :
  1 <= v <= 9 -> get_cell g a b = set_value v ->
  snd (reduce g row column) = -1
  \/ get_cell (fst (reduce g row column)) a b = set_value v.
Proof.
  intros Hv Hg. destruct (flagged (get_cell g row column)) eqn:Hf.
  - rewrite reduce_solved by assumption. apply reduce_loop_keeps; assumption.
  - rewrite reduce_unsolved by assumption. right. assumption.
Qed.

(** A source whose digit is also held by a peer makes [reduce] fail. *)
Lemma reduce_loop_clash (row column : nat) (s : Z) (ps : list (nat * nat))
    (g : grid) (changed : Z) (a b : nat) (v : Z) :
  1 <= v <= 9 -> candidate s v = true -> is_peer row column a b = true ->
  In (a, b) ps -> get_cell g a b = set_value v ->
  snd (reduce_loop row column (mask_of s) ps g changed) = -1.
Proof.
  intros Hv Hs Hpeer Hin Hg.
  destruct (set_value_facts v Hv) as (_ & _ & _ & Hn0 & Hn1 & _).
  destruct (reduce_loop_rule row column (mask_of s)
              (fun ps' g' _ => In (a, b) ps' /\ get_cell g' a b = set_value v)
              (fun _ => True))
    with (ps := ps) (g := g) (changed := changed) as [[H _]|[[] _]]; auto.
  - intros i j ps' g' ch [HI1 HI2] Ht. split; [|assumption].
    destruct HI1 as [Heq|HI1]; [|assumption]. inversion Heq; subst.
    unfold touched in Ht. rewrite Hpeer, HI2, land_mask_set_value, Hs in Ht
      by assumption.
    discriminate.
  - intros i j ps' g' ch [HI1 HI2] Ht. cbv zeta.
    destruct (_ || _) eqn:Hab; [exact I|].
    destruct HI1 as [Heq|HI1].
    + inversion Heq; subst.
      rewrite HI2, new_cell_set_value, Hs in Hab by assumption. discriminate.
    + split; [assumption|].
      destruct (Nat.eq_dec i a) as [->|Hi]; [destruct (Nat.eq_dec j b) as [->|Hj]|].
      * rewrite HI2, new_cell_set_value, Hs in Hab by assumption. discriminate.
      * rewrite get_step_grid_neq by congruence. assumption.
      * rewrite get_step_grid_neq by congruence. assumption.
Qed.

Lemma reduce_clash (g : grid) (row column a b : nat) (v : Z) :
  1 <= v <= 9 -> (a < ROWS)%nat -> (b < COLS)%nat ->
  is_peer row column a b = true ->
  get_cell g row column = set_value v -> get_cell g a b = set_value v ->
  snd (reduce g row column) = -1.
Proof.
  intros Hv Ha Hb Hpeer Hsrc Hg.
  rewrite reduce_solved by (rewrite Hsrc; apply flagged_set_value; lia).
  apply (reduce_loop_clash _ _ _ _ _ _ a b v); try assumption.
  - rewrite Hsrc, candidate_set_value by lia. apply Z.eqb_refl.
  - apply in_coords. split; assumption.
Qed.

Lemma reduce_grid_loop_clash (ps : list (nat * nat)) (g : grid) (n : Z)
    (r1 c1 r2 c2 : nat) (v : Z) :
  1 <= v <= 9 ->
  (r1 < ROWS)%nat -> (c1 < COLS)%nat -> (r2 < ROWS)%nat -> (c2 < COLS)%nat ->
  is_peer r1 c1 r2 c2 = true ->
  get_cell g r1 c1 = set_value v -> get_cell g r2 c2 = set_value v ->
  In (r1, c1) ps \/ In (r2, c2) ps ->
  snd (reduce_grid_loop ps g n) = -1.
Proof.
  intros Hv Hr1 Hc1 Hr2 Hc2 Hpeer.
  revert g n; induction ps as [|[i j] ps IH]; intros g n H1 H2 Hin; simpl.
  - destruct Hin as [[]|[]].
  - pose proof (reduce_keeps g i j r1 c1 v Hv H1) as K1.
    pose proof (reduce_keeps g i j r2 c2 v Hv H2) as K2.
    assert (Hhere : (i, j) = (r1, c1) \/ (i, j) = (r2, c2) ->
                    snd (reduce g i j) = -1).
    { intros [Heq|Heq]; inversion Heq; subst.
      - apply (reduce_clash g r1 c1 r2 c2 v); assumption.
      - apply (reduce_clash g r2 c2 r1 c1 v); try assumption.
        rewrite is_peer_sym. assumption. }
    destruct (reduce g i j) as [g' r]. simpl in *.
    destruct (Z.eqb_spec r (-1)) as [Hr|Hr]; [reflexivity|].
    apply IH.
    + destruct K1; [contradiction | assumption].
    + destruct K2; [contradiction | assumption].
    + destruct Hin as [[Heq|Hin]|[Heq|Hin]]; auto; exfalso; apply Hr, Hhere; auto.
Qed.

Lemma reduce_until_fail (n : nat) (g : grid) :
  snd (reduce_grid g) = -1 ->
  reduce_until (S n) g = Some (fst (reduce_grid g), -1).
Proof.
  intros H. simpl. destruct (reduce_grid g) as [g' r]. simpl in H. subst r.
  reflexivity.
Qed.

Lemma try_unfold (depth : nat) (ig og : grid) :
  wf_grid ig = true ->
  try (S depth) ig og =
  match reduce_until (S (weight ig)) ig with
  | None => None
  | Some (wg, r) =>
    if r =? -1 then Some (0, og)
    else if solved_counter wg =? 81 then Some (1, copy_grid wg og)
    else
      guess_loop (try depth) values
        (get_cell wg (fst (choose_target_cell wg)) (snd (choose_target_cell wg)))
        (fst (choose_target_cell wg)) (snd (choose_target_cell wg))
        (incr_solved wg) og
  end.
Proof.
  intros Hwf. cbn [try].
  rewrite (copy_grid_eq ig wg_local Hwf wg_local_wf).
  destruct (reduce_until (S (weight ig)) ig) as [[wg r]|]; [|reflexivity].
  destruct (r =? -1); [reflexivity|].
  change (Z.of_nat (ROWS * COLS)) with 81.
  destruct (solved_counter wg =? 81); [reflexivity|].
  destruct (choose_target_cell wg) as [tr tc]. reflexivity.
Qed.

(** C2. An initial grid with two solved cells that hold the same digit and
    share a row, a column or a region makes [try] return failure (0), and
    the output grid is returned exactly as the caller supplied it. *)
Theorem try_rejects_clash (depth : nat) (ig og : grid) (r1 c1 r2 c2 : nat) :
  wf_grid ig = true ->
  (r1 < ROWS)%nat -> (c1 < COLS)%nat -> (r2 < ROWS)%nat -> (c2 < COLS)%nat ->
  is_peer r1 c1 r2 c2 = true ->
  cell_ok (get_cell ig r1 c1) = true -> flagged (get_cell ig r1 c1) = true ->
  cell_ok (get_cell ig r2 c2) = true -> flagged (get_cell ig r2 c2) = true ->
  get_value (get_cell ig r1 c1) = get_value (get_cell ig r2 c2) ->
  try (S depth) ig og = Some (0, og).
Proof.
  intros Hwf Hr1 Hc1 Hr2 Hc2 Hpeer Hok1 Hf1 Hok2 Hf2 Hval.
  destruct (cell_ok_solved _ Hok1 Hf1) as (v1 & Hv1 & E1).
  destruct (cell_ok_solved _ Hok2 Hf2) as (v2 & Hv2 & E2).
  assert (v2 = v1).
  { destruct (set_value_facts v1 Hv1) as (_ & _ & G1 & _).
    destruct (set_value_facts v2 Hv2) as (_ & _ & G2 & _).
    rewrite E1, E2 in Hval. congruence. }
  subst v2.
  assert (Hfail : snd (reduce_grid ig) = -1).
  { apply (reduce_grid_loop_clash coords ig 0 r1 c1 r2 c2 v1); try assumption.
    left. apply in_coords. split; assumption. }
  rewrite try_unfold by assumption.
  rewrite (reduce_until_fail _ _ Hfail). reflexivity.
Qed.

(** ** The shape of the grid is never changed *)

Lemma reduce_wf (g : grid) (row column : nat) :
  wf_grid (fst (reduce g row column)) = wf_grid g.
Proof.
  destruct (flagged (get_cell g row column)) eqn:Hf.
  - rewrite reduce_solved by assumption.
    destruct (reduce_loop_rule row column (mask_of (get_cell g row column))
                (fun _ g' _ => wf_grid g' = wf_grid g)
                (fun g' => wf_grid g' = wf_grid g))
      with (ps := coords) (g := g) (changed := 0) as [[_ H]|H]; auto.
    intros i j ps' g' ch HI Ht. cbv zeta.
    destruct (_ || _); rewrite wf_step_grid; assumption.
  - rewrite reduce_unsolved by assumption. reflexivity.
Qed.

Lemma reduce_grid_loop_wf (ps : list (nat * nat)) (g : grid) (n : Z) :
  wf_grid (fst (reduce_grid_loop ps g n)) = wf_grid g.
Proof.
  revert g n; induction ps as [|[i j] ps IH]; intros g n; simpl; [reflexivity|].
  pose proof (reduce_wf g i j) as H.
  destruct (reduce g i j) as [g' r]. simpl in H.
  destruct (r =? -1); [exact H|]. rewrite IH. exact H.
Qed.

Lemma reduce_until_wf (n : nat) (g g' : grid) (r : Z) :
  reduce_until n g = Some (g', r) -> wf_grid g' = wf_grid g.
Proof.
  revert g; induction n as [|n IH]; intros g H; simpl in H; [discriminate|].
  pose proof (reduce_grid_loop_wf coords g 0) as Hwf.
  fold (reduce_grid g) in Hwf.
  destruct (reduce_grid g) as [g1 r1]. simpl in Hwf.
  destruct (r1 =? -1); [inversion H; subst; assumption|].
  destruct (0 <? r1).
  - rewrite (IH _ H). assumption.
  - inversion H; subst; assumption.
Qed.

(** ** A proof rule for the successful runs of [try] *)

Section TryRule.
(** [Post ig res]: what is to be shown of the output [res] of a successful
    call on [ig]. *)
Variable Post : grid -> grid -> Prop.

Hypothesis Hdone : forall ig wg r,
  wf_grid ig = true ->
  reduce_until (S (weight ig)) ig = Some (wg, r) -> r <> -1 ->
  solved_counter wg = 81 -> Post ig wg.

Hypothesis Hguess : forall ig wg r k res,
  wf_grid ig = true ->
  reduce_until (S (weight ig)) ig = Some (wg, r) -> r <> -1 ->
  solved_counter wg <> 81 ->
  1 <= k <= 9 ->
  candidate (get_cell wg (fst (choose_target_cell wg))
               (snd (choose_target_cell wg))) k = true ->
  Post (set_cell (incr_solved wg) (fst (choose_target_cell wg))
          (snd (choose_target_cell wg)) (set_value k)) res ->
  Post ig res.

Lemma guess_loop_rule (rec : grid -> grid -> option (Z * grid))
    (ig wg : grid) (r : Z) (tr tc : nat) :
  wf_grid ig = true ->
  reduce_until (S (weight ig)) ig = Some (wg, r) -> r <> -1 ->
  solved_counter wg <> 81 ->
  tr = fst (choose_target_cell wg) -> tc = snd (choose_target_cell wg) ->
  (forall g og ret og', wf_grid g = true -> wf_grid og = true ->
     rec g og = Some (ret, og') ->
     (ret = 0 /\ og' = og) \/ (ret = 1 /\ Post g og')) ->
  forall ks cur og ret og',
    (forall k, In k ks -> 1 <= k <= 9) ->
    wf_grid og = true ->
    (forall k, set_cell cur tr tc (set_value k)
               = set_cell (incr_solved wg) tr tc (set_value k)) ->
    guess_loop rec ks (get_cell wg tr tc) tr tc cur og = Some (ret, og') ->
    (ret = 0 /\ og' = og) \/ (ret = 1 /\ Post ig og').
Proof.
  intros Hwf Hred Hr Hcnt Htr Htc Hrec.
  assert (Hwg : wf_grid wg = true)
    by (rewrite (reduce_until_wf _ _ _ _ Hred); assumption).
  induction ks as [|k ks IH]; intros cur og ret og' Hks Hog Hcur H; simpl in H.
  - inversion H; subst. left. split; reflexivity.
  - assert (Hks' : forall k', In k' ks -> 1 <= k' <= 9)
      by (intros k' Hk'; apply Hks; right; assumption).
    destruct (candidate (get_cell wg tr tc) k) eqn:Hcand.
    + rewrite Hcur in H.
      destruct (rec (set_cell (incr_solved wg) tr tc (set_value k)) og)
        as [[ret1 og1]|] eqn:Hcall; [|discriminate].
      apply Hrec in Hcall;
        [|rewrite wf_set; unfold incr_solved; rewrite wf_grid_recounter;
          assumption | assumption].
      destruct Hcall as [[-> ->]|[-> HP]].
      * simpl in H. apply (IH _ _ _ _ Hks' Hog) in H; [assumption|].
        intros k'. apply set_set.
      * simpl in H. inversion H; subst. right. split; [reflexivity|].
        apply (Hguess ig wg r k); try assumption.
        apply Hks. left. reflexivity.
    + apply (IH _ _ _ _ Hks' Hog Hcur H).
Qed.

Lemma try_rule (depth : nat) (ig og : grid) (ret : Z) (og' : grid) :
  wf_grid ig = true -> wf_grid og = true ->
  try depth ig og = Some (ret, og') ->
  (ret = 0 /\ og' = og) \/ (ret = 1 /\ Post ig og').
Proof.
  revert ig og ret og'; induction depth as [|depth IH];
    intros ig og ret og' Hwf Hog H; [discriminate|].
  rewrite try_unfold in H by assumption.
  destruct (reduce_until (S (weight ig)) ig) as [[wg r]|] eqn:Hred;
    [|discriminate].
  assert (Hwg : wf_grid wg = true)
    by (rewrite (reduce_until_wf _ _ _ _ Hred); assumption).
  destruct (Z.eqb_spec r (-1)) as [Hr|Hr].
  - inversion H; subst. left. split; reflexivity.
  - destruct (Z.eqb_spec (solved_counter wg) 81) as [Hcnt|Hcnt].
    + inversion H; subst. right. split; [reflexivity|].
      rewrite copy_grid_eq by assumption.
      apply (Hdone ig wg r); assumption.
    + refine (guess_loop_rule (try depth) ig wg r
                (fst (choose_target_cell wg)) (snd (choose_target_cell wg))
                Hwf Hred Hr Hcnt eq_refl eq_refl _
                values (incr_solved wg) og ret og' _ Hog _ H).
      * intros g og0 ret0 og0' Hg Hog0 Hcall. apply (IH g og0); assumption.
      * intros k. apply in_values.
      * reflexivity.
Qed.
End TryRule.

(** ** Clues survive the search *)

Lemma reduce_grid_loop_keeps (ps : list (nat * nat)) (g : grid) (n : Z)
    (a b : nat) (v : Z) :
  1 <= v <= 9 -> get_cell g a b = set_value v ->
  snd (reduce_grid_loop ps g n) = -1
  \/ get_cell (fst (reduce_grid_loop ps g n)) a b = set_value v.
Proof.
  intros Hv. revert g n; induction ps as [|[i j] ps IH]; intros g n Hg; simpl.
  - right. assumption.
  - pose proof (reduce_keeps g i j a b v Hv Hg) as K.
    destruct (reduce g i j) as [g' r]. simpl in K.
    destruct (Z.eqb_spec r (-1)) as [Hr|Hr]; [left; reflexivity|].
    apply IH. destruct K; [contradiction | assumption].
Qed.

Lemma reduce_until_keeps (n : nat) (g g' : grid) (r : Z) (a b : nat) (v : Z) :
  1 <= v <= 9 -> reduce_until n g = Some (g', r) -> r <> -1 ->
  get_cell g a b = set_value v -> get_cell g' a b = set_value v.
Proof.
  intros Hv. revert g; induction n as [|n IH]; intros g H Hr Hg; simpl in H;
    [discriminate|].
  pose proof (reduce_grid_loop_keeps coords g 0 a b v Hv Hg) as K.
  fold (reduce_grid g) in K.
  destruct (reduce_grid g) as [g1 r1]. simpl in K.
  destruct (Z.eqb_spec r1 (-1)) as [Hr1|Hr1];
    [inversion H; subst; contradiction|].
  destruct K as [K|K]; [contradiction|].
  destruct (0 <? r1).
  - apply (IH g1); assumption.
  - inversion H; subst; assumption.
Qed.

Lemma try_keeps_digit (depth : nat) (ig og : grid) (ret : Z) (og' : grid) :
  wf_grid ig = true -> wf_grid og = true ->
  try depth ig og = Some (ret, og') ->
  (ret = 0 /\ og' = og)
  \/ (ret = 1 /\ forall a b v, 1 <= v <= 9 ->
                   get_cell ig a b = set_value v -> get_cell og' a b = set_value v).
Proof.
  apply (try_rule (fun ig res => forall a b v, 1 <= v <= 9 ->
                     get_cell ig a b = set_value v -> get_cell res a b = set_value v)).
  - intros g wg r _ Hred Hr _ a b v Hv Hg.
    apply (reduce_until_keeps _ _ _ _ _ _ _ Hv Hred Hr Hg).
  - intros g wg r k res _ Hred Hr _ Hk Hcand Hres a b v Hv Hg.
    apply Hres; [assumption|].
    pose proof (reduce_until_keeps _ _ _ _ _ _ _ Hv Hred Hr Hg) as Hwg.
    destruct (get_set_cases (incr_solved wg) (fst (choose_target_cell wg))
                (snd (choose_target_cell wg)) a b (set_value k))
      as [->|[Heq ->]].
    + unfold incr_solved. rewrite get_cell_recounter. assumption.
    + inversion Heq as [[Ha Hb]]. rewrite Ha, Hb, Hwg in Hcand.
      rewrite candidate_set_value in Hcand by lia.
      apply Z.eqb_eq in Hcand. congruence.
Qed.

(** C3. When [try] returns success, every cell that is solved in the input
    grid (flag set, one candidate bit) is solved with the same value at the
    same position of the output grid. *)
Theorem try_preserves_clues (depth : nat) (ig og og' : grid) (a b : nat) :
  wf_grid ig = true -> wf_grid og = true ->
  try depth ig og = Some (1, og') ->
  cell_ok (get_cell ig a b) = true -> flagged (get_cell ig a b) = true ->
  flagged (get_cell og' a b) = true
  /\ get_value (get_cell og' a b) = get_value (get_cell ig a b)
  /\ get_cell og' a b = get_cell ig a b.
Proof.
  intros Hwf Hog Htry Hok Hfl.
  destruct (cell_ok_solved _ Hok Hfl) as (v & Hv & Hcell).
  destruct (try_keeps_digit depth ig og 1 og' Hwf Hog Htry) as [[H _]|[_ H]];
    [discriminate|].
  rewrite (H a b v Hv Hcell), Hcell. rewrite flagged_set_value by lia. auto.
Qed.

(** ** Counting flagged cells *)

Lemma filter_length_update {A : Type} (f f' : A -> bool) (l : list A) (p : A) :
  NoDup l -> In p l -> (forall q, In q l -> q <> p -> f' q = f q) ->
  (length (filter f' l) + (if f p then 1 else 0)
   = length (filter f l) + (if f' p then 1 else 0))%nat.
Proof.
  intros Hnd. induction Hnd as [|x l Hx Hnd IH]; intros Hin Hext;
    [contradiction|].
  simpl. destruct Hin as [->|Hin].
  - rewrite (filter_ext_in f' f l).
    + destruct (f p), (f' p); simpl; lia.
    + intros q Hq. apply Hext; [right; assumption|]. congruence.
  - assert (Hxp : x <> p) by congruence.
    rewrite (Hext x (or_introl eq_refl) Hxp).
    assert (IH' := IH Hin (fun q Hq => Hext q (or_intror Hq))).
    destruct (f x); simpl; lia.
Qed.

Lemma count_solved_unsolved (g : grid) :
  (count_solved g + count_unsolved g = 81)%nat.
Proof.
  unfold count_solved, count_unsolved.
  rewrite filter_length. reflexivity.
Qed.

Lemma count_solved_all (g : grid) :
  count_solved g = 81%nat ->
  forall i j, (i < ROWS)%nat -> (j < COLS)%nat -> flagged (get_cell g i j) = true.
Proof.
  intros Hcnt i j Hi Hj.
  pose proof (count_solved_unsolved g) as Hsum.
  assert (Hnone : count_unsolved g = 0%nat) by lia.
  unfold count_unsolved in Hnone. apply length_zero_iff_nil in Hnone.
  destruct (flagged (get_cell g i j)) eqn:Hf; [reflexivity|].
  assert (Hin : In (i, j) (filter (fun ij => negb (flagged (get_cell g (fst ij) (snd ij))))
                             coords)).
  { apply filter_In. split; [apply in_coords; split; assumption|].
    simpl. rewrite Hf. reflexivity. }
  rewrite Hnone in Hin. contradiction.
Qed.

Lemma count_unsolved_exists (g : grid) :
  (0 < count_unsolved g)%nat ->
  exists i j, (i < ROWS)%nat /\ (j < COLS)%nat /\ flagged (get_cell g i j) = false.
Proof.
  unfold count_unsolved. intros Hpos.
  destruct (filter _ coords) as [|[i j] l] eqn:Hfil; [simpl in Hpos; lia|].
  assert (Hin : In (i, j) (filter (fun ij => negb (flagged (get_cell g (fst ij) (snd ij))))
                             coords)) by (rewrite Hfil; left; reflexivity).
  apply filter_In in Hin. destruct Hin as [Hin Hf]. apply in_coords in Hin.
  exists i, j. simpl in Hf. apply negb_true_iff in Hf. tauto.
Qed.

Lemma get_nonzero_range (g : grid) (i j : nat) :
  wf_grid g = true -> get_cell g i j <> 0 -> (i < ROWS)%nat /\ (j < COLS)%nat.
Proof.
  intros Hwf Hnz. apply wf_grid_spec in Hwf. destruct Hwf as [Hlen Hrows].
  unfold get_cell in Hnz.
  destruct (Nat.lt_ge_cases i ROWS) as [Hi|Hi].
  - split; [assumption|].
    destruct (Nat.lt_ge_cases j COLS) as [Hj|Hj]; [assumption|].
    rewrite nth_overflow in Hnz by (rewrite Hrows; assumption). congruence.
  - rewrite (nth_overflow (cells g)) in Hnz by lia.
    destruct j; simpl in Hnz; congruence.
Qed.

Lemma flagged_nonzero (c : Z) : flagged c = true -> c <> 0.
Proof. intros H ->. discriminate. Qed.

Lemma cells_ok_spec (g : grid) :
  cells_ok g = true <->
  forall i j, (i < ROWS)%nat -> (j < COLS)%nat -> cell_ok (get_cell g i j) = true.
Proof.
  unfold cells_ok. rewrite forallb_forall. split.
  - intros H i j Hi Hj. apply (H (i, j)). apply in_coords. split; assumption.
  - intros H [i j] Hin. apply in_coords in Hin. apply H; tauto.
Qed.

Lemma grid_ok_spec (g : grid) :
  grid_ok g = true <->
  wf_grid g = true
  /\ (forall i j, (i < ROWS)%nat -> (j < COLS)%nat -> cell_ok (get_cell g i j) = true)
  /\ solved_counter g = Z.of_nat (count_solved g).
Proof.
  unfold grid_ok, counter_ok.
  rewrite !andb_true_iff, cells_ok_spec, Z.eqb_eq. tauto.
Qed.

(** Writing a cell moves the count of flagged cells by the flags of the old
    and of the new cell. *)
Lemma count_solved_set (g : grid) (i j : nat) (cell : Z) :
  wf_grid g = true -> (i < ROWS)%nat -> (j < COLS)%nat ->
  (count_solved (set_cell g i j cell) + (if flagged (get_cell g i j) then 1 else 0)
   = count_solved g + (if flagged cell then 1 else 0))%nat.
Proof.
  intros Hwf Hi Hj. unfold count_solved.
  pose proof (filter_length_update
                (fun ij => flagged (get_cell g (fst ij) (snd ij)))
                (fun ij => flagged (get_cell (set_cell g i j cell) (fst ij) (snd ij)))
                coords (i, j) NoDup_coords) as H.
  cbn [fst snd] in H. rewrite (get_set_eq g i j cell Hwf Hi Hj) in H.
  apply H.
  - apply in_coords. split; assumption.
  - intros [a b] _ Hne. cbn [fst snd]. rewrite get_set_neq by congruence.
    reflexivity.
Qed.

Lemma count_solved_recounter (g : grid) (n : Z) :
  count_solved (mkGrid (cells g) n) = count_solved g.
Proof. reflexivity. Qed.

Lemma count_solved_step (g : grid) (i j : nat) (cell : Z) :
  wf_grid g = true -> (i < ROWS)%nat -> (j < COLS)%nat ->
  (count_solved (step_grid g i j cell) + (if flagged (get_cell g i j) then 1 else 0)
   = count_solved g + (if flagged cell then 1 else 0))%nat.
Proof.
  intros Hwf Hi Hj. unfold step_grid.
  destruct (negb (cell =? get_cell g i j) && flagged cell);
    [unfold incr_solved; rewrite count_solved_recounter|];
    apply count_solved_set; assumption.
Qed.

(** ** The data model is preserved by propagation *)

(** The facts of [step_facts], unpacked for a peer that is processed and
    not wiped out. *)
Lemma step_facts_inv (row column : nat) (w c : Z) (i j : nat) :
  1 <= w <= 9 -> cell_ok c = true ->
  touched row column (mask_of (set_value w)) i j c = true ->
  let cell := new_cell (mask_of (set_value w)) c in
  (cell =? 0) || (cell =? 1) = false ->
  cell_ok cell = true
  /\ (negb (cell =? c) && flagged cell = flagged cell && negb (flagged c))
  /\ (flagged c = true -> cell = c)
  /\ (cell <> c -> (cell_weight cell < cell_weight c)%nat)
  /\ candidate cell w = false.
Proof.
  intros Hw Hc Ht cell Hab.
  pose proof (step_facts_all w c Hw Hc) as H. unfold step_facts in H.
  unfold touched in Ht. apply andb_true_iff in Ht. destruct Ht as [_ Ht].
  apply negb_true_iff in Ht. apply orb_false_iff in Hab.
  destruct Hab as [H0 H1]. fold cell in H.
  rewrite Hc, Ht, H0, H1 in H. cbn [negb orb] in H.
  rewrite !andb_true_iff in H. destruct H as ((((Ha & Hb) & Hd) & He) & Hf).
  split; [assumption|]. split; [apply eqb_prop; assumption|].
  split; [|split].
  - intros Hfl. rewrite Hfl in Hd. simpl in Hd. apply Z.eqb_eq. assumption.
  - intros Hne. apply Z.eqb_neq in Hne. rewrite Hne in He. simpl in He.
    apply Nat.ltb_lt. assumption.
  - apply negb_true_iff. assumption.
Qed.

(** ** A pass that changes nothing *)

Lemma step_grid_same (g : grid) (i j : nat) :
  step_grid g i j (get_cell g i j) = g.
Proof.
  unfold step_grid. rewrite Z.eqb_refl. simpl. apply set_same.
Qed.

(** The loop of [reduce] fails or counts upwards; when the count has not
    moved, the grid is the one it started from and every cell it processed
    was rewritten with the value it already had. *)
Lemma reduce_loop_still (row column : nat) (mask : Z) (ps : list (nat * nat))
    (g : grid) (changed : Z) :
  let res := reduce_loop row column mask ps g changed in
  snd res = -1
  \/ (changed <= snd res
      /\ (snd res = changed ->
          fst res = g
          /\ forall i j, In (i, j) ps ->
               touched row column mask i j (get_cell g i j) = true ->
               new_cell mask (get_cell g i j) = get_cell g i j
               /\ get_cell g i j <> 0 /\ get_cell g i j <> 1)).
Proof.
  cbv zeta.
  destruct (reduce_loop_rule row column mask
              (fun ps' g' c' =>
                 changed <= c'
                 /\ (c' = changed ->
                     g' = g
                     /\ forall i j, In (i, j) ps ->
                          In (i, j) ps'
                          \/ (touched row column mask i j (get_cell g i j) = true ->
                              new_cell mask (get_cell g i j) = get_cell g i j
                              /\ get_cell g i j <> 0 /\ get_cell g i j <> 1)))
              (fun _ => True))
    with (ps := ps) (g := g) (changed := changed) as [[H _]|[Hle H]].
  - intros i j ps' g' c' [Hle HI] Ht. split; [assumption|].
    intros Hc. destruct (HI Hc) as [-> Hall]. split; [reflexivity|].
    intros a b Hin. destruct (Hall a b Hin) as [[Heq|Hin']|Hfact]; auto.
    inversion Heq; subst. right. intros Ht'. congruence.
  - intros i j ps' g' c' [Hle HI] Ht. cbv zeta.
    destruct (_ || _) eqn:Hab; [exact I|].
    apply orb_false_iff in Hab. destruct Hab as [H0 H1].
    apply Z.eqb_neq in H0, H1.
    destruct (Z.eqb_spec (new_cell mask (get_cell g' i j)) (get_cell g' i j))
      as [Hsame|Hdiff].
    + split; [assumption|]. intros Hc. destruct (HI Hc) as [-> Hall].
      rewrite Hsame, step_grid_same. split; [reflexivity|].
      intros a b Hin. destruct (Hall a b Hin) as [[Heq|Hin']|Hfact]; auto.
      inversion Heq; subst. right. intros _. rewrite Hsame in *. auto.
    + split; [lia|]. intros Hc. lia.
  - split; [lia|]. intros _. split; [reflexivity|]. auto.
  - left. assumption.
  - right. split; [assumption|]. intros Hc. destruct (H Hc) as [Hg Hall].
    split; [assumption|]. intros i j Hin Ht.
    destruct (Hall i j Hin) as [[]|Hfact]. auto.
Qed.

Lemma reduce_result (g : grid) (row column : nat) :
  snd (reduce g row column) = -1 \/ 0 <= snd (reduce g row column).
Proof.
  destruct (flagged (get_cell g row column)) eqn:Hf.
  - rewrite reduce_solved by assumption.
    destruct (reduce_loop_still row column (mask_of (get_cell g row column))
                coords g 0) as [H|[H _]]; auto.
  - rewrite reduce_unsolved by assumption. right. simpl. lia.
Qed.

Lemma reduce_still (g : grid) (row column : nat) :
  snd (reduce g row column) = 0 -> fst (reduce g row column) = g.
Proof.
  destruct (flagged (get_cell g row column)) eqn:Hf.
  - rewrite reduce_solved by assumption. intros H0.
    destruct (reduce_loop_still row column (mask_of (get_cell g row column))
                coords g 0) as [H|[_ H]]; [lia|].
    apply H. assumption.
  - rewrite reduce_unsolved by assumption. reflexivity.
Qed.

Lemma reduce_grid_loop_result (ps : list (nat * nat)) (g : grid) (n : Z) :
  snd (reduce_grid_loop ps g n) = -1 \/ n <= snd (reduce_grid_loop ps g n).
Proof.
  revert g n; induction ps as [|[i j] ps IH]; intros g n; simpl.
  - right. lia.
  - pose proof (reduce_result g i j) as Hr.
    destruct (reduce g i j) as [g' r]. simpl in Hr.
    destruct (Z.eqb_spec r (-1)) as [Hm|Hm]; [left; reflexivity|].
    destruct (IH g' (n + r)) as [H|H]; [left; assumption | right; lia].
Qed.

Lemma reduce_grid_loop_still (ps : list (nat * nat)) (g : grid) (n : Z) :
  0 <= n -> snd (reduce_grid_loop ps g n) = n ->
  fst (reduce_grid_loop ps g n) = g
  /\ forall i j, In (i, j) ps -> reduce g i j = (g, 0).
Proof.
  intros Hn. revert g; induction ps as [|[i j] ps IH]; intros g H; simpl in *.
  - split; [reflexivity | contradiction].
  - pose proof (reduce_result g i j) as Hr.
    pose proof (reduce_still g i j) as Hs.
    destruct (reduce g i j) as [g' r] eqn:Hred. simpl in Hr, Hs.
    destruct (Z.eqb_spec r (-1)) as [Hm|Hm]; [simpl in H; lia|].
    destruct Hr as [Hr|Hr]; [contradiction|].
    pose proof (reduce_grid_loop_result ps g' (n + r)) as Hres.
    assert (Hr0 : r = 0) by lia. subst r.
    rewrite Z.add_0_r in *. specialize (Hs eq_refl). subst g'.
    destruct (IH g H) as [Hg Hall]. split; [assumption|].
    intros a b [Heq|Hin]; [inversion Heq; subst; assumption | auto].
Qed.

Lemma reduce_grid_still (g g' : grid) :
  reduce_grid g = (g', 0) ->
  g' = g /\ forall i j, (i < ROWS)%nat -> (j < COLS)%nat -> reduce g i j = (g, 0).
Proof.
  unfold reduce_grid. intros H.
  destruct (reduce_grid_loop_still coords g 0) as [Hg Hall];
    [lia | rewrite H; reflexivity|].
  rewrite H in Hg. simpl in Hg. split; [assumption|].
  intros i j Hi Hj. apply Hall, in_coords. split; assumption.
Qed.

(** What a fixpoint says about the peers of a flagged cell. *)
Lemma reduce_fixpoint_peer (g : grid) (row column a b : nat) :
  flagged (get_cell g row column) = true ->
  reduce g row column = (g, 0) ->
  (a < ROWS)%nat -> (b < COLS)%nat -> is_peer row column a b = true ->
  let mask := mask_of (get_cell g row column) in
  Z.land (get_cell g a b) mask = 0
  \/ (new_cell mask (get_cell g a b) = get_cell g a b /\ get_cell g a b <> 1).
Proof.
  intros Hf Hred Ha Hb Hpeer mask.
  rewrite reduce_solved in Hred by assumption. fold mask in Hred.
  destruct (reduce_loop_still row column mask coords g 0) as [H|[_ H]];
    rewrite Hred in H; simpl in H; [lia|].
  destruct (H eq_refl) as [_ Hall].
  destruct (Z.eqb_spec (Z.land (get_cell g a b) mask) 0) as [Hz|Hnz];
    [left; assumption|].
  right. destruct (Hall a b) as (H1 & _ & H2); auto.
  - apply in_coords. split; assumption.
  - unfold touched. rewrite Hpeer. apply Z.eqb_neq in Hnz. rewrite Hnz.
    reflexivity.
Qed.

(** ** Weight of a grid *)

Lemma sum_ext {A : Type} (f f' : A -> nat) (l : list A) :
  (forall q, In q l -> f' q = f q) ->
  fold_right (fun x acc => f' x + acc)%nat 0%nat l
  = fold_right (fun x acc => f x + acc)%nat 0%nat l.
Proof.
  induction l as [|y l IH]; intros Hext; simpl; [reflexivity|].
  rewrite IH by (intros q Hq; apply Hext; right; assumption).
  rewrite (Hext y (or_introl eq_refl)). reflexivity.
Qed.

Lemma sum_update {A : Type} (f f' : A -> nat) (l : list A) (p : A) :
  NoDup l -> In p l -> (forall q, In q l -> q <> p -> f' q = f q) ->
  (fold_right (fun x acc => f' x + acc) 0 l + f p
   = fold_right (fun x acc => f x + acc) 0 l + f' p)%nat.
Proof.
  intros Hnd. induction Hnd as [|x l Hx Hnd IH]; intros Hin Hext;
    [contradiction|].
  simpl. destruct Hin as [->|Hin].
  - rewrite (sum_ext f f' l); [lia|].
    intros q Hq. apply Hext; [right; assumption|]. congruence.
  - assert (Hxp : x <> p) by congruence.
    rewrite (Hext x (or_introl eq_refl) Hxp).
    assert (IH' := IH Hin (fun q Hq => Hext q (or_intror Hq))). lia.
Qed.

Lemma weight_recounter (g : grid) (n : Z) : weight (mkGrid (cells g) n) = weight g.
Proof. reflexivity. Qed.

Lemma weight_step (g : grid) (i j : nat) (cell : Z) :
  wf_grid g = true -> (i < ROWS)%nat -> (j < COLS)%nat ->
  (weight (step_grid g i j cell) + cell_weight (get_cell g i j)
   = weight g + cell_weight cell)%nat.
Proof.
  intros Hwf Hi Hj.
  assert (Hset : (weight (set_cell g i j cell) + cell_weight (get_cell g i j)
                  = weight g + cell_weight cell)%nat).
  { unfold weight.
    pose proof (sum_update
                  (fun ij => cell_weight (get_cell g (fst ij) (snd ij)))
                  (fun ij => cell_weight (get_cell (set_cell g i j cell) (fst ij) (snd ij)))
                  coords (i, j) NoDup_coords) as H.
    cbn [fst snd] in H. rewrite (get_set_eq g i j cell Hwf Hi Hj) in H.
    apply H.
    - apply in_coords. split; assumption.
    - intros [a b] _ Hne. cbn [fst snd]. rewrite get_set_neq by congruence.
      reflexivity. }
  unfold step_grid.
  destruct (negb (cell =? get_cell g i j) && flagged cell);
    [unfold incr_solved; rewrite weight_recounter|]; assumption.
Qed.

(** ** The data model through a reduction *)

(** One processed peer: the grid stays in the data model and loses weight
    if the peer changed. *)
Lemma step_grid_ok (row column : nat) (w : Z) (g : grid) (i j : nat) :
  1 <= w <= 9 -> grid_ok g = true ->
  touched row column (mask_of (set_value w)) i j (get_cell g i j) = true ->
  let cell := new_cell (mask_of (set_value w)) (get_cell g i j) in
  (cell =? 0) || (cell =? 1) = false ->
  grid_ok (step_grid g i j cell) = true
  /\ (weight (step_grid g i j cell) <= weight g)%nat
  /\ (cell <> get_cell g i j -> (weight (step_grid g i j cell) < weight g)%nat).
Proof.
  intros Hw Hok Ht cell Hab.
  apply grid_ok_spec in Hok. destruct Hok as (Hwf & Hcells & Hcnt).
  assert (Hnz : get_cell g i j <> 0) by (eapply touched_nonzero; eassumption).
  destruct (get_nonzero_range g i j Hwf Hnz) as [Hi Hj].
  destruct (step_facts_inv row column w (get_cell g i j) i j Hw
              (Hcells i j Hi Hj) Ht Hab)
    as (Hcok & Hincr & Hflag & Hwt & _).
  fold cell in Hcok, Hincr, Hflag, Hwt.
  pose proof (count_solved_step g i j cell Hwf Hi Hj) as Hcount.
  pose proof (weight_step g i j cell Hwf Hi Hj) as Hweight.
  split; [|split].
  - apply grid_ok_spec. split; [rewrite wf_step_grid; assumption|]. split.
    + intros a b Ha Hb.
      destruct (Nat.eq_dec i a) as [<-|Hia];
        [destruct (Nat.eq_dec j b) as [<-|Hjb]|].
      * rewrite get_step_grid_eq; assumption.
      * rewrite get_step_grid_neq by congruence. auto.
      * rewrite get_step_grid_neq by congruence. auto.
    + rewrite counter_step_grid. fold cell. rewrite Hincr, Hcnt.
      destruct (flagged (get_cell g i j)) eqn:Hfc.
      * rewrite (Hflag eq_refl) in *. rewrite Hfc in *. simpl. lia.
      * destruct (flagged cell); simpl; lia.
  - destruct (Z.eq_dec cell (get_cell g i j)) as [Heq|Hne].
    + rewrite Heq in *. lia.
    + specialize (Hwt Hne). lia.
  - intros Hne. specialize (Hwt Hne). lia.
Qed.

Lemma reduce_loop_ok (row column : nat) (w : Z) (ps : list (nat * nat))
    (g : grid) (changed : Z) :
  1 <= w <= 9 -> grid_ok g = true ->
  let res := reduce_loop row column (mask_of (set_value w)) ps g changed in
  snd res = -1
  \/ (grid_ok (fst res) = true
      /\ Z.of_nat (weight (fst res)) + (snd res - changed) <= Z.of_nat (weight g)).
Proof.
  intros Hw Hok. cbv zeta.
  destruct (reduce_loop_rule row column (mask_of (set_value w))
              (fun _ g' c' =>
                 grid_ok g' = true
                 /\ Z.of_nat (weight g') + (c' - changed) <= Z.of_nat (weight g))
              (fun _ => True))
    with (ps := ps) (g := g) (changed := changed) as [[H _]|H]; auto.
  - intros i j ps' g' c' [HI1 HI2] Ht. cbv zeta.
    destruct (_ || _) eqn:Hab; [exact I|].
    destruct (step_grid_ok row column w g' i j Hw HI1 Ht Hab) as (H1 & H2 & H3).
    split; [assumption|].
    destruct (Z.eqb_spec (new_cell (mask_of (set_value w)) (get_cell g' i j))
                (get_cell g' i j)) as [Heq|Hne].
    + lia.
    + specialize (H3 Hne). lia.
  - split; [assumption | lia].
Qed.

Lemma grid_ok_source (g : grid) (row column : nat) :
  grid_ok g = true -> flagged (get_cell g row column) = true ->
  exists w, 1 <= w <= 9 /\ get_cell g row column = set_value w.
Proof.
  intros Hok Hf. apply grid_ok_spec in Hok. destruct Hok as (Hwf & Hcells & _).
  destruct (get_nonzero_range g row column Hwf (flagged_nonzero _ Hf)) as [Hi Hj].
  apply cell_ok_solved; auto.
Qed.

Lemma reduce_ok (g : grid) (row column : nat) :
  grid_ok g = true ->
  snd (reduce g row column) = -1
  \/ (grid_ok (fst (reduce g row column)) = true
      /\ Z.of_nat (weight (fst (reduce g row column))) + snd (reduce g row column)
         <= Z.of_nat (weight g)).
Proof.
  intros Hok. destruct (flagged (get_cell g row column)) eqn:Hf.
  - rewrite reduce_solved by assumption.
    destruct (grid_ok_source g row column Hok Hf) as (w & Hw & ->).
    destruct (reduce_loop_ok row column w coords g 0 Hw Hok) as [H|[H1 H2]];
      [left; assumption | right].
    split; [assumption | lia].
  - rewrite reduce_unsolved by assumption. right. simpl. split; [assumption|lia].
Qed.

Lemma reduce_grid_loop_ok (ps : list (nat * nat)) (g : grid) (n : Z) :
  grid_ok g = true ->
  snd (reduce_grid_loop ps g n) = -1
  \/ (grid_ok (fst (reduce_grid_loop ps g n)) = true
      /\ Z.of_nat (weight (fst (reduce_grid_loop ps g n)))
         + (snd (reduce_grid_loop ps g n) - n) <= Z.of_nat (weight g)).
Proof.
  revert g n; induction ps as [|[i j] ps IH]; intros g n Hok; simpl.
  - right. split; [assumption | lia].
  - pose proof (reduce_ok g i j Hok) as Hr.
    destruct (reduce g i j) as [g' r]. simpl in Hr.
    destruct (Z.eqb_spec r (-1)) as [Hm|Hm]; [left; reflexivity|].
    destruct Hr as [Hr|[Hok' Hw]]; [contradiction|].
    destruct (IH g' (n + r) Hok') as [H|[H1 H2]]; [left; assumption | right].
    split; [assumption | lia].
Qed.

Lemma reduce_grid_ok (g : grid) :
  grid_ok g = true ->
  snd (reduce_grid g) = -1
  \/ (grid_ok (fst (reduce_grid g)) = true
      /\ 0 <= snd (reduce_grid g)
      /\ Z.of_nat (weight (fst (reduce_grid g))) + snd (reduce_grid g)
         <= Z.of_nat (weight g)).
Proof.
  intros Hok. unfold reduce_grid.
  destruct (reduce_grid_loop_ok coords g 0 Hok) as [H|[H1 H2]];
    [left; assumption|].
  destruct (reduce_grid_loop_result coords g 0) as [H|H];
    [left; assumption | right].
  split; [assumption|]. split; [assumption | lia].
Qed.

(** The [do ... while] loop of [try] on a grid of the data model: with more
    passes allowed than the weight of the grid it ends, either on the
    failure signal or on a grid of the data model that a further pass
    leaves as it is. *)
Lemma reduce_until_ok (n : nat) (g : grid) :
  grid_ok g = true -> (weight g < n)%nat ->
  exists g' r,
    reduce_until n g = Some (g', r)
    /\ (r = -1
        \/ (r = 0 /\ grid_ok g' = true /\ reduce_grid g' = (g', 0)
            /\ (weight g' <= weight g)%nat)).
Proof.
  revert g; induction n as [|n IH]; intros g Hok Hn; [lia|].
  simpl. pose proof (reduce_grid_ok g Hok) as Hpass.
  pose proof (reduce_grid_still g) as Hstill.
  destruct (reduce_grid g) as [g1 r1] eqn:Hrg. simpl in Hpass.
  destruct (Z.eqb_spec r1 (-1)) as [Hm|Hm].
  - exists g1, (-1). subst r1. split; [reflexivity | left; reflexivity].
  - destruct Hpass as [Hpass|(Hok1 & Hr1 & Hw1)]; [contradiction|].
    destruct (Z.ltb_spec 0 r1) as [Hpos|Hzero].
    + destruct (IH g1 Hok1) as (g' & r & Hrun & Hres); [lia|].
      exists g', r. split; [assumption|].
      destruct Hres as [Hres|(H0 & H1 & H2 & H3)]; [left; assumption | right].
      repeat split; try assumption. lia.
    + assert (r1 = 0) by lia. subst r1.
      destruct (Hstill g1 eq_refl) as [-> _].
      exists g, 0. split; [reflexivity | right].
      repeat split; try assumption. lia.
Qed.

(** ** The bound on the number of passes

    [try] allows [reduce_until] one pass more than the weight of the grid.
    That is enough on every 9 by 9 grid, whatever its cells hold: a cell
    that [reduce] changes loses a candidate bit or gains the flag. *)

Lemma cell_weight_step (s c : Z) :
  let cell := new_cell (mask_of s) c in
  (cell_weight cell <= cell_weight c)%nat
  /\ (cell <> c -> (cell_weight cell < cell_weight c)%nat).
Proof.
  cbv zeta. unfold new_cell, mask_of.
  set (x := Z.land c (Z.lnot (Z.land s O_CELL))).
  assert (Hsub : forall k, 1 <= k <= 9 ->
                   candidate (mark_if_solved x) k = true -> candidate c k = true).
  { intros k Hk. rewrite candidate_mark by lia. unfold x.
    rewrite candidate_land_mask by assumption.
    intros H. apply andb_true_iff in H. tauto. }
  assert (Hflag : flagged c = true -> flagged (mark_if_solved x) = true).
  { intros Hf. rewrite flagged_mark. unfold x. rewrite flagged_land_mask, Hf.
    reflexivity. }
  pose proof (count_poss_mono _ _ Hsub) as Hle.
  pose proof (count_poss_range c) as Hrc.
  pose proof (count_poss_range (mark_if_solved x)) as Hrx.
  unfold cell_weight. split.
  - destruct (flagged c); [rewrite (Hflag eq_refl)|destruct (flagged _)]; lia.
  - intros Hne.
    destruct (Z.eq_dec (count_poss (mark_if_solved x)) (count_poss c)) as [Hcnt|Hcnt];
      [|destruct (flagged c); [rewrite (Hflag eq_refl)|destruct (flagged _)]; lia].
    destruct (flagged c) eqn:Hfc;
      [exfalso | destruct (flagged (mark_if_solved x)) eqn:Hfx; [lia | exfalso]];
      apply Hne; apply Z.bits_inj'; intros n Hn.
    + (* the flag was set: every bit is the same *)
      destruct (Z.eq_dec n 0) as [->|Hn0].
      * rewrite <- !flagged_testbit. rewrite (Hflag eq_refl). auto.
      * rewrite <- !candidate_testbit by lia.
        rewrite candidate_mark by lia.
        destruct (Z.le_gt_cases n 9) as [Hn9|Hn9].
        -- destruct (candidate x n) eqn:Hx.
           ++ symmetry. apply Hsub; [lia|]. rewrite candidate_mark by lia. assumption.
           ++ destruct (candidate c n) eqn:Hc; [|reflexivity]. exfalso.
              assert (count_poss (mark_if_solved x) < count_poss c); [|lia].
              apply (count_poss_strict _ _ n); try assumption; try lia.
              rewrite candidate_mark by lia. assumption.
        -- unfold x. rewrite candidate_land, mask_testbit by lia.
           replace (n <=? 9) with false by (symmetry; apply Z.leb_gt; lia).
           rewrite andb_false_r. apply andb_true_r.
    + destruct (Z.eq_dec n 0) as [->|Hn0].
      * rewrite <- !flagged_testbit. congruence.
      * rewrite <- !candidate_testbit by lia.
        rewrite candidate_mark by lia.
        destruct (Z.le_gt_cases n 9) as [Hn9|Hn9].
        -- destruct (candidate x n) eqn:Hx.
           ++ symmetry. apply Hsub; [lia|]. rewrite candidate_mark by lia. assumption.
           ++ destruct (candidate c n) eqn:Hc; [|reflexivity]. exfalso.
              assert (count_poss (mark_if_solved x) < count_poss c); [|lia].
              apply (count_poss_strict _ _ n); try assumption; try lia.
              rewrite candidate_mark by lia. assumption.
        -- unfold x. rewrite candidate_land, mask_testbit by lia.
           replace (n <=? 9) with false by (symmetry; apply Z.leb_gt; lia).
           rewrite andb_false_r. apply andb_true_r.
Qed.

Lemma reduce_loop_weight (row column : nat) (s : Z) (ps : list (nat * nat))
    (g : grid) (changed : Z) :
  wf_grid g = true ->
  let res := reduce_loop row column (mask_of s) ps g changed in
  snd res = -1
  \/ Z.of_nat (weight (fst res)) + (snd res - changed) <= Z.of_nat (weight g).
Proof.
  intros Hwf. cbv zeta.
  destruct (reduce_loop_rule row column (mask_of s)
              (fun _ g' c' =>
                 wf_grid g' = true
                 /\ Z.of_nat (weight g') + (c' - changed) <= Z.of_nat (weight g))
              (fun _ => True))
    with (ps := ps) (g := g) (changed := changed) as [[H _]|[_ H]]; auto.
  - intros i j ps' g' c' [HI1 HI2] Ht. cbv zeta.
    destruct (_ || _); [exact I|].
    split; [rewrite wf_step_grid; assumption|].
    assert (Hnz : get_cell g' i j <> 0) by (eapply touched_nonzero; eassumption).
    destruct (get_nonzero_range g' i j HI1 Hnz) as [Hi Hj].
    pose proof (weight_step g' i j (new_cell (mask_of s) (get_cell g' i j))
                  HI1 Hi Hj) as Hw.
    destruct (cell_weight_step s (get_cell g' i j)) as [Hle Hlt].
    destruct (Z.eqb_spec (new_cell (mask_of s) (get_cell g' i j)) (get_cell g' i j))
      as [Heq|Hne].
    + lia.
    + specialize (Hlt Hne). lia.
  - split; [assumption | lia].
Qed.

Lemma reduce_grid_weight (g : grid) :
  wf_grid g = true ->
  snd (reduce_grid g) = -1
  \/ (0 <= snd (reduce_grid g)
      /\ Z.of_nat (weight (fst (reduce_grid g))) + snd (reduce_grid g)
         <= Z.of_nat (weight g)).
Proof.
  intros Hwf.
  assert (Hloop : forall ps h n, wf_grid h = true ->
             snd (reduce_grid_loop ps h n) = -1
             \/ Z.of_nat (weight (fst (reduce_grid_loop ps h n)))
                + (snd (reduce_grid_loop ps h n) - n) <= Z.of_nat (weight h)).
  { induction ps as [|[i j] ps IH]; intros h n Hh; simpl; [right; lia|].
    pose proof (reduce_wf h i j) as Hwf'.
    assert (Hr : snd (reduce h i j) = -1
                 \/ Z.of_nat (weight (fst (reduce h i j))) + snd (reduce h i j)
                    <= Z.of_nat (weight h)).
    { destruct (flagged (get_cell h i j)) eqn:Hf.
      - rewrite reduce_solved by assumption.
        destruct (reduce_loop_weight i j (get_cell h i j) coords h 0 Hh) as [H|H];
          [left; assumption | right; lia].
      - rewrite reduce_unsolved by assumption. right. simpl. lia. }
    destruct (reduce h i j) as [h' r]. simpl in Hwf', Hr.
    destruct (Z.eqb_spec r (-1)) as [Hm|Hm]; [left; reflexivity|].
    destruct Hr as [Hr|Hr]; [contradiction|].
    destruct (IH h' (n + r)) as [H|H]; [congruence | left; assumption | right; lia]. }
  unfold reduce_grid.
  destruct (Hloop coords g 0 Hwf) as [H|H]; [left; assumption|].
  destruct (reduce_grid_loop_result coords g 0) as [H'|H'];
    [left; assumption | right; split; [assumption | lia]].
Qed.

(** The [do ... while] loop ends on every 9 by 9 grid within the passes
    that [try] allows it. *)
Lemma reduce_until_total (n : nat) (g : grid) :
  wf_grid g = true -> (weight g < n)%nat ->
  exists g' r, reduce_until n g = Some (g', r) /\ (r = -1 \/ r = 0).
Proof.
  revert g; induction n as [|n IH]; intros g Hwf Hn; [lia|].
  simpl. pose proof (reduce_grid_weight g Hwf) as Hpass.
  pose proof (reduce_grid_loop_wf coords g 0) as Hwf'.
  fold (reduce_grid g) in Hwf'.
  destruct (reduce_grid g) as [g1 r1]. simpl in Hpass, Hwf'.
  destruct (Z.eqb_spec r1 (-1)) as [Hm|Hm].
  - exists g1, (-1). subst r1. auto.
  - destruct Hpass as [Hpass|[Hr1 Hw1]]; [contradiction|].
    destruct (Z.ltb_spec 0 r1) as [Hpos|Hzero].
    + apply IH; [congruence | lia].
    + exists g1, r1. split; [reflexivity | right; lia].
Qed.

(** ** The scan of [choose_target_cell] *)

Lemma choose_loop_spec (g : grid) (ps : list (nat * nat)) :
  forall (t : Z) (tr tc : nat),
    t <= 9 ->
    (t < 9 -> flagged (get_cell g tr tc) = false
              /\ count_poss (get_cell g tr tc) = t) ->
    let rc := choose_loop g ps t tr tc in
    ((t < 9 \/ exists i j, In (i, j) ps /\ flagged (get_cell g i j) = false
                          /\ count_poss (get_cell g i j) < 9) ->
     flagged (get_cell g (fst rc) (snd rc)) = false
     /\ count_poss (get_cell g (fst rc) (snd rc)) <= t
     /\ count_poss (get_cell g (fst rc) (snd rc)) < 9
     /\ (forall i j, In (i, j) ps -> flagged (get_cell g i j) = false ->
           count_poss (get_cell g (fst rc) (snd rc)) <= count_poss (get_cell g i j))
     /\ (rc = (tr, tc) \/ In rc ps))
    /\ ((t = 9 /\ forall i j, In (i, j) ps -> flagged (get_cell g i j) = false ->
                    9 <= count_poss (get_cell g i j)) ->
        rc = (tr, tc)).
Proof.
  induction ps as [|[i j] ps IH]; intros t tr tc Ht Hbest; cbv zeta.
  - simpl. split.
    + intros [Hlt|(a & b & [] & _)]. destruct (Hbest Hlt) as [Hf Hc].
      repeat split; auto; try lia.
    + reflexivity.
  - simpl. destruct (flagged (get_cell g i j)) eqn:Hf.
    + destruct (IH t tr tc Ht Hbest) as [IH1 IH2]. cbv zeta in *. split.
      * intros Hex.
        destruct IH1 as (H1 & H2 & H3 & H4 & H5).
        { destruct Hex as [Hlt|(a & b & [Heq|Hin] & Hfa & Hca)];
            [left; assumption | | right; exists a, b; auto].
          inversion Heq; subst. congruence. }
        repeat split; auto.
        -- intros a b [Heq|Hin] Hfa; [inversion Heq; subst; congruence | auto].
        -- destruct H5; auto.
      * intros [Ht9 Hall]. apply IH2. split; [assumption|].
        intros a b Hin. apply Hall. right. assumption.
    + destruct (Z.ltb_spec (count_poss (get_cell g i j)) t) as [Hlt|Hge].
      * destruct (IH (count_poss (get_cell g i j)) i j) as [IH1 _];
          [lia | auto |]. cbv zeta in *. split.
        -- intros _. destruct IH1 as (H1 & H2 & H3 & H4 & H5); [left; lia|].
           repeat split; auto; try lia.
           ++ intros a b [Heq|Hin] Hfa; [inversion Heq; subst; lia | auto].
           ++ right. destruct H5 as [->|H5]; [left; reflexivity | right; assumption].
        -- intros [Ht9 Hall]. specialize (Hall i j (or_introl eq_refl) Hf). lia.
      * destruct (IH t tr tc Ht Hbest) as [IH1 IH2]. cbv zeta in *. split.
        -- intros Hex.
           destruct IH1 as (H1 & H2 & H3 & H4 & H5).
           { destruct Hex as [Hlt|(a & b & [Heq|Hin] & Hfa & Hca)];
               [left; assumption | | right; exists a, b; auto].
             inversion Heq; subst. left. lia. }
           repeat split; auto.
           ++ intros a b [Heq|Hin] Hfa; [inversion Heq; subst; lia | auto].
           ++ destruct H5; auto.
        -- intros [Ht9 Hall]. apply IH2. split; [assumption|].
           intros a b Hin. apply Hall. right. assumption.
Qed.

(** The cell chosen: if some unflagged cell has fewer than nine candidates,
    an unflagged cell with the least number of candidates; otherwise the
    default [(0, 0)]. *)
Lemma choose_target_spec (g : grid) :
  let rc := choose_target_cell g in
  ((exists i j, (i < ROWS)%nat /\ (j < COLS)%nat /\ flagged (get_cell g i j) = false
                /\ count_poss (get_cell g i j) < 9) ->
   (fst rc < ROWS)%nat /\ (snd rc < COLS)%nat
   /\ flagged (get_cell g (fst rc) (snd rc)) = false
   /\ count_poss (get_cell g (fst rc) (snd rc)) < 9
   /\ forall i j, (i < ROWS)%nat -> (j < COLS)%nat ->
        flagged (get_cell g i j) = false ->
        count_poss (get_cell g (fst rc) (snd rc)) <= count_poss (get_cell g i j))
  /\ ((forall i j, (i < ROWS)%nat -> (j < COLS)%nat ->
         flagged (get_cell g i j) = false -> 9 <= count_poss (get_cell g i j)) ->
      rc = (0%nat, 0%nat)).
Proof.
  cbv zeta. unfold choose_target_cell, MAX_VAL.
  destruct (choose_loop_spec g coords 9 0%nat 0%nat) as [H1 H2]; [lia | lia|].
  cbv zeta in *. split.
  - intros (i & j & Hi & Hj & Hf & Hc).
    destruct H1 as (Ha & Hb & Hd & He & Hg).
    { right. exists i, j. split; [apply in_coords; split; assumption | auto]. }
    assert (Hin : In (choose_loop g coords 9 0%nat 0%nat) coords).
    { destruct Hg as [Hg|Hg]; [|assumption].
      rewrite Hg. apply in_coords. unfold ROWS, COLS. lia. }
    destruct (choose_loop g coords 9 0%nat 0%nat) as [r c]. simpl in *.
    apply in_coords in Hin. repeat split; try tauto.
    intros a b Ha' Hb'. apply He. apply in_coords. split; assumption.
  - intros Hall. apply H2. split; [reflexivity|].
    intros i j Hin. apply in_coords in Hin. apply Hall; tauto.
Qed.

(** ** The branching step *)

(** In a 9 by 9 grid with a flagged and an unflagged cell, some flagged
    cell has an unflagged peer. *)
Lemma mixed_grid_peers (g : grid) (r c a b : nat) :
  (r < ROWS)%nat -> (c < COLS)%nat -> (a < ROWS)%nat -> (b < COLS)%nat ->
  flagged (get_cell g r c) = true -> flagged (get_cell g a b) = false ->
  exists r' c' a' b',
    (r' < ROWS)%nat /\ (c' < COLS)%nat /\ (a' < ROWS)%nat /\ (b' < COLS)%nat
    /\ flagged (get_cell g r' c') = true /\ flagged (get_cell g a' b') = false
    /\ is_peer r' c' a' b' = true.
Proof.
  intros Hr Hc Ha Hb Hs Hu.
  destruct (flagged (get_cell g r b)) eqn:Hrb.
  - exists r, b, a, b. repeat split; try assumption.
    unfold is_peer, same_unit. rewrite (Nat.eqb_refl b).
    destruct (Nat.eqb_spec a r) as [->|Hne]; [congruence|].
    simpl. rewrite ?orb_true_r. reflexivity.
  - exists r, c, r, b. repeat split; try assumption.
    unfold is_peer, same_unit. rewrite (Nat.eqb_refl r).
    destruct (Nat.eqb_spec b c) as [->|Hne]; [congruence|].
    simpl. rewrite ?orb_true_r. reflexivity.
Qed.

(** At a fixpoint of the data model, an unflagged peer of a flagged cell
    has lost a candidate. *)
Lemma fixpoint_peer_count (g : grid) (r c a b : nat) :
  grid_ok g = true -> reduce g r c = (g, 0) ->
  (a < ROWS)%nat -> (b < COLS)%nat ->
  flagged (get_cell g r c) = true -> flagged (get_cell g a b) = false ->
  is_peer r c a b = true ->
  count_poss (get_cell g a b) < 9.
Proof.
  intros Hok Hred Ha Hb Hs Hu Hpeer.
  destruct (grid_ok_source g r c Hok Hs) as (w & Hw & Hsrc).
  pose proof (reduce_fixpoint_peer g r c a b Hs Hred Ha Hb Hpeer) as Hfix.
  cbv zeta in Hfix. rewrite Hsrc in Hfix.
  apply grid_ok_spec in Hok. destruct Hok as (_ & Hcells & _).
  pose proof (fixpoint_facts_all w (get_cell g a b) Hw (Hcells a b Ha Hb)) as Hfacts.
  unfold fixpoint_facts in Hfacts.
  rewrite (Hcells a b Ha Hb), Hu in Hfacts. cbn [negb orb] in Hfacts.
  destruct Hfix as [Hz|[Hsame _]].
  - rewrite Hz in Hfacts. simpl in Hfacts. apply Z.ltb_lt. assumption.
  - rewrite Hsame, Z.eqb_refl in Hfacts.
    destruct (Z.land (get_cell g a b) (mask_of (set_value w)) =? 0);
      apply Z.ltb_lt; assumption.
Qed.

(** The cell chosen at the branching step of [try] is not flagged. *)
Lemma branch_target (g : grid) :
  grid_ok g = true -> reduce_grid g = (g, 0) -> solved_counter g <> 81 ->
  (fst (choose_target_cell g) < ROWS)%nat
  /\ (snd (choose_target_cell g) < COLS)%nat
  /\ flagged (get_cell g (fst (choose_target_cell g))
                (snd (choose_target_cell g))) = false.
Proof.
  intros Hok Hfix Hcnt.
  destruct (reduce_grid_still g g Hfix) as [_ Hall].
  pose proof Hok as Hok'. apply grid_ok_spec in Hok'.
  destruct Hok' as (_ & _ & Hcounter).
  pose proof (count_solved_unsolved g) as Hsum.
  destruct (count_unsolved_exists g) as (a & b & Ha & Hb & Hu); [lia|].
  destruct (choose_target_spec g) as [Hsome Hnone]. cbv zeta in *.
  destruct (existsb (fun ij => flagged (get_cell g (fst ij) (snd ij))) coords)
    eqn:Hex.
  - apply existsb_exists in Hex. destruct Hex as ([r c] & Hin & Hs).
    apply in_coords in Hin. destruct Hin as [Hr Hc]. simpl in Hs.
    destruct (mixed_grid_peers g r c a b Hr Hc Ha Hb Hs Hu)
      as (r' & c' & a' & b' & Hr' & Hc' & Ha' & Hb' & Hs' & Hu' & Hpeer).
    destruct Hsome as (H1 & H2 & H3 & _); [|auto].
    exists a', b'. repeat split; try assumption.
    apply (fixpoint_peer_count g r' c' a' b'); auto.
  - assert (Hnoflag : forall i j, (i < ROWS)%nat -> (j < COLS)%nat ->
                        flagged (get_cell g i j) = false).
    { intros i j Hi Hj.
      destruct (flagged (get_cell g i j)) eqn:Hf; [|reflexivity].
      assert (Hex' : existsb (fun ij => flagged (get_cell g (fst ij) (snd ij))) coords
                     = true).
      { apply existsb_exists. exists (i, j).
        split; [apply in_coords; split; assumption | assumption]. }
      congruence. }
    destruct (existsb (fun ij => negb (flagged (get_cell g (fst ij) (snd ij)))
                                 && (count_poss (get_cell g (fst ij) (snd ij)) <? 9))
                coords) eqn:Hlow.
    + apply existsb_exists in Hlow. destruct Hlow as ([i j] & Hin & Hp).
      apply in_coords in Hin. destruct Hin as [Hi Hj]. simpl in Hp.
      apply andb_true_iff in Hp. destruct Hp as [Hp1 Hp2].
      apply negb_true_iff in Hp1. apply Z.ltb_lt in Hp2.
      destruct Hsome as (H1 & H2 & H3 & _); [|auto].
      exists i, j. auto.
    + rewrite Hnone.
      * simpl. unfold ROWS, COLS. repeat split; try lia.
        apply Hnoflag; unfold ROWS, COLS; lia.
      * intros i j Hi Hj Hf.
        destruct (Z.ltb_spec (count_poss (get_cell g i j)) 9) as [Hlt|Hge];
          [|assumption].
        assert (Hlow' : existsb
                          (fun ij => negb (flagged (get_cell g (fst ij) (snd ij)))
                                     && (count_poss (get_cell g (fst ij) (snd ij)) <? 9))
                          coords = true).
        { apply existsb_exists. exists (i, j).
          split; [apply in_coords; split; assumption|]. simpl.
          rewrite Hf. simpl. apply Z.ltb_lt. assumption. }
        congruence.
Qed.

(** ** The guess step *)

Lemma count_solved_incr (g : grid) : count_solved (incr_solved g) = count_solved g.
Proof. reflexivity. Qed.

Lemma guess_ok (g : grid) (tr tc : nat) (k : Z) :
  grid_ok g = true -> (tr < ROWS)%nat -> (tc < COLS)%nat ->
  flagged (get_cell g tr tc) = false -> 1 <= k <= 9 ->
  grid_ok (set_cell (incr_solved g) tr tc (set_value k)) = true
  /\ (count_unsolved (set_cell (incr_solved g) tr tc (set_value k)) + 1
      = count_unsolved g)%nat.
Proof.
  intros Hok Htr Htc Hf Hk.
  apply grid_ok_spec in Hok. destruct Hok as (Hwf & Hcells & Hcnt).
  assert (Hwf' : wf_grid (incr_solved g) = true)
    by (unfold incr_solved; rewrite wf_grid_recounter; assumption).
  pose proof (count_solved_set (incr_solved g) tr tc (set_value k) Hwf' Htr Htc)
    as Hcount.
  unfold incr_solved in Hcount at 2. rewrite get_cell_recounter in Hcount.
  rewrite Hf, flagged_set_value, count_solved_incr in Hcount by lia.
  split.
  - apply grid_ok_spec. split; [rewrite wf_set; assumption|]. split.
    + intros a b Ha Hb.
      destruct (get_set_cases (incr_solved g) tr tc a b (set_value k))
        as [->|[_ ->]].
      * unfold incr_solved. rewrite get_cell_recounter. auto.
      * apply set_value_facts. assumption.
    + simpl. lia.
  - pose proof (count_solved_unsolved g).
    pose proof (count_solved_unsolved (set_cell (incr_solved g) tr tc (set_value k))).
    lia.
Qed.

Lemma reduce_until_tightens (n : nat) (g g' : grid) (r : Z) :
  reduce_until n g = Some (g', r) -> tightens g' g.
Proof.
  revert g; induction n as [|n IH]; intros g H; simpl in H; [discriminate|].
  pose proof (reduce_grid_loop_tightens coords g 0) as Ht.
  fold (reduce_grid g) in Ht.
  destruct (reduce_grid g) as [g1 r1]. simpl in Ht.
  destruct (r1 =? -1); [inversion H; subst; assumption|].
  destruct (0 <? r1).
  - eapply tightens_trans; [apply (IH _ H) | assumption].
  - inversion H; subst; assumption.
Qed.

(** What [try] finds after propagation on a grid of the data model. *)
Lemma try_propagate (g wg : grid) (r : Z) :
  grid_ok g = true ->
  reduce_until (S (weight g)) g = Some (wg, r) -> r <> -1 ->
  grid_ok wg = true /\ reduce_grid wg = (wg, 0)
  /\ (count_unsolved wg <= count_unsolved g)%nat.
Proof.
  intros Hok Hred Hr.
  destruct (reduce_until_ok (S (weight g)) g Hok) as (g' & r' & Hrun & Hres);
    [lia|].
  rewrite Hred in Hrun. inversion Hrun; subst g' r'.
  destruct Hres as [Hres|(_ & Hok' & Hfix & _)]; [contradiction|].
  split; [assumption|]. split; [assumption|].
  destruct (reduce_until_tightens _ _ _ _ Hred) as [_ Hcnt].
  apply grid_ok_spec in Hok, Hok'.
  destruct Hok as (_ & _ & Hc), Hok' as (_ & _ & Hc').
  pose proof (count_solved_unsolved g). pose proof (count_solved_unsolved wg).
  lia.
Qed.

Lemma try_guess_ok (g wg : grid) (r k : Z) :
  grid_ok g = true ->
  reduce_until (S (weight g)) g = Some (wg, r) -> r <> -1 ->
  solved_counter wg <> 81 -> 1 <= k <= 9 ->
  let guess := set_cell (incr_solved wg) (fst (choose_target_cell wg))
                 (snd (choose_target_cell wg)) (set_value k) in
  grid_ok guess = true /\ (count_unsolved guess < count_unsolved wg)%nat
  /\ (count_unsolved wg <= count_unsolved g)%nat.
Proof.
  intros Hok Hred Hr Hcnt Hk guess.
  destruct (try_propagate g wg r Hok Hred Hr) as (Hok' & Hfix & Hle).
  destruct (branch_target wg Hok' Hfix Hcnt) as (Htr & Htc & Hf).
  destruct (guess_ok wg _ _ k Hok' Htr Htc Hf Hk) as [H1 H2].
  fold guess in H1, H2. split; [assumption|]. split; [lia | assumption].
Qed.

(** ** Termination of the search *)

Lemma try_returns (n : nat) :
  forall g og, grid_ok g = true -> wf_grid og = true ->
    (count_unsolved g < n)%nat ->
    exists ret og', try n g og = Some (ret, og') /\ (ret = 0 \/ ret = 1).
Proof.
  induction n as [|n IH]; intros g og Hok Hog Hn; [lia|].
  assert (Hwf : wf_grid g = true) by (apply grid_ok_spec in Hok; tauto).
  rewrite try_unfold by assumption.
  destruct (reduce_until_ok (S (weight g)) g Hok) as (wg & r & Hrun & Hres);
    [lia|].
  rewrite Hrun.
  destruct (Z.eqb_spec r (-1)) as [Hr|Hr]; [exists 0, og; auto|].
  destruct (Z.eqb_spec (solved_counter wg) 81) as [Hcnt|Hcnt];
    [exists 1, (copy_grid wg og); auto|].
  set (tr := fst (choose_target_cell wg)).
  set (tc := snd (choose_target_cell wg)).
  assert (Hloop : forall ks cur og0,
             (forall k, In k ks -> 1 <= k <= 9) -> wf_grid og0 = true ->
             (forall k, set_cell cur tr tc (set_value k)
                        = set_cell (incr_solved wg) tr tc (set_value k)) ->
             exists ret og',
               guess_loop (try n) ks (get_cell wg tr tc) tr tc cur og0
               = Some (ret, og') /\ (ret = 0 \/ ret = 1)).
  { induction ks as [|k ks IHks]; intros cur og0 Hks Hog0 Hcur; simpl.
    - exists 0, og0. auto.
    - assert (Hks' : forall k', In k' ks -> 1 <= k' <= 9)
        by (intros k' Hk'; apply Hks; right; assumption).
      destruct (candidate (get_cell wg tr tc) k); [|apply IHks; assumption].
      rewrite Hcur.
      destruct (try_guess_ok g wg r k Hok Hrun Hr Hcnt (Hks k (or_introl eq_refl)))
        as (Hgok & Hlt & Hle).
      fold tr tc in Hgok, Hlt.
      destruct (IH _ og0 Hgok Hog0) as (ret1 & og1 & Hcall & Hret); [lia|].
      rewrite Hcall.
      assert (Hgwf : wf_grid (set_cell (incr_solved wg) tr tc (set_value k)) = true)
        by (apply grid_ok_spec in Hgok; tauto).
      destruct (try_rule (fun _ _ => True) (fun _ _ _ _ _ _ _ => I)
                  (fun _ _ _ _ _ _ _ _ _ _ _ _ => I) n _ og0 ret1 og1 Hgwf Hog0 Hcall)
        as [[-> ->]|[-> _]].
      + simpl. apply IHks; try assumption. intros k'. apply set_set.
      + simpl. exists 1, og1. auto. }
  apply Hloop; try assumption.
  - intros k. apply in_values.
  - reflexivity.
Qed.

(** C10. At the branching step of [try] (a grid of the data model that a
    pass of [reduce_grid] leaves unchanged with result 0, and whose counter
    is below 81) the cell returned by [choose_target_cell] is unsolved.  If
    some cell is solved, an unsolved cell with fewer than nine candidates
    exists and the scan selects an unsolved cell with the fewest candidates;
    if no cell is solved, the default answer (0, 0) is itself unsolved. *)
Theorem branch_target_unsolved (g : grid) :
  grid_ok g = true -> reduce_grid g = (g, 0) -> solved_counter g < 81 ->
  let tr := fst (choose_target_cell g) in
  let tc := snd (choose_target_cell g) in
  ((tr < ROWS)%nat /\ (tc < COLS)%nat /\ flagged (get_cell g tr tc) = false)
  /\ ((exists i j, (i < ROWS)%nat /\ (j < COLS)%nat
                   /\ flagged (get_cell g i j) = true) ->
      (exists a b, (a < ROWS)%nat /\ (b < COLS)%nat
                   /\ flagged (get_cell g a b) = false
                   /\ count_poss (get_cell g a b) < 9)
      /\ count_poss (get_cell g tr tc) < 9
      /\ forall i j, (i < ROWS)%nat -> (j < COLS)%nat ->
           flagged (get_cell g i j) = false ->
           count_poss (get_cell g tr tc) <= count_poss (get_cell g i j))
  /\ ((forall i j, (i < ROWS)%nat -> (j < COLS)%nat ->
         flagged (get_cell g i j) = false) ->
      flagged (get_cell g 0 0) = false).
Proof.
  intros Hok Hfix Hcnt tr tc.
  assert (Hne : solved_counter g <> 81) by lia.
  split; [apply branch_target; assumption|]. split.
  - intros (r & c & Hr & Hc & Hs).
    destruct (reduce_grid_still g g Hfix) as [_ Hall].
    pose proof Hok as Hok'. apply grid_ok_spec in Hok'.
    destruct Hok' as (_ & _ & Hcounter).
    pose proof (count_solved_unsolved g) as Hsum.
    destruct (count_unsolved_exists g) as (a & b & Ha & Hb & Hu); [lia|].
    destruct (mixed_grid_peers g r c a b Hr Hc Ha Hb Hs Hu)
      as (r' & c' & a' & b' & Hr' & Hc' & Ha' & Hb' & Hs' & Hu' & Hpeer).
    assert (Hlow : count_poss (get_cell g a' b') < 9)
      by (apply (fixpoint_peer_count g r' c' a' b'); auto).
    assert (Hex : exists i j, (i < ROWS)%nat /\ (j < COLS)%nat
                              /\ flagged (get_cell g i j) = false
                              /\ count_poss (get_cell g i j) < 9)
      by (exists a', b'; auto).
    split; [assumption|].
    destruct (choose_target_spec g) as [Hsome _]. cbv zeta in Hsome.
    destruct (Hsome Hex) as (_ & _ & _ & H1 & H2). split; assumption.
  - intros Hall. apply Hall; unfold ROWS, COLS; lia.
Qed.

(** C5. On a grid of the data model [try] returns, and it does so within a
    nesting of recursive calls bounded by the number of unsolved cells of
    the grid, which is at most 81: every recursive call receives a grid
    with strictly fewer unsolved cells than the working grid at the
    branching step, which has no more unsolved cells than the grid the call
    started from. *)
Theorem try_terminates (g og : grid) (depth : nat) :
  grid_ok g = true -> wf_grid og = true ->
  (count_unsolved g < depth)%nat ->
  (exists ret og', try depth g og = Some (ret, og') /\ (ret = 0 \/ ret = 1))
  /\ (count_unsolved g <= 81)%nat
  /\ (forall wg r k,
        reduce_until (S (weight g)) g = Some (wg, r) -> r <> -1 ->
        solved_counter wg <> 81 -> 1 <= k <= 9 ->
        (count_unsolved
           (set_cell (incr_solved wg) (fst (choose_target_cell wg))
              (snd (choose_target_cell wg)) (set_value k))
         < count_unsolved wg)%nat
        /\ (count_unsolved wg <= count_unsolved g)%nat).
Proof.
  intros Hok Hog Hdepth. split; [apply try_returns; assumption|]. split.
  - pose proof (count_solved_unsolved g). lia.
  - intros wg r k Hred Hr Hcnt Hk.
    destruct (try_guess_ok g wg r k Hok Hred Hr Hcnt Hk) as (_ & H1 & H2).
    split; assumption.
Qed.

(** ** Rows, columns and regions of a solved grid *)

Lemma units_ok (u : nat) :
  (u < 9)%nat ->
  unit_ok (row_coords u) = true /\ unit_ok (col_coords u) = true
  /\ unit_ok (region_coords u) = true.
Proof.
  intros Hu.
  assert (H : forallb (fun u => unit_ok (row_coords u) && unit_ok (col_coords u)
                                && unit_ok (region_coords u)) (seq 0 9) = true)
    by (vm_compute; reflexivity).
  rewrite forallb_forall in H. specialize (H u).
  rewrite !andb_true_iff in H. rewrite and_assoc in H. apply H.
  apply in_seq. lia.
Qed.

(** At a fixpoint, two flagged peers of the data model hold different
    digits. *)
Lemma fixpoint_peers_differ (g : grid) (r c a b : nat) :
  grid_ok g = true -> reduce g r c = (g, 0) ->
  (a < ROWS)%nat -> (b < COLS)%nat ->
  flagged (get_cell g r c) = true -> flagged (get_cell g a b) = true ->
  is_peer r c a b = true ->
  get_value (get_cell g r c) <> get_value (get_cell g a b).
Proof.
  intros Hok Hred Ha Hb Hs Hp Hpeer.
  destruct (grid_ok_source g r c Hok Hs) as (w & Hw & Hsrc).
  destruct (grid_ok_source g a b Hok Hp) as (v & Hv & Hcell).
  pose proof (reduce_fixpoint_peer g r c a b Hs Hred Ha Hb Hpeer) as Hfix.
  cbv zeta in Hfix. rewrite Hsrc, Hcell in Hfix.
  rewrite land_mask_set_value, new_cell_set_value in Hfix by assumption.
  destruct (set_value_facts v Hv) as (_ & _ & Hgv & Hn0 & Hn1 & _).
  destruct (set_value_facts w Hw) as (_ & _ & Hgw & _).
  rewrite Hsrc, Hcell, Hgv, Hgw.
  rewrite candidate_set_value in Hfix by lia.
  destruct (Z.eqb_spec w v) as [Heq|Hne]; [|assumption].
  destruct Hfix as [Hz|[Hsame _]]; [lia | congruence].
Qed.

Lemma digits_once (l : list Z) :
  NoDup l -> length l = 9%nat -> (forall d, In d l -> 1 <= d <= 9) ->
  each_digit_once l.
Proof.
  intros Hnd Hlen Hrange d Hd.
  apply NoDup_count_occ'; [assumption|].
  apply (NoDup_length_incl Hnd (l' := values)).
  - rewrite Hlen. reflexivity.
  - intros x Hx. apply in_values, Hrange, Hx.
  - apply in_values. assumption.
Qed.

Lemma unit_digits_once (g : grid) (ps : list (nat * nat)) :
  grid_ok g = true -> reduce_grid g = (g, 0) -> solved_counter g = 81 ->
  unit_ok ps = true -> each_digit_once (digits_at g ps).
Proof.
  intros Hok Hfix Hcnt Hunit.
  destruct (reduce_grid_still g g Hfix) as [_ Hall].
  pose proof Hok as Hok'. apply grid_ok_spec in Hok'.
  destruct Hok' as (_ & Hcells & Hcounter).
  assert (Hflag : forall i j, (i < ROWS)%nat -> (j < COLS)%nat ->
                    flagged (get_cell g i j) = true)
    by (apply count_solved_all; lia).
  unfold unit_ok in Hunit. rewrite !andb_true_iff in Hunit.
  destruct Hunit as [[Hlen Hnd] Hpairs].
  apply Nat.eqb_eq in Hlen. apply nodupb_NoDup in Hnd.
  rewrite forallb_forall in Hpairs.
  assert (Hin : forall p, In p ps ->
                  (fst p < ROWS)%nat /\ (snd p < COLS)%nat
                  /\ forall q, In q ps ->
                       p = q \/ is_peer (fst p) (snd p) (fst q) (snd q) = true).
  { intros p Hp. specialize (Hpairs p Hp).
    rewrite !andb_true_iff, !Nat.ltb_lt, forallb_forall in Hpairs.
    destruct Hpairs as [[H1 H2] H3]. repeat split; try assumption.
    intros q Hq. specialize (H3 q Hq). apply orb_true_iff in H3.
    destruct H3 as [H3|H3]; [left; apply coord_eqb_eq; assumption | right; assumption]. }
  apply digits_once.
  - unfold digits_at. apply NoDup_map_NoDup_ForallPairs; [|assumption].
    intros p q Hp Hq Heq.
    destruct (Hin p Hp) as (Hp1 & Hp2 & Hpq).
    destruct (Hin q Hq) as (Hq1 & Hq2 & _).
    destruct (Hpq q Hq) as [|Hpeer]; [assumption|]. exfalso.
    apply (fixpoint_peers_differ g (fst p) (snd p) (fst q) (snd q)); auto.
  - unfold digits_at. rewrite length_map. assumption.
  - intros d Hd. unfold digits_at in Hd. apply in_map_iff in Hd.
    destruct Hd as (p & <- & Hp). destruct (Hin p Hp) as (Hp1 & Hp2 & _).
    destruct (cell_ok_solved _ (Hcells _ _ Hp1 Hp2) (Hflag _ _ Hp1 Hp2))
      as (v & Hv & ->).
    destruct (set_value_facts v Hv) as (_ & _ & -> & _). assumption.
Qed.

Lemma fixpoint_full_valid (g : grid) :
  grid_ok g = true -> reduce_grid g = (g, 0) -> solved_counter g = 81 ->
  valid_solution g.
Proof.
  intros Hok Hfix Hcnt. split.
  - apply count_solved_all. apply grid_ok_spec in Hok. lia.
  - intros u Hu. destruct (units_ok u Hu) as (H1 & H2 & H3).
    repeat split; apply unit_digits_once; assumption.
Qed.

Lemma try_sound (depth : nat) (ig og : grid) (ret : Z) (og' : grid) :
  wf_grid ig = true -> wf_grid og = true ->
  try depth ig og = Some (ret, og') ->
  (ret = 0 /\ og' = og)
  \/ (ret = 1 /\ (grid_ok ig = true -> grid_ok og' = true /\ valid_solution og')).
Proof.
  apply (try_rule (fun ig res => grid_ok ig = true ->
                                 grid_ok res = true /\ valid_solution res)).
  - intros g wg r _ Hred Hr Hcnt Hok.
    destruct (try_propagate g wg r Hok Hred Hr) as (Hok' & Hfix & _).
    split; [assumption | apply fixpoint_full_valid; assumption].
  - intros g wg r k res _ Hred Hr Hcnt Hk _ Hres Hok.
    apply Hres.
    apply (try_guess_ok g wg r k Hok Hred Hr Hcnt Hk).
Qed.

(** C1. Whenever [try] returns success on a grid of the data model, every
    cell of the output grid it writes is solved (the grid is again one of
    the data model and every cell has its flag set, hence exactly one
    candidate), and each row, each column and each 3 by 3 region of that
    grid contains each digit 1..9 exactly once. *)
Theorem try_success_valid (depth : nat) (ig og og' : grid) :
  grid_ok ig = true -> wf_grid og = true ->
  try depth ig og = Some (1, og') ->
  grid_ok og' = true /\ valid_solution og'.
Proof.
  intros Hok Hog Htry.
  assert (Hwf : wf_grid ig = true) by (apply grid_ok_spec in Hok; tauto).
  destruct (try_sound depth ig og 1 og' Hwf Hog Htry) as [[H _]|[_ H]];
    [discriminate|].
  apply H. assumption.
Qed.

(** ** Building the initial grid *)

Lemma filter_none {A : Type} (f : A -> bool) (l : list A) :
  (forall x, In x l -> f x = false) -> filter f l = [].
Proof.
  induction l as [|x l IH]; intros H; simpl; [reflexivity|].
  rewrite (H x (or_introl eq_refl)). apply IH.
  intros y Hy. apply H. right. assumption.
Qed.

Lemma grid_zero_ok (g : grid) :
  wf_grid g = true ->
  grid_ok (grid_zero g) = true /\ solved_counter (grid_zero g) = 0
  /\ forall i j, (i < ROWS)%nat -> (j < COLS)%nat ->
       flagged (get_cell (grid_zero g) i j) = false.
Proof.
  intros Hwf.
  assert (Hopen : forall i j, (i < ROWS)%nat -> (j < COLS)%nat ->
                    flagged (get_cell (grid_zero g) i j) = false).
  { intros i j Hi Hj. rewrite grid_zero_get by assumption. reflexivity. }
  split; [|split; [reflexivity | assumption]].
  apply grid_ok_spec. split; [rewrite grid_zero_wf; assumption|]. split.
  - intros i j Hi Hj. rewrite grid_zero_get by assumption. reflexivity.
  - unfold count_solved. rewrite filter_none; [reflexivity|].
    intros [i j] Hin. apply in_coords in Hin. apply Hopen; tauto.
Qed.

Lemma is_digit_range (c : ascii) :
  is_digit c = true -> 1 <= digit_of c <= 9.
Proof.
  unfold is_digit, digit_of.
  rewrite andb_true_iff, !Nat.leb_le. lia.
Qed.

Lemma incr_set_cell (g : grid) (i j : nat) (v : Z) :
  incr_solved (set_cell g i j v) = set_cell (incr_solved g) i j v.
Proof. reflexivity. Qed.

Lemma read_row_cons (c : ascii) (rest : list ascii) (g : grid) (i j : nat) :
  read_row (c :: rest) g i j =
  if Ascii.eqb c NUL then RowEnd g rest
  else if Ascii.eqb c NL then RowEnd g rest
  else if Ascii.eqb c " " || Ascii.eqb c "-" || (COLS <=? j)%nat then
    read_row rest g i (S j)
  else if is_digit c then
    read_row rest (incr_solved (set_cell g i j (set_value (digit_of c)))) i (S j)
  else RowBad g.
Proof. reflexivity. Qed.

Lemma read_row_nil (g : grid) (i j : nat) : read_row [] g i j = RowBad g.
Proof. reflexivity. Qed.

(** Reading a row keeps the data model as long as the cells still to come
    (the rest of this row and the rows below) are open. *)
Lemma read_row_ok (input : list ascii) :
  forall (g : grid) (i j : nat) (g' : grid) (rest : list ascii),
    grid_ok g = true -> (i < ROWS)%nat ->
    (forall a b, (a < ROWS)%nat -> (b < COLS)%nat ->
       (i < a)%nat \/ (a = i /\ (j <= b)%nat) -> flagged (get_cell g a b) = false) ->
    read_row input g i j = RowEnd g' rest ->
    grid_ok g' = true
    /\ forall a b, (a < ROWS)%nat -> (b < COLS)%nat -> (i < a)%nat ->
         flagged (get_cell g' a b) = false.
Proof.
  induction input as [|c input IH]; intros g i j g' rest Hok Hi Hopen H.
  - rewrite read_row_nil in H. discriminate.
  - rewrite read_row_cons in H. destruct (Ascii.eqb c NUL);
      [inversion H; subst; split; [assumption | intros; apply Hopen; auto]|].
    destruct (Ascii.eqb c NL);
      [inversion H; subst; split; [assumption | intros; apply Hopen; auto]|].
    destruct (Ascii.eqb c " " || Ascii.eqb c "-" || (COLS <=? j)%nat) eqn:Hskip.
    + apply (IH g i (S j) g' rest); try assumption.
      intros a b Ha Hb Hpos. apply Hopen; try assumption. lia.
    + destruct (is_digit c) eqn:Hd; [|discriminate].
      apply orb_false_iff in Hskip. destruct Hskip as [_ Hj].
      apply Nat.leb_gt in Hj.
      rewrite incr_set_cell in H.
      destruct (guess_ok g i j (digit_of c) Hok Hi Hj) as [Hok' _];
        [apply Hopen; auto | apply is_digit_range; assumption|].
      apply (IH (set_cell (incr_solved g) i j (set_value (digit_of c)))
               i (S j) g' rest); try assumption.
      intros a b Ha Hb Hpos. rewrite get_set_neq by (intros Heq; inversion Heq; lia).
      unfold incr_solved. rewrite get_cell_recounter.
      apply Hopen; try assumption. lia.
Qed.

Lemma read_rows_ok (n : nat) :
  forall (input : list ascii) (g : grid) (i : nat) (g' : grid),
    grid_ok g = true -> (i + n = ROWS)%nat ->
    (forall a b, (a < ROWS)%nat -> (b < COLS)%nat -> (i <= a)%nat ->
       flagged (get_cell g a b) = false) ->
    read_rows n input g i = (1, g') ->
    grid_ok g' = true.
Proof.
  induction n as [|n IH]; intros input g i g' Hok Hin Hopen H; simpl in H.
  - inversion H; subst. assumption.
  - destruct (read_row input g i 0) as [g1 rest|g1] eqn:Hrow;
      [|inversion H].
    assert (Hi : (i < ROWS)%nat) by lia.
    assert (Hopen0 : forall a b, (a < ROWS)%nat -> (b < COLS)%nat ->
                       (i < a)%nat \/ (a = i /\ (0 <= b)%nat) ->
                       flagged (get_cell g a b) = false)
      by (intros a b Ha Hb Hpos; apply Hopen; try assumption; lia).
    destruct (read_row_ok input g i 0%nat g1 rest Hok Hi Hopen0 Hrow)
      as [Hok1 Hopen1].
    apply (IH rest g1 (S i) g'); try assumption; lia.
Qed.

Lemma read_grid_ok (input : list ascii) (g g' : grid) :
  wf_grid g = true ->
  read_grid input (grid_zero g) = (1, g') -> grid_ok g' = true.
Proof.
  intros Hwf H. destruct (grid_zero_ok g Hwf) as (Hok & _ & Hopen).
  apply (read_rows_ok ROWS input (grid_zero g) 0%nat g'); try assumption.
  - reflexivity.
  - intros a b Ha Hb _. apply Hopen; assumption.
Qed.

Lemma grid_ok_counter (g : grid) :
  grid_ok g = true -> counter_ok g = true.
Proof.
  unfold grid_ok. rewrite !andb_true_iff. tauto.
Qed.

Lemma grid_ok_counter_range (g : grid) :
  grid_ok g = true -> 0 <= solved_counter g <= 81.
Proof.
  intros Hok. apply grid_ok_spec in Hok. destruct Hok as (_ & _ & Hcnt).
  pose proof (count_solved_unsolved g). lia.
Qed.

(** Every grid [try] is called on is a grid of the data model. *)
Lemma called_on_ok (g : grid) : called_on g -> grid_ok g = true.
Proof.
  induction 1 as [input g0 ig Hwf Hread|ig wg r k _ IH Hred Hr Hcnt Hk _].
  - apply (read_grid_ok input g0); assumption.
  - apply (try_guess_ok ig wg r k IH Hred Hr Hcnt Hk).
Qed.

(** C8. Every operation that produces a grid keeps [solved_counter] equal
    to the number of flagged cells: [grid_zero] establishes it with counter
    0; [read_grid] keeps it on the input it accepts (reading into the grid
    made by [grid_zero]); [reduce] and [reduce_grid] keep it when they do
    not return [-1]; the guess step of [try] keeps it.  The grids are those
    of the data model, which each of these operations also preserves. *)
Theorem counter_invariant (g0 g : grid) :
  wf_grid g0 = true -> grid_ok g = true ->
  (counter_ok (grid_zero g0) = true /\ solved_counter (grid_zero g0) = 0
   /\ grid_ok (grid_zero g0) = true)
  /\ (forall input g',
        read_grid input (grid_zero g0) = (1, g') ->
        counter_ok g' = true /\ grid_ok g' = true)
  /\ (forall row column,
        snd (reduce g row column) <> -1 ->
        counter_ok (fst (reduce g row column)) = true
        /\ grid_ok (fst (reduce g row column)) = true)
  /\ (snd (reduce_grid g) <> -1 ->
      counter_ok (fst (reduce_grid g)) = true
      /\ grid_ok (fst (reduce_grid g)) = true)
  /\ (reduce_grid g = (g, 0) -> solved_counter g <> 81 ->
      forall k, 1 <= k <= 9 ->
        let guess := set_cell (incr_solved g) (fst (choose_target_cell g))
                       (snd (choose_target_cell g)) (set_value k) in
        counter_ok guess = true /\ grid_ok guess = true).
Proof.
  intros Hwf Hok.
  assert (Hboth : forall h, grid_ok h = true ->
                    counter_ok h = true /\ grid_ok h = true)
    by (intros h Hh; split; [apply grid_ok_counter|]; assumption).
  split; [|split; [|split; [|split]]].
  - destruct (grid_zero_ok g0 Hwf) as (H1 & H2 & _).
    split; [apply grid_ok_counter; assumption | split; assumption].
  - intros input g' Hread. apply Hboth. apply (read_grid_ok input g0); assumption.
  - intros row column Hr. apply Hboth.
    destruct (reduce_ok g row column Hok) as [H|[H _]]; [contradiction | assumption].
  - intros Hr. apply Hboth.
    destruct (reduce_grid_ok g Hok) as [H|[H _]]; [contradiction | assumption].
  - intros Hfix Hcnt k Hk guess. apply Hboth.
    destruct (branch_target g Hok Hfix Hcnt) as (Htr & Htc & Hf).
    apply (guess_ok g _ _ k Hok Htr Htc Hf Hk).
Qed.

(** ** The contract of [reduce] *)

Lemma land_flag_mask (s : Z) : Z.land 1 (mask_of s) <> 0.
Proof.
  apply flagged_nonzero. unfold mask_of. rewrite flagged_land_mask. reflexivity.
Qed.

Section ReduceContract.
Variables (g : grid) (row column : nat) (s : Z).

Let modified (g' : grid) (ij : nat * nat) : bool :=
  is_peer row column (fst ij) (snd ij)
  && negb (get_cell g' (fst ij) (snd ij) =? get_cell g (fst ij) (snd ij)).

Let Inv (ps : list (nat * nat)) (g' : grid) (changed : Z) : Prop :=
  NoDup ps
  /\ (forall i j, In (i, j) ps ->
        In (i, j) coords /\ get_cell g' i j = get_cell g i j)
  /\ changed = Z.of_nat (length (filter (modified g') coords))
  /\ (forall i j, In (i, j) coords -> is_peer row column i j = true ->
        ~ In (i, j) ps -> ~ wiped_out (get_cell g i j) (get_cell g' i j)).

Let Stop (g' : grid) : Prop :=
  exists i j, (i < ROWS)%nat /\ (j < COLS)%nat /\ is_peer row column i j = true
              /\ wiped_out (get_cell g i j) (get_cell g' i j).

Lemma reduce_loop_contract :
  let res := reduce_loop row column (mask_of s) coords g 0 in
  (snd res = -1 /\ Stop (fst res))
  \/ (snd res = Z.of_nat (modified_peers row column g (fst res))
      /\ ~ Stop (fst res)).
Proof.
  cbv zeta.
  destruct (reduce_loop_rule row column (mask_of s) Inv Stop)
    with (ps := coords) (g := g) (changed := 0)
    as [H|(_ & _ & Hcount & Hnot)].
  - (* a cell that is passed over *)
    intros i j ps g' ch (Hnd & Hrest & Hcount & Hnot) Ht.
    apply NoDup_cons_iff in Hnd. destruct Hnd as [Hnin Hnd'].
    split; [assumption|]. split; [|split; [assumption|]].
    + intros a b Hin. apply Hrest. right. assumption.
    + intros a b Hin Hpeer Hnin'.
      destruct (Nat.eq_dec a i) as [->|Ha];
        [destruct (Nat.eq_dec b j) as [->|Hb]|].
      * destruct (Hrest i j (or_introl eq_refl)) as [_ Hsame].
        unfold touched in Ht. rewrite Hpeer in Ht. simpl in Ht.
        apply negb_false_iff, Z.eqb_eq in Ht.
        rewrite Hsame in *. intros [[Hnz Hz]|H1]; [contradiction|].
        rewrite H1 in Ht. apply (land_flag_mask s). assumption.
      * apply Hnot; try assumption. intros [Heq|Hin']; [|contradiction].
        inversion Heq; congruence.
      * apply Hnot; try assumption. intros [Heq|Hin']; [|contradiction].
        inversion Heq; congruence.
  - (* a cell that is processed *)
    intros i j ps g' ch (Hnd & Hrest & Hcount & Hnot) Ht. cbv zeta.
    apply NoDup_cons_iff in Hnd. destruct Hnd as [Hnin Hnd'].
    destruct (Hrest i j (or_introl eq_refl)) as [Hin Hsame].
    assert (Hnz : get_cell g' i j <> 0) by (eapply touched_nonzero; eassumption).
    assert (Hpeer : is_peer row column i j = true)
      by (unfold touched in Ht; apply andb_true_iff in Ht; tauto).
    set (cell := new_cell (mask_of s) (get_cell g' i j)) in *.
    assert (Hhere : get_cell (step_grid g' i j cell) i j = cell)
      by (apply get_step_grid_eq; assumption).
    destruct ((cell =? 0) || (cell =? 1)) eqn:Hab.
    + apply in_coords in Hin. exists i, j. repeat split; try tauto.
      rewrite Hhere. apply orb_true_iff in Hab.
      destruct Hab as [H0|H1]; [left | right; apply Z.eqb_eq; assumption].
      apply Z.eqb_eq in H0. split; congruence.
    + apply orb_false_iff in Hab. destruct Hab as [H0 H1].
      apply Z.eqb_neq in H0, H1.
      split; [assumption|]. split; [|split].
      * intros a b Hin'. destruct (Hrest a b (or_intror Hin')) as [Hc Hs].
        split; [assumption|].
        rewrite get_step_grid_neq by (intros Heq; inversion Heq; subst; contradiction).
        assumption.
      * pose proof (filter_length_update (modified g')
                      (modified (step_grid g' i j cell)) coords (i, j)
                      NoDup_coords Hin) as Hupd.
        assert (Hold : modified g' (i, j) = false).
        { unfold modified. cbn [fst snd]. rewrite Hsame, Z.eqb_refl.
          apply andb_false_r. }
        assert (Hnew : modified (step_grid g' i j cell) (i, j)
                       = negb (cell =? get_cell g' i j)).
        { unfold modified. cbn [fst snd]. rewrite Hhere, Hpeer, Hsame.
          reflexivity. }
        rewrite Hold, Hnew in Hupd. rewrite Hcount.
        assert (Hext : forall q, In q coords -> q <> (i, j) ->
                         modified (step_grid g' i j cell) q = modified g' q).
        { intros [a b] _ Hne. unfold modified. cbn [fst snd].
          rewrite get_step_grid_neq by congruence. reflexivity. }
        specialize (Hupd Hext).
        destruct (cell =? get_cell g' i j); cbn [negb] in Hupd; lia.
      * intros a b Hin' Hpeer' Hnin'.
        destruct (Nat.eq_dec a i) as [->|Ha];
          [destruct (Nat.eq_dec b j) as [->|Hb]|].
        -- rewrite Hhere. intros [[_ Hz]|Ho]; contradiction.
        -- rewrite get_step_grid_neq by congruence.
           apply Hnot; try assumption. intros [Heq|Hin'']; [|contradiction].
           inversion Heq; congruence.
        -- rewrite get_step_grid_neq by congruence.
           apply Hnot; try assumption. intros [Heq|Hin'']; [|contradiction].
           inversion Heq; congruence.
  - (* before the loop *)
    split; [apply NoDup_coords|]. split; [auto|]. split.
    + rewrite filter_none; [reflexivity|].
      intros [a b] _. unfold modified. rewrite Z.eqb_refl. apply andb_false_r.
    + intros a b Hin _ Hnin. contradiction.
  - left. assumption.
  - right. split; [assumption|].
    intros (i & j & Hi & Hj & Hpeer & Hw).
    apply (Hnot i j); auto. apply in_coords. split; assumption.
Qed.
End ReduceContract.

Lemma clear_facts_all (w c : Z) :
  1 <= w <= 9 -> cell_ok c = true -> clear_facts w c = true.
Proof.
  intros Hw Hc.
  pose proof (values_forall
                (fun w => forallb (clear_facts w) (map Z.of_nat (seq 0 1024)))
                ltac:(vm_compute; reflexivity) w Hw) as H.
  cbv beta in H. apply (cells_forall _ H c), cell_ok_range, Hc.
Qed.

(** A cell that [mark_if_solved] leaves empty or with only the flag held
    only the flag. *)
Lemma mark_only_flag (x : Z) :
  x <> 0 -> mark_if_solved x = 0 \/ mark_if_solved x = 1 -> x = 1.
Proof.
  intros Hnz H. unfold mark_if_solved in H.
  destruct (count_poss x =? 1); [|destruct H; [contradiction | assumption]].
  unfold SOLVED in H. destruct H as [H|H].
  - apply Z.lor_eq_0_iff in H. destruct H; discriminate.
  - assert (Hx : x = Z.land x (Z.lor x 1)).
    { apply Z.bits_inj'. intros n Hn.
      rewrite Z.land_spec, Z.lor_spec. destruct (Z.testbit x n); reflexivity. }
    rewrite H in Hx.
    change 1 with (Z.ones 1) in Hx. rewrite Z.land_ones in Hx by lia.
    pose proof (Z.mod_pos_bound x (2 ^ 1) ltac:(lia)) as Hb.
    change (2 ^ 1) with 2 in *. lia.
Qed.

Section ReduceEffect.
Variables (g : grid) (row column : nat) (mask : Z).

Let written (g' : grid) (a b : nat) : Prop :=
  get_cell g' a b = get_cell g a b
  \/ (touched row column mask a b (get_cell g a b) = true
      /\ get_cell g' a b = new_cell mask (get_cell g a b)).

Let clash (a b : nat) : Prop :=
  is_peer row column a b = true /\ Z.land (get_cell g a b) mask = 1.

Let Inv (ps : list (nat * nat)) (g' : grid) (changed : Z) : Prop :=
  NoDup ps /\ 0 <= changed
  /\ forall a b,
       (In (a, b) ps -> In (a, b) coords /\ get_cell g' a b = get_cell g a b)
       /\ (In (a, b) coords -> ~ In (a, b) ps -> written g' a b /\ ~ clash a b).

Let Stop (g' : grid) : Prop :=
  (exists a b, In (a, b) coords /\ clash a b)
  /\ forall a b, In (a, b) coords -> written g' a b.

(** Whatever [reduce] returns, a cell holds what it held or is a processed
    peer holding [mark_if_solved] of its masked value; and the result is
    [-1] exactly when some peer of the grid it was given is left with only
    the flag by the mask. *)
Lemma reduce_loop_effect :
  let res := reduce_loop row column mask coords g 0 in
  (forall a b, In (a, b) coords -> written (fst res) a b)
  /\ (snd res = -1 <-> exists a b, In (a, b) coords /\ clash a b).
Proof.
  cbv zeta.
  destruct (reduce_loop_rule row column mask Inv Stop)
    with (ps := coords) (g := g) (changed := 0)
    as [[Hret [Hex Hall]]|(_ & Hpos & HI)].
  - (* a cell that is passed over *)
    intros i j ps g' ch (Hnd & Hpos & HI) Ht.
    apply NoDup_cons_iff in Hnd. destruct Hnd as [Hnin Hnd].
    split; [assumption|]. split; [assumption|]. intros a b.
    destruct (HI a b) as [H1 H2]. split.
    + intros Hin. apply H1. right. assumption.
    + intros Hc Hn.
      destruct (Nat.eq_dec a i) as [->|Ha];
        [destruct (Nat.eq_dec b j) as [->|Hb]|].
      * destruct (HI i j) as [[_ Hsame] _]; [left; reflexivity|].
        split; [left; assumption|]. intros [Hp Hone].
        rewrite Hsame in Ht. unfold touched in Ht. rewrite Hp, Hone in Ht.
        discriminate.
      * apply H2; [assumption|].
        intros [Heq|Hin]; [inversion Heq; congruence | auto].
      * apply H2; [assumption|].
        intros [Heq|Hin]; [inversion Heq; congruence | auto].
  - (* a cell that is processed *)
    intros i j ps g' ch (Hnd & Hpos & HI) Ht. cbv zeta.
    apply NoDup_cons_iff in Hnd. destruct Hnd as [Hnin Hnd].
    destruct (HI i j) as [[Hin Hsame] _]; [left; reflexivity|].
    assert (Hnz : get_cell g' i j <> 0) by (eapply touched_nonzero; eassumption).
    assert (Hhere : forall cell, get_cell (step_grid g' i j cell) i j = cell)
      by (intros cell; apply get_step_grid_eq; assumption).
    assert (Hpeer : is_peer row column i j = true)
      by (unfold touched in Ht; apply andb_true_iff in Ht; tauto).
    assert (Hland : Z.land (get_cell g' i j) mask <> 0).
    { unfold touched in Ht. apply andb_true_iff in Ht. destruct Ht as [_ Ht].
      apply negb_true_iff, Z.eqb_neq in Ht. assumption. }
    assert (Hother : forall a b cell, (a, b) <> (i, j) -> In (a, b) coords ->
                       written (step_grid g' i j cell) a b).
    { intros a b cell Hne Hc. unfold written.
      rewrite get_step_grid_neq by congruence.
      destruct (HI a b) as [H1 H2].
      destruct (in_dec (fun p q : nat * nat =>
                          ltac:(decide equality; apply Nat.eq_dec)) (a, b) ps)
        as [Hin'|Hn'].
      - left. apply H1. right. assumption.
      - apply H2; [assumption|].
        intros [Heq|Hin']; [congruence | contradiction]. }
    assert (Hmine : written (step_grid g' i j (new_cell mask (get_cell g' i j))) i j).
    { right. rewrite Hhere, <- Hsame. split; [assumption | reflexivity]. }
    destruct ((new_cell mask (get_cell g' i j) =? 0)
              || (new_cell mask (get_cell g' i j) =? 1)) eqn:Hab.
    + split.
      * exists i, j. split; [assumption|]. split; [assumption|].
        rewrite <- Hsame. apply mark_only_flag; [assumption|].
        apply orb_true_iff in Hab. unfold new_cell in Hab.
        destruct Hab as [H|H]; apply Z.eqb_eq in H; auto.
      * intros a b Hc.
        destruct (Nat.eq_dec a i) as [->|Ha];
          [destruct (Nat.eq_dec b j) as [->|Hb]|];
          [assumption | apply Hother; congruence | apply Hother; congruence].
    + split; [assumption|].
      split; [match goal with |- 0 <= (if ?t then _ else _) => destruct t end; lia|].
      intros a b.
      destruct (HI a b) as [H1 H2]. split.
      * intros Hin'. destruct H1 as [Hc Hs]; [right; assumption|].
        split; [assumption|].
        rewrite get_step_grid_neq
          by (intros Heq; inversion Heq; subst; contradiction).
        assumption.
      * intros Hc Hn.
        destruct (Nat.eq_dec a i) as [->|Ha];
          [destruct (Nat.eq_dec b j) as [->|Hb]|].
        -- split; [assumption|]. intros [_ Hone].
           apply orb_false_iff in Hab. destruct Hab as [_ H1'].
           apply Z.eqb_neq in H1'. apply H1'. unfold new_cell.
           rewrite Hsame, Hone. reflexivity.
        -- split; [apply Hother; congruence|]. apply H2; [assumption|].
           intros [Heq|Hin']; [inversion Heq; congruence | auto].
        -- split; [apply Hother; congruence|]. apply H2; [assumption|].
           intros [Heq|Hin']; [inversion Heq; congruence | auto].
  - (* before the loop *)
    split; [apply NoDup_coords|]. split; [lia|]. intros a b. split.
    + intros Hin. split; [assumption | reflexivity].
    + intros Hc Hn. contradiction.
  - split; [assumption|]. split; [intros _; assumption | intros _; assumption].
  - split.
    + intros a b Hc. apply HI; [assumption | intros []].
    + split; [intros Hm; lia|]. intros (a & b & Hc & Hcl). exfalso.
      destruct (HI a b) as [_ H2]. apply (H2 Hc); [intros [] | assumption].
Qed.
End ReduceEffect.
(** The cells after a pass that does not fail. *)
Lemma reduce_cells_after (g : grid) (row column i j : nat) :
  flagged (get_cell g row column) = true ->
  snd (reduce g row column) <> -1 ->
  (i < ROWS)%nat -> (j < COLS)%nat ->
  let mask := Z.lnot (Z.land (get_cell g row column) O_CELL) in
  get_cell (fst (reduce g row column)) i j =
  if is_peer row column i j && negb (Z.land (get_cell g i j) mask =? 0)
  then mark_if_solved (Z.land (get_cell g i j) mask)
  else get_cell g i j.
Proof.
  intros Hf Hret Hi Hj mask. rewrite reduce_solved in * by assumption.
  fold (mask_of (get_cell g row column)) in mask.
  fold (touched row column mask i j (get_cell g i j)).
  fold (new_cell mask (get_cell g i j)).
  destruct (reduce_loop_rule row column mask
              (fun ps g' _ =>
                 NoDup ps
                 /\ forall a b,
                      (In (a, b) ps -> get_cell g' a b = get_cell g a b)
                      /\ (In (a, b) coords -> ~ In (a, b) ps ->
                          get_cell g' a b =
                          if touched row column mask a b (get_cell g a b)
                          then new_cell mask (get_cell g a b)
                          else get_cell g a b))
              (fun _ => True))
    with (ps := coords) (g := g) (changed := 0) as [[H _]|[_ H]].
  - intros a b ps g' ch [Hnd HI] Ht.
    apply NoDup_cons_iff in Hnd. destruct Hnd as [Hnin Hnd].
    split; [assumption|]. intros a' b'. destruct (HI a' b') as [H1 H2]. split.
    + intros Hin. apply H1. right. assumption.
    + intros Hc Hn.
      destruct (Nat.eq_dec a' a) as [->|Ha];
        [destruct (Nat.eq_dec b' b) as [->|Hb]|].
      * rewrite H1 in * by (left; reflexivity). rewrite Ht. reflexivity.
      * apply H2; [assumption|]. intros [Heq|Hin]; [inversion Heq; congruence|auto].
      * apply H2; [assumption|]. intros [Heq|Hin]; [inversion Heq; congruence|auto].
  - intros a b ps g' ch [Hnd HI] Ht. cbv zeta.
    destruct (_ || _); [exact I|].
    apply NoDup_cons_iff in Hnd. destruct Hnd as [Hnin Hnd].
    split; [assumption|]. intros a' b'. destruct (HI a' b') as [H1 H2].
    assert (Hnz : get_cell g' a b <> 0) by (eapply touched_nonzero; eassumption).
    destruct (Nat.eq_dec a' a) as [->|Ha];
      [destruct (Nat.eq_dec b' b) as [->|Hb]|].
    + split; [intros Hin; contradiction|]. intros _ _.
      rewrite get_step_grid_eq by assumption.
      destruct (HI a b) as [Hsame _].
      rewrite Hsame in * by (left; reflexivity). rewrite Ht. reflexivity.
    + rewrite get_step_grid_neq by congruence. split.
      * intros Hin. apply H1. right. assumption.
      * intros Hc Hn. apply H2; [assumption|].
        intros [Heq|Hin]; [inversion Heq; congruence|auto].
    + rewrite get_step_grid_neq by congruence. split.
      * intros Hin. apply H1. right. assumption.
      * intros Hc Hn. apply H2; [assumption|].
        intros [Heq|Hin]; [inversion Heq; congruence|auto].
  - split; [apply NoDup_coords|]. intros a b. split; [reflexivity|].
    intros Hc Hn. contradiction.
  - contradiction.
  - apply H; [apply in_coords; split; assumption | intros []].
Qed.




(** ** Rejection of malformed input *)

Lemma text_position_row (row_end : ascii -> bool) (pre : list ascii) :
  forall row col, (row <= fst (text_position row_end pre row col))%nat.
Proof.
  induction pre as [|c pre IH]; intros row col; simpl; [lia|].
  destruct (row_end c).
  - specialize (IH (S row) 0%nat). lia.
  - apply IH.
Qed.

(** What [read_rows] does with the result of the row being read. *)
Lemma read_rows_succ (n : nat) (input : list ascii) (g : grid) (i : nat) :
  read_rows (S n) input g i =
  match read_row input g i 0 with
  | RowEnd g' rest => read_rows n rest g' (S i)
  | RowBad g' => (0, g')
  end.
Proof. reflexivity. Qed.

Lemma read_row_rejects (c : ascii) (post pre : list ascii) :
  is_grid_char c = false -> Ascii.eqb c NUL = false ->
  forall (n : nat) (g : grid) (i j row : nat),
    (fst (text_position is_newline_or_nul pre row j) <= row + n)%nat ->
    (snd (text_position is_newline_or_nul pre row j) < COLS)%nat ->
    exists g',
      match read_row (pre ++ c :: post) g i j with
      | RowEnd g1 rest => read_rows n rest g1 (S i)
      | RowBad g1 => (0, g1)
      end = (0, g').
Proof.
  intros Hbad Hnul. unfold is_grid_char in Hbad.
  rewrite !orb_false_iff in Hbad. destruct Hbad as [[[Hd Hsp] Hhy] Hnl].
  induction pre as [|x pre IH]; intros n g i j row Hrow Hcol.
  - simpl in Hcol. simpl app. rewrite read_row_cons.
    rewrite Hnul, Hnl, Hsp, Hhy, Hd. cbn [orb].
    apply Nat.leb_gt in Hcol. rewrite Hcol. exists g. reflexivity.
  - simpl app. rewrite read_row_cons. simpl in Hrow, Hcol.
    unfold is_newline_or_nul in Hrow, Hcol.
    destruct (Ascii.eqb x NUL) eqn:Hx0; [|destruct (Ascii.eqb x NL) eqn:Hx1];
      cbn [orb] in Hrow, Hcol.
    + pose proof (text_position_row is_newline_or_nul pre (S row) 0) as Hmono.
      fold is_newline_or_nul in Hrow, Hcol.
      destruct n as [|n]; [lia|]. rewrite read_rows_succ.
      apply (IH n g (S i) 0%nat (S row)); [lia | assumption].
    + pose proof (text_position_row is_newline_or_nul pre (S row) 0) as Hmono.
      fold is_newline_or_nul in Hrow, Hcol.
      destruct n as [|n]; [lia|]. rewrite read_rows_succ.
      apply (IH n g (S i) 0%nat (S row)); [lia | assumption].
    + fold is_newline_or_nul in Hrow, Hcol.
      destruct (Ascii.eqb x " " || Ascii.eqb x "-" || (COLS <=? j)%nat).
      * apply (IH n g i (S j) row); assumption.
      * destruct (is_digit x).
        -- apply (IH n _ i (S j) row); assumption.
        -- exists g. reflexivity.
Qed.

(** C9, as amended.  [read_grid] ends a row at a newline and also at a NUL
    character.  With rows delimited that way, if some cell position (column
    below 9) of one of the 9 rows holds a character other than a digit
    1..9, a space, a hyphen, a newline or NUL, then [read_grid] returns
    failure (0). *)
Theorem read_grid_rejects (pre post : list ascii) (c : ascii) (g : grid)
    (i j : nat) :
  text_position is_newline_or_nul pre 0 0 = (i, j) ->
  (i < ROWS)%nat -> (j < COLS)%nat ->
  is_grid_char c = false -> Ascii.eqb c NUL = false ->
  exists g', read_grid (pre ++ c :: post) g = (0, g').
Proof.
  intros Hpos Hi Hj Hbad Hnul. unfold read_grid.
  change ROWS with 9%nat in *. rewrite read_rows_succ.
  apply (read_row_rejects c post pre Hbad Hnul 8 g 0%nat 0%nat 0%nat);
    rewrite Hpos; simpl; unfold COLS in *; lia.
Qed.

(** C9 as stated fails: a NUL character in the first cell position of the
    first row (rows delimited by newlines) is none of the characters
    allowed, and yet the text is accepted: the NUL ends the row. *)
Lemma read_grid_accepts_nul :
  text_position is_newline [] 0 0 = (0%nat, 0%nat)
  /\ is_grid_char NUL = false
  /\ read_grid ([] ++ NUL :: repeat NL 8) (grid_zero wg_local)
     = (1, grid_zero wg_local).
Proof. repeat split; vm_compute; reflexivity. Qed.

(** A text with an [x] in the third cell of the first row is rejected. *)
Lemma read_grid_rejects_witness :
  exists g', read_grid (list_ascii_of_string "12" ++ "x"%char :: list_ascii_of_string "4")
               (grid_zero wg_local) = (0, g').
Proof.
  apply (read_grid_rejects (list_ascii_of_string "12") (list_ascii_of_string "4")
           "x"%char (grid_zero wg_local) 0 2);
    solve [reflexivity | vm_compute; lia].
Defined.

(** ** The default answer of [choose_target_cell] *)


Lemma choose_loop_first (g : grid) (ps : list (nat * nat)) :
  forall (t : Z) (tr tc : nat),
    let rc := choose_loop g ps t tr tc in
    (rc = (tr, tc)
     /\ forall i j, In (i, j) ps -> flagged (get_cell g i j) = false ->
          t <= count_poss (get_cell g i j))
    \/ (exists l1 l2,
          ps = l1 ++ rc :: l2
          /\ flagged (get_cell g (fst rc) (snd rc)) = false
          /\ count_poss (get_cell g (fst rc) (snd rc)) < t
          /\ (forall i j, In (i, j) l1 -> flagged (get_cell g i j) = false ->
                count_poss (get_cell g (fst rc) (snd rc))
                < count_poss (get_cell g i j))
          /\ (forall i j, In (i, j) l2 -> flagged (get_cell g i j) = false ->
                count_poss (get_cell g (fst rc) (snd rc))
                <= count_poss (get_cell g i j))).
Proof.
  induction ps as [|[i j] ps IH]; intros t tr tc; cbv zeta.
  - left. split; [reflexivity | intros i j []].
  - cbn [choose_loop]. destruct (flagged (get_cell g i j)) eqn:Hf.
    + destruct (IH t tr tc) as [[Hrc Hall]|(l1 & l2 & Hps & H1 & H2 & H3 & H4)];
        cbv zeta in *.
      * left. split; [assumption|].
        intros a b [Heq|Hin] Hfa; [inversion Heq; subst; congruence | auto].
      * right. exists ((i, j) :: l1), l2. split; [rewrite Hps at 1; reflexivity|].
        repeat split; try assumption.
        intros a b [Heq|Hin] Hfa; [inversion Heq; subst; congruence | auto].
    + destruct (Z.ltb_spec (count_poss (get_cell g i j)) t) as [Hlt|Hge].
      * destruct (IH (count_poss (get_cell g i j)) i j)
          as [[Hrc Hall]|(l1 & l2 & Hps & H1 & H2 & H3 & H4)]; cbv zeta in *.
        -- right. exists [], ps. rewrite Hrc. cbn [fst snd app].
           repeat split; try assumption. intros a b [].
        -- right. exists ((i, j) :: l1), l2.
           split; [rewrite Hps at 1; reflexivity|].
           repeat split; try assumption; [lia|].
           intros a b [Heq|Hin] Hfa; [inversion Heq; subst; assumption | auto].
      * destruct (IH t tr tc) as [[Hrc Hall]|(l1 & l2 & Hps & H1 & H2 & H3 & H4)];
          cbv zeta in *.
        -- left. split; [assumption|].
           intros a b [Heq|Hin] Hfa; [inversion Heq; subst; assumption | auto].
        -- right. exists ((i, j) :: l1), l2.
           split; [rewrite Hps at 1; reflexivity|].
           repeat split; try assumption.
           intros a b [Heq|Hin] Hfa; [inversion Heq; subst; lia | auto].
Qed.

Lemma scanned_beforeb_spec (p q : nat * nat) :
  scanned_beforeb p q = true <-> scanned_before (fst p) (snd p) (fst q) (snd q).
Proof.
  unfold scanned_beforeb, scanned_before.
  rewrite orb_true_iff, andb_true_iff, !Nat.ltb_lt, Nat.eqb_eq. tauto.
Qed.

Lemma scan_sorted_split (l l1 l2 : list (nat * nat)) (p q : nat * nat) :
  scan_sorted l = true -> l = l1 ++ p :: l2 -> In q l ->
  scanned_before (fst q) (snd q) (fst p) (snd p) -> In q l1.
Proof.
  revert l1; induction l as [|x l IH]; intros l1 Hs Hsplit Hq Hbefore;
    [contradiction|].
  simpl in Hs. apply andb_true_iff in Hs. destruct Hs as [Hx Hs].
  rewrite forallb_forall in Hx.
  destruct l1 as [|y l1]; simpl in Hsplit; inversion Hsplit; subst.
  - exfalso. destruct Hq as [->|Hq].
    + unfold scanned_before in Hbefore. lia.
    + apply Hx, scanned_beforeb_spec in Hq. unfold scanned_before in *. lia.
  - destruct Hq as [->|Hq]; [left; reflexivity | right].
    apply (IH l1); auto.
Qed.

(** The scan of [choose_target_cell] on any grid: the default answer, or
    the first unflagged cell with the least number of candidates. *)
Lemma choose_target_scan (g : grid) :
  let tr := fst (choose_target_cell g) in
  let tc := snd (choose_target_cell g) in
  (choose_target_cell g = (0%nat, 0%nat)
   /\ forall i j, (i < ROWS)%nat -> (j < COLS)%nat ->
        flagged (get_cell g i j) = false -> 9 <= count_poss (get_cell g i j))
  \/ ((tr < ROWS)%nat /\ (tc < COLS)%nat
      /\ flagged (get_cell g tr tc) = false
      /\ count_poss (get_cell g tr tc) < 9
      /\ forall i j, (i < ROWS)%nat -> (j < COLS)%nat ->
           flagged (get_cell g i j) = false ->
           count_poss (get_cell g tr tc) <= count_poss (get_cell g i j)
           /\ (scanned_before i j tr tc ->
               count_poss (get_cell g tr tc) < count_poss (get_cell g i j))).
Proof.
  cbv zeta. unfold choose_target_cell, MAX_VAL.
  destruct (choose_loop_first g coords 9 0%nat 0%nat)
    as [[Hrc Hall]|(l1 & l2 & Hps & H1 & H2 & H3 & H4)]; cbv zeta in *.
  - left. split; [assumption|]. intros i j Hi Hj. apply Hall.
    apply in_coords. split; assumption.
  - right. set (rc := choose_loop g coords 9 0%nat 0%nat) in *.
    assert (Hin : In rc coords) by (rewrite Hps; apply in_elt).
    destruct rc as [tr tc] eqn:Erc. cbn [fst snd] in *.
    apply in_coords in Hin. destruct Hin as [Htr Htc].
    repeat split; try assumption.
    + assert (Hij : In (i, j) coords) by (apply in_coords; split; assumption).
      rewrite Hps in Hij. apply in_app_or in Hij.
      destruct Hij as [Hij|[Heq|Hij]].
      * apply Z.lt_le_incl. apply H3; assumption.
      * inversion Heq; subst. lia.
      * apply H4; assumption.
    + intros Hbefore. apply H3; [|assumption].
      apply (scan_sorted_split coords l1 l2 (tr, tc) (i, j));
        [vm_compute; reflexivity | assumption | apply in_coords; split; assumption
        | assumption].
Qed.




(** ** The encoding on the examples of the source *)

(** [0b1000010000]: 9 and 4 are possible, the cell is unsolved;
    [0b0000001001]: the cell is solved with the solution 3. *)
Example encoding_examples :
  flagged 528 = false /\ count_poss 528 = 2
  /\ candidate 528 9 = true /\ candidate 528 4 = true /\ get_value 528 = 0
  /\ flagged 9 = true /\ get_value 9 = 3 /\ set_value 3 = 9
  /\ count_poss O_CELL = 9 /\ mark_if_solved 16 = 17 /\ mark_if_solved 528 = 528.
Proof. repeat split. Qed.

(** The solver on [example_text], and on the grid without clues. *)
Example try_example :
  read_grid example_text (grid_zero wg_local) = (1, example_grid)
  /\ try 82 example_grid (grid_zero wg_local) = Some (1, example_solution)
  /\ snd (reduce_grid clash_grid) = -1.
Proof. repeat split; vm_compute; reflexivity. Qed.

(** Source (0, 0) solved with 1, its peer (0, 1) unsolved with 1 as its only
    candidate, its peer (0, 2) solved with 1: [reduce] passes over (0, 1),
    whose bits are all cleared by the mask, and fails at (0, 2), which is
    left with only the flag. *)
Example reduce_example :
  let g := set_cell (set_cell one_clue_grid 0 1 2) 0 2 (set_value 1) in
  snd (reduce (set_cell one_clue_grid 0 1 2) 0 0) = 19
  /\ get_cell (fst (reduce (set_cell one_clue_grid 0 1 2) 0 0)) 0 1 = 2
  /\ snd (reduce g 0 0) = -1
  /\ get_cell (fst (reduce g 0 0)) 0 1 = 2
  /\ get_cell (fst (reduce g 0 0)) 0 2 = 1.
Proof. repeat split; vm_compute; reflexivity. Qed.

(** A text that ends without a newline: at the end of the input
    [read_grid] returns 0, after nine cells of the row as well as before. *)
Example read_grid_example :
  fst (read_grid (list_ascii_of_string "123456789") (grid_zero wg_local)) = 0
  /\ fst (read_grid (list_ascii_of_string "12345678") (grid_zero wg_local)) = 0.
Proof. split; vm_compute; reflexivity. Qed.

(** ** The theorems at concrete grids *)

(** The solution found for [example_text] is a valid solution. *)
Lemma try_success_valid_witness :
  grid_ok example_solution = true /\ valid_solution example_solution.
Proof.
  apply (try_success_valid 82 example_grid (grid_zero wg_local) example_solution);
    vm_compute; reflexivity.
Defined.

(** [try] fails on [clash_grid] at once and leaves the output grid alone. *)
Lemma try_rejects_clash_witness :
  try 1 clash_grid (grid_zero wg_local) = Some (0, grid_zero wg_local).
Proof.
  apply (try_rejects_clash 0 clash_grid (grid_zero wg_local) 0 0 0 7);
    solve [reflexivity | unfold ROWS, COLS; lia].
Defined.

(** The clue in the top left corner of [example_grid] is in the solution. *)
Lemma try_preserves_clues_witness :
  flagged (get_cell example_solution 0 0) = true
  /\ get_value (get_cell example_solution 0 0) = get_value (get_cell example_grid 0 0)
  /\ get_cell example_solution 0 0 = get_cell example_grid 0 0.
Proof.
  apply (try_preserves_clues 82 example_grid (grid_zero wg_local) example_solution 0 0);
    vm_compute; reflexivity.
Defined.


(** [try] returns on [example_grid], which has 51 unsolved cells. *)
Lemma try_terminates_witness :
  exists ret og',
    try 82 example_grid (grid_zero wg_local) = Some (ret, og')
    /\ (ret = 0 \/ ret = 1).
Proof.
  apply (try_terminates example_grid (grid_zero wg_local) 82);
    solve [reflexivity | vm_compute; lia].
Defined.

(** The counter on the open grid and after a pass over [example_grid]. *)
Lemma counter_invariant_witness :
  counter_ok (grid_zero wg_local) = true
  /\ (snd (reduce_grid example_grid) <> -1 ->
      counter_ok (fst (reduce_grid example_grid)) = true
      /\ grid_ok (fst (reduce_grid example_grid)) = true).
Proof.
  destruct (counter_invariant wg_local example_grid) as ((H1 & _) & _ & _ & H4 & _);
    [reflexivity | reflexivity|].
  split; assumption.
Defined.


(** The target chosen on [one_clue_fixpoint] is unsolved. *)
Lemma branch_target_unsolved_witness :
  flagged (get_cell one_clue_fixpoint (fst (choose_target_cell one_clue_fixpoint))
             (snd (choose_target_cell one_clue_fixpoint))) = false.
Proof.
  apply (branch_target_unsolved one_clue_fixpoint);
    solve [reflexivity | vm_compute; reflexivity].
Defined.

(** * Further properties of the code *)

(** ** Encoding and decoding of cells *)

(** X1. [get_value] decodes what [set_value] encodes: for a digit [v] in
    1..9 the cell [set_value v] is flagged, has [v] as its only candidate,
    and [get_value] returns [v]. *)
Theorem set_value_get_value (v : Z) :
  1 <= v <= 9 ->
  get_value (set_value v) = v
  /\ flagged (set_value v) = true
  /\ count_poss (set_value v) = 1
  /\ forall k, 1 <= k <= 9 -> candidate (set_value v) k = (v =? k).
Proof.
  intros Hv. destruct (set_value_facts v Hv) as (H1 & _ & H2 & _).
  split; [assumption|]. split; [apply flagged_set_value; lia|].
  split; [assumption|]. intros k Hk. apply candidate_set_value; lia.
Qed.

Lemma set_value_get_value_witness :
  get_value (set_value 3) = 3 /\ flagged (set_value 3) = true
  /\ count_poss (set_value 3) = 1
  /\ forall k, 1 <= k <= 9 -> candidate (set_value 3) k = (3 =? k).
Proof. apply (set_value_get_value 3). lia. Defined.

(** X2. [set_value] rebuilds a solved cell from its value: a cell of the
    data model with the solved flag holds a value in 1..9 and is exactly
    the encoding of that value. *)
Theorem get_value_set_value (c : Z) :
  cell_ok c = true -> flagged c = true ->
  1 <= get_value c <= 9 /\ set_value (get_value c) = c.
Proof.
  intros Hok Hf. destruct (cell_ok_solved c Hok Hf) as (v & Hv & ->).
  destruct (set_value_facts v Hv) as (_ & _ & -> & _). auto.
Qed.

Lemma get_value_set_value_witness :
  1 <= get_value 9 <= 9 /\ set_value (get_value 9) = 9.
Proof. apply (get_value_set_value 9); reflexivity. Defined.

Lemma get_value_loop_spec (n : nat) (cell : Z) :
  forall i,
    let r := get_value_loop n i cell in
    i <= r <= i + Z.of_nat n
    /\ (forall k, i <= k < r -> candidate cell k = false)
    /\ (r < i + Z.of_nat n -> candidate cell r = true).
Proof.
  induction n as [|n IH]; intros i; cbv zeta.
  - simpl. repeat split; intros; lia.
  - cbn [get_value_loop]. destruct (candidate cell i) eqn:Hc.
    + repeat split; intros; try lia; assumption.
    + destruct (IH (i + 1)) as (H1 & H2 & H3). cbv zeta in *.
      split; [lia|]. split.
      * intros k Hk. destruct (Z.eq_dec k i) as [->|Hne]; [assumption|].
        apply H2. lia.
      * intros Hlt. apply H3. lia.
Qed.

(** X3. [get_value] on any cell: 0 exactly when the solved flag is not set;
    otherwise the least candidate in 1..9, and 10, which is no digit, when
    the flag is set and no candidate bit is. *)
Theorem get_value_cases (cell : Z) :
  (flagged cell = false -> get_value cell = 0)
  /\ (flagged cell = true ->
      1 <= get_value cell <= 10
      /\ (forall k, 1 <= k < get_value cell -> candidate cell k = false)
      /\ (get_value cell <= 9 -> candidate cell (get_value cell) = true)
      /\ (get_value cell = 10 <-> count_poss cell = 0)).
Proof.
  unfold get_value. split; intros Hf; rewrite Hf; [reflexivity|].
  destruct (get_value_loop_spec 9 cell 1) as (H1 & H2 & H3). cbv zeta in *.
  split; [lia|]. split; [assumption|]. split; [intros H; apply H3; lia|].
  rewrite count_poss_filter. split.
  - intros H10. rewrite filter_none; [reflexivity|].
    intros k Hk. apply in_values in Hk. apply H2. lia.
  - intros Hzero.
    destruct (Z.eq_dec (get_value_loop 9 1 cell) 10) as [|Hne]; [assumption|].
    assert (Hc : candidate cell (get_value_loop 9 1 cell) = true)
      by (apply H3; lia).
    assert (Hin : In (get_value_loop 9 1 cell) (filter (candidate cell) values)).
    { apply filter_In. split; [apply in_values; lia | assumption]. }
    destruct (filter (candidate cell) values); [contradiction | discriminate].
Qed.

(** X4. [mark_if_solved] only ever adds the solved flag: it keeps every
    other bit, the flag is set afterwards exactly when it was set before or
    the cell has exactly one candidate, and applying it twice is the same
    as applying it once. *)
Theorem mark_if_solved_flag (cell : Z) :
  (forall k, 1 <= k -> Z.testbit (mark_if_solved cell) k = Z.testbit cell k)
  /\ flagged (mark_if_solved cell) = flagged cell || (count_poss cell =? 1)
  /\ count_poss (mark_if_solved cell) = count_poss cell
  /\ mark_if_solved (mark_if_solved cell) = mark_if_solved cell.
Proof.
  split; [|split; [apply flagged_mark | split; [apply count_poss_mark|]]].
  - intros k Hk. rewrite <- !candidate_testbit by lia. apply candidate_mark.
    assumption.
  - unfold mark_if_solved at 1. rewrite count_poss_mark.
    destruct (mark_if_solved_cases cell) as [[Hc ->]|[Hc ->]].
    + rewrite Hc. simpl. rewrite <- Z.lor_assoc, Z.lor_diag. reflexivity.
    + apply Z.eqb_neq in Hc. rewrite Hc. reflexivity.
Qed.

(** ** Initialisation and copy *)

(** X5. [copy_grid] makes an exact copy: whatever the destination held, it
    holds afterwards the cells and the counter of the source. *)
Theorem copy_grid_exact (sg dg : grid) :
  wf_grid sg = true -> wf_grid dg = true ->
  copy_grid sg dg = sg
  /\ (forall i j, get_cell (copy_grid sg dg) i j = get_cell sg i j)
  /\ solved_counter (copy_grid sg dg) = solved_counter sg.
Proof.
  intros Hs Hd. rewrite (copy_grid_eq sg dg Hs Hd). auto.
Qed.

Lemma copy_grid_exact_witness :
  copy_grid example_grid example_solution = example_grid
  /\ (forall i j, get_cell (copy_grid example_grid example_solution) i j
                  = get_cell example_grid i j)
  /\ solved_counter (copy_grid example_grid example_solution)
     = solved_counter example_grid.
Proof. apply (copy_grid_exact example_grid example_solution); reflexivity. Defined.

(** X6. [grid_zero] forgets what the grid held: the result is the grid with
    all nine candidates in every cell and counter 0, in which no cell is
    solved. *)
Theorem grid_zero_open (g : grid) :
  wf_grid g = true ->
  grid_zero g = mkGrid (repeat (repeat O_CELL COLS) ROWS) 0
  /\ (forall i j, (i < ROWS)%nat -> (j < COLS)%nat ->
        get_cell (grid_zero g) i j = O_CELL
        /\ get_value (get_cell (grid_zero g) i j) = 0
        /\ count_poss (get_cell (grid_zero g) i j) = 9)
  /\ count_solved (grid_zero g) = 0%nat.
Proof.
  intros Hwf.
  assert (Heq : grid_zero g = mkGrid (repeat (repeat O_CELL COLS) ROWS) 0).
  { apply grid_ext.
    - rewrite grid_zero_wf. assumption.
    - reflexivity.
    - intros i j Hi Hj. rewrite grid_zero_get by assumption.
      pose proof (forallb_forall
                    (fun ij => get_cell (mkGrid (repeat (repeat O_CELL COLS) ROWS) 0)
                                 (fst ij) (snd ij) =? O_CELL) coords) as [Hall _].
      specialize (Hall eq_refl (i, j)). symmetry. apply Z.eqb_eq, Hall.
      apply in_coords. split; assumption.
    - reflexivity. }
  split; [assumption|]. split.
  - intros i j Hi Hj. rewrite grid_zero_get by assumption.
    repeat split; reflexivity.
  - rewrite Heq. reflexivity.
Qed.

Lemma grid_zero_open_witness :
  grid_zero example_solution = mkGrid (repeat (repeat O_CELL COLS) ROWS) 0.
Proof. apply (grid_zero_open example_solution). reflexivity. Defined.

(** ** What [reduce] touches *)

(** X7. [reduce] never writes outside the peers of the source: the source
    cell itself and every cell that shares neither row, column nor region
    with it are left as they were, also when the function fails. *)
Theorem reduce_frame (g : grid) (row column i j : nat) :
  is_peer row column i j = false ->
  get_cell (fst (reduce g row column)) i j = get_cell g i j.
Proof.
  intros Hnp. destruct (flagged (get_cell g row column)) eqn:Hf;
    [|rewrite reduce_unsolved by assumption; reflexivity].
  rewrite reduce_solved by assumption.
  destruct (reduce_loop_rule row column (mask_of (get_cell g row column))
              (fun _ g' _ => get_cell g' i j = get_cell g i j)
              (fun g' => get_cell g' i j = get_cell g i j))
    with (ps := coords) (g := g) (changed := 0) as [[_ H]|H]; auto.
  intros a b ps g' ch HI Ht. cbv zeta.
  assert (Hne : (a, b) <> (i, j)).
  { intros Heq. inversion Heq; subst. unfold touched in Ht.
    rewrite Hnp in Ht. discriminate. }
  destruct (_ || _); rewrite get_step_grid_neq by assumption; assumption.
Qed.

Lemma reduce_frame_witness :
  get_cell (fst (reduce example_grid 0 0)) 4 4 = get_cell example_grid 4 4.
Proof. apply (reduce_frame example_grid 0 0 4 4). reflexivity. Defined.

Lemma peers_count (row column : nat) :
  (row < ROWS)%nat -> (column < COLS)%nat ->
  length (filter (fun ij => is_peer row column (fst ij) (snd ij)) coords) = 20%nat.
Proof.
  intros Hr Hc.
  pose proof (forallb_forall
                (fun rc => (length (filter (fun ij => is_peer (fst rc) (snd rc)
                                                        (fst ij) (snd ij)) coords)
                            =? 20)%nat) coords) as [Hall _].
  specialize (Hall ltac:(vm_compute; reflexivity) (row, column)).
  apply Nat.eqb_eq, Hall. apply in_coords. split; assumption.
Qed.

Lemma reduce_loop_counter (row column : nat) (mask : Z) (ps : list (nat * nat))
    (g : grid) (changed : Z) :
  let res := reduce_loop row column mask ps g changed in
  snd res = -1
  \/ solved_counter (fst res) - solved_counter g <= snd res - changed.
Proof.
  cbv zeta.
  destruct (reduce_loop_rule row column mask
              (fun _ g' c' => solved_counter g' - solved_counter g <= c' - changed)
              (fun _ => True))
    with (ps := ps) (g := g) (changed := changed) as [[H _]|H]; auto.
  - intros i j ps' g' c' HI Ht. cbv zeta.
    destruct (_ || _); [exact I|]. rewrite counter_step_grid.
    destruct (new_cell mask (get_cell g' i j) =? get_cell g' i j); simpl; [lia|].
    destruct (flagged _); lia.
  - lia.
Qed.

(** The returned count and the growth of the counter are bounded by the
    number of peers. *)
Lemma reduce_count_bounds (g : grid) (row column : nat) :
  (row < ROWS)%nat -> (column < COLS)%nat ->
  snd (reduce g row column) = -1
  \/ (0 <= snd (reduce g row column) <= 20
      /\ solved_counter g <= solved_counter (fst (reduce g row column))
         <= solved_counter g + snd (reduce g row column)).
Proof.
  intros Hr Hc.
  destruct (reduce_tightens g row column) as [_ Hmono].
  destruct (flagged (get_cell g row column)) eqn:Hf;
    [|rewrite reduce_unsolved in * by assumption; right; simpl; lia].
  rewrite reduce_solved in * by assumption.
  destruct (reduce_loop_contract g row column (get_cell g row column))
    as [[Hret _]|[Hret _]]; cbv zeta in *; [left; assumption|].
  destruct (reduce_loop_counter row column (mask_of (get_cell g row column))
              coords g 0) as [Hm|Hcnt]; cbv zeta in *; [left; assumption|].
  right. rewrite Hret in *. unfold modified_peers in *.
  pose proof (peers_count row column Hr Hc) as Hp.
  pose proof (filter_length_mono
                (fun ij => is_peer row column (fst ij) (snd ij)
                           && negb (get_cell
                                      (fst (reduce_loop row column
                                              (mask_of (get_cell g row column))
                                              coords g 0)) (fst ij) (snd ij)
                                    =? get_cell g (fst ij) (snd ij)))
                (fun ij => is_peer row column (fst ij) (snd ij)) coords) as Hle.
  assert (Hle' := Hle ltac:(intros x _ Hx; apply andb_true_iff in Hx; tauto)).
  lia.
Qed.

(** X8. The value [reduce] returns is [-1] or a count between 0 and 20, the
    number of peers of a cell; when it is a count, [solved_counter] has
    grown by no more than that count. *)
Theorem reduce_bounds (g : grid) (row column : nat) :
  (row < ROWS)%nat -> (column < COLS)%nat ->
  snd (reduce g row column) = -1
  \/ (0 <= snd (reduce g row column) <= 20
      /\ solved_counter g <= solved_counter (fst (reduce g row column))
         <= solved_counter g + snd (reduce g row column)).
Proof. apply reduce_count_bounds. Qed.

Lemma reduce_bounds_witness :
  snd (reduce example_grid 0 0) = -1
  \/ (0 <= snd (reduce example_grid 0 0) <= 20
      /\ solved_counter example_grid
         <= solved_counter (fst (reduce example_grid 0 0))
         <= solved_counter example_grid + snd (reduce example_grid 0 0)).
Proof. apply (reduce_bounds example_grid 0 0); unfold ROWS, COLS; lia. Defined.

(** X9. When [reduce] does not fail on a solved source, every cell in its
    final state is known: a peer some bit of which survives the mask holds
    [mark_if_solved] of its masked value, every other cell holds what it
    held.  A peer with no bit outside the candidates of the source (in
    particular an unsolved peer whose only candidate is the source's value)
    is passed over. *)
Theorem reduce_cells (g : grid) (row column i j : nat) :
  flagged (get_cell g row column) = true ->
  snd (reduce g row column) <> -1 ->
  (i < ROWS)%nat -> (j < COLS)%nat ->
  let mask := Z.lnot (Z.land (get_cell g row column) O_CELL) in
  get_cell (fst (reduce g row column)) i j =
  if is_peer row column i j && negb (Z.land (get_cell g i j) mask =? 0)
  then mark_if_solved (Z.land (get_cell g i j) mask)
  else get_cell g i j.
Proof. apply reduce_cells_after. Qed.

Lemma reduce_cells_witness :
  get_cell (fst (reduce example_grid 0 0)) 0 2 =
  if is_peer 0 0 0 2
     && negb (Z.land (get_cell example_grid 0 2)
                (Z.lnot (Z.land (get_cell example_grid 0 0) O_CELL)) =? 0)
  then mark_if_solved (Z.land (get_cell example_grid 0 2)
                         (Z.lnot (Z.land (get_cell example_grid 0 0) O_CELL)))
  else get_cell example_grid 0 2.
Proof.
  apply (reduce_cells example_grid 0 0 0 2);
    solve [reflexivity | vm_compute; congruence | unfold ROWS, COLS; lia].
Defined.

(** ** Passes over the grid *)

(** X10. A pass that reports no change has changed nothing: when [reduce]
    or [reduce_grid] returns 0 the grid, counter included, is the one it was
    given, and a further pass returns 0 again. *)
Theorem reduce_grid_idle (g g' : grid) :
  reduce_grid g = (g', 0) ->
  g' = g /\ reduce_grid g' = (g', 0)
  /\ forall i j, (i < ROWS)%nat -> (j < COLS)%nat -> reduce g i j = (g, 0).
Proof.
  intros H. destruct (reduce_grid_still g g' H) as [-> Hall]. auto.
Qed.

Lemma reduce_grid_idle_witness :
  one_clue_fixpoint = one_clue_fixpoint
  /\ reduce_grid one_clue_fixpoint = (one_clue_fixpoint, 0)
  /\ forall i j, (i < ROWS)%nat -> (j < COLS)%nat ->
       reduce one_clue_fixpoint i j = (one_clue_fixpoint, 0).
Proof.
  apply (reduce_grid_idle one_clue_fixpoint one_clue_fixpoint).
  vm_compute. reflexivity.
Defined.

Lemma reduce_grid_loop_bounds (ps : list (nat * nat)) :
  (forall i j, In (i, j) ps -> (i < ROWS)%nat /\ (j < COLS)%nat) ->
  forall g n,
    snd (reduce_grid_loop ps g n) = -1
    \/ (n <= snd (reduce_grid_loop ps g n) <= n + 20 * Z.of_nat (length ps)
        /\ solved_counter g <= solved_counter (fst (reduce_grid_loop ps g n))
           <= solved_counter g + (snd (reduce_grid_loop ps g n) - n)).
Proof.
  induction ps as [|[i j] ps IH]; intros Hin g n.
  - right. simpl. lia.
  - cbn [reduce_grid_loop].
    destruct (Hin i j (or_introl eq_refl)) as [Hi Hj].
    pose proof (reduce_count_bounds g i j Hi Hj) as Hb.
    destruct (reduce g i j) as [g1 r]. simpl in Hb.
    destruct (Z.eqb_spec r (-1)) as [Hm|Hm]; [left; reflexivity|].
    destruct Hb as [Hb|[Hr Hc]]; [contradiction|].
    destruct (IH (fun a b H => Hin a b (or_intror H)) g1 (n + r)) as [H|[H1 H2]];
      [left; assumption | right].
    cbn [length]. split; lia.
Qed.

(** X11. The value [reduce_grid] returns is [-1] or a count between 0 and
    81 * 20 = 1620; when it is a count, [solved_counter] has grown by no
    more than that count. *)
Theorem reduce_grid_bounds (g : grid) :
  snd (reduce_grid g) = -1
  \/ (0 <= snd (reduce_grid g) <= 1620
      /\ solved_counter g <= solved_counter (fst (reduce_grid g))
         <= solved_counter g + snd (reduce_grid g)).
Proof.
  unfold reduce_grid.
  destruct (reduce_grid_loop_bounds coords) with (g := g) (n := 0)
    as [H|[H1 H2]]; [intros i j; apply in_coords | left; assumption | right].
  rewrite length_coords in H1. split; lia.
Qed.

(** ** Outcomes of the search *)

(** X12. [try] returns 0 or 1, and a call that returns 0 has written
    nothing: the output grid is exactly the one the caller supplied, also
    after failed guesses. *)
Theorem try_failure_silent (depth : nat) (ig og : grid) (ret : Z) (og' : grid) :
  wf_grid ig = true -> wf_grid og = true ->
  try depth ig og = Some (ret, og') ->
  (ret = 0 \/ ret = 1) /\ (ret = 0 -> og' = og).
Proof.
  intros Hwf Hog H.
  destruct (try_rule (fun _ _ => True) (fun _ _ _ _ _ _ _ => I)
              (fun _ _ _ _ _ _ _ _ _ _ _ _ => I) depth ig og ret og' Hwf Hog H)
    as [[-> ->]|[-> _]].
  - auto.
  - split; [auto | intros; lia].
Qed.

Lemma try_failure_silent_witness :
  try 1 clash_grid (grid_zero wg_local) = Some (0, grid_zero wg_local)
  /\ (0 = 0 \/ 0 = 1) /\ (0 = 0 -> grid_zero wg_local = grid_zero wg_local).
Proof.
  split; [vm_compute; reflexivity|].
  apply (try_failure_silent 1 clash_grid (grid_zero wg_local) 0 (grid_zero wg_local));
    vm_compute; reflexivity.
Defined.

Lemma try_narrow (depth : nat) (ig og : grid) (ret : Z) (og' : grid) :
  wf_grid ig = true -> wf_grid og = true ->
  try depth ig og = Some (ret, og') ->
  (ret = 0 /\ og' = og)
  \/ (ret = 1 /\ forall i j k, 1 <= k <= 9 ->
                   candidate (get_cell og' i j) k = true ->
                   candidate (get_cell ig i j) k = true).
Proof.
  apply (try_rule (fun ig res => forall i j k, 1 <= k <= 9 ->
                     candidate (get_cell res i j) k = true ->
                     candidate (get_cell ig i j) k = true)).
  - intros g wg r _ Hred _ _. apply (reduce_until_tightens _ _ _ _ Hred).
  - intros g wg r k res _ Hred _ _ Hk Hcand Hres i j k' Hk' Hc.
    destruct (reduce_until_tightens _ _ _ _ Hred) as [Hsub _].
    apply Hsub; [assumption|]. specialize (Hres i j k' Hk' Hc).
    destruct (get_set_cases (incr_solved wg) (fst (choose_target_cell wg))
                (snd (choose_target_cell wg)) i j (set_value k))
      as [Heq|[Hpos Heq]]; rewrite Heq in Hres.
    + unfold incr_solved in Hres. rewrite get_cell_recounter in Hres. assumption.
    + inversion Hpos; subst. rewrite candidate_set_value in Hres by lia.
      apply Z.eqb_eq in Hres. subst k'. assumption.
Qed.

(** X13. A successful [try] only narrows its input: every candidate bit
    1..9 of a cell of the output grid is a candidate bit of the same cell
    of the input grid, so each digit of the solution was still possible in
    the grid [try] was given. *)
Theorem try_output_narrows (depth : nat) (ig og og' : grid) (a b : nat)
    (k : Z) :
  wf_grid ig = true -> wf_grid og = true ->
  try depth ig og = Some (1, og') ->
  1 <= k <= 9 -> candidate (get_cell og' a b) k = true ->
  candidate (get_cell ig a b) k = true.
Proof.
  intros Hwf Hog H Hk Hc.
  destruct (try_narrow depth ig og 1 og' Hwf Hog H) as [[H0 _]|[_ Hn]];
    [discriminate|].
  apply (Hn a b k); assumption.
Qed.

Lemma try_output_narrows_witness :
  candidate (get_cell example_grid 0 2) 4 = true.
Proof.
  apply (try_output_narrows 82 example_grid (grid_zero wg_local) example_solution
           0 2 4);
    solve [vm_compute; reflexivity | lia].
Defined.

(** ** Solutions survive propagation *)

Lemma NoDup_map_neq {A B : Type} (f : A -> B) (l : list A) (x y : A) :
  NoDup (map f l) -> In x l -> In y l -> x <> y -> f x <> f y.
Proof.
  induction l as [|a l IH]; intros Hnd Hx Hy Hne; [contradiction|].
  simpl in Hnd. apply NoDup_cons_iff in Hnd. destruct Hnd as [Hnin Hnd].
  destruct Hx as [->|Hx], Hy as [->|Hy].
  - congruence.
  - intros Heq. apply Hnin. rewrite Heq. apply in_map. assumption.
  - intros Heq. apply Hnin. rewrite <- Heq. apply in_map. assumption.
  - apply IH; assumption.
Qed.

Lemma peers_share_unit (r c a b : nat) :
  (r < ROWS)%nat -> (c < COLS)%nat -> (a < ROWS)%nat -> (b < COLS)%nat ->
  is_peer r c a b = true ->
  exists ps, In ps all_units /\ In (r, c) ps /\ In (a, b) ps.
Proof.
  intros Hr Hc Ha Hb Hpeer.
  pose proof (forallb_forall
                (fun p => forallb (fun q => negb (is_peer (fst p) (snd p) (fst q) (snd q))
                                            || share_unit p q) coords) coords)
    as [Hall _].
  specialize (Hall ltac:(vm_compute; reflexivity) (r, c)
                ltac:(apply in_coords; split; assumption)).
  rewrite forallb_forall in Hall.
  specialize (Hall (a, b) ltac:(apply in_coords; split; assumption)).
  cbn [fst snd] in Hall. rewrite Hpeer in Hall. cbn [negb orb] in Hall.
  unfold share_unit in Hall. apply existsb_exists in Hall.
  destruct Hall as (ps & Hin & Hboth). apply andb_true_iff in Hboth.
  destruct Hboth as [H1 H2]. apply existsb_exists in H1, H2.
  destruct H1 as (p & Hp & E1), H2 as (q & Hq & E2).
  apply coord_eqb_eq in E1, E2. subst p q. exists ps. auto.
Qed.

Lemma all_units_cases (ps : list (nat * nat)) :
  In ps all_units ->
  exists u, (u < 9)%nat
            /\ (ps = row_coords u \/ ps = col_coords u \/ ps = region_coords u).
Proof.
  unfold all_units. rewrite !in_app_iff, !in_map_iff.
  intros [(u & <- & Hu)|[(u & <- & Hu)|(u & <- & Hu)]];
    apply in_seq in Hu; exists u; (split; [lia | auto]).
Qed.

Lemma solved_digit (s : grid) (i j : nat) :
  grid_ok s = true -> valid_solution s -> (i < ROWS)%nat -> (j < COLS)%nat ->
  exists v, 1 <= v <= 9 /\ get_cell s i j = set_value v
            /\ get_value (get_cell s i j) = v.
Proof.
  intros Hok [Hflag _] Hi Hj. apply grid_ok_spec in Hok.
  destruct Hok as (_ & Hcells & _).
  destruct (cell_ok_solved _ (Hcells i j Hi Hj) (Hflag i j Hi Hj)) as (v & Hv & Hc).
  exists v. rewrite Hc. destruct (set_value_facts v Hv) as (_ & _ & Hg & _). auto.
Qed.

(** In a solution no two peers show the same digit. *)
Lemma solution_peers_differ (s : grid) (r c a b : nat) :
  grid_ok s = true -> valid_solution s ->
  (r < ROWS)%nat -> (c < COLS)%nat -> (a < ROWS)%nat -> (b < COLS)%nat ->
  is_peer r c a b = true ->
  get_value (get_cell s r c) <> get_value (get_cell s a b).
Proof.
  intros Hok Hvalid Hr Hc Ha Hb Hpeer.
  destruct (peers_share_unit r c a b Hr Hc Ha Hb Hpeer) as (ps & Hin & Hp & Hq).
  assert (Honce : each_digit_once (digits_at s ps)).
  { destruct (all_units_cases ps Hin) as (u & Hu & Hcase).
    destruct Hvalid as [_ Hunits]. destruct (Hunits u Hu) as (H1 & H2 & H3).
    destruct Hcase as [-> | [-> | ->]]; assumption. }
  assert (Hrange : forall d, In d (digits_at s ps) -> 1 <= d <= 9).
  { intros d Hd. apply in_map_iff in Hd.
    destruct Hd as ([i j] & Hval & Hij). cbn [fst snd] in Hval.
    destruct (all_units_cases ps Hin) as (u & Hu & Hcase).
    destruct (units_ok u Hu) as (U1 & U2 & U3).
    assert (Hunit : unit_ok ps = true)
      by (destruct Hcase as [-> | [-> | ->]]; assumption).
    unfold unit_ok in Hunit. rewrite !andb_true_iff in Hunit.
    destruct Hunit as [_ Hpairs]. rewrite forallb_forall in Hpairs.
    specialize (Hpairs _ Hij). rewrite !andb_true_iff, !Nat.ltb_lt in Hpairs.
    cbn [fst snd] in Hpairs.
    destruct (solved_digit s i j Hok Hvalid) as (v & Hv & _ & Hg); [tauto | tauto|].
    lia. }
  assert (Hnd : NoDup (digits_at s ps)).
  { apply (proj2 (NoDup_count_occ Z.eq_dec _)). intros d.
    destruct (in_dec Z.eq_dec d (digits_at s ps)) as [Hd|Hd].
    - rewrite Honce by (apply Hrange; assumption). apply le_n.
    - destruct (count_occ_not_In Z.eq_dec (digits_at s ps) d) as [Hz _].
      rewrite Hz by assumption. lia. }
  apply (NoDup_map_neq (fun ij => get_value (get_cell s (fst ij) (snd ij))) ps
           (r, c) (a, b) Hnd Hp Hq).
  intros Heq. apply (is_peer_neq r c a b Hpeer). congruence.
Qed.

(** One processed peer cannot lose the digit of a solution. *)
Lemma step_keeps_solution (w v c : Z) :
  1 <= w <= 9 -> 1 <= v <= 9 -> v <> w -> candidate c v = true ->
  let cell := new_cell (mask_of (set_value w)) c in
  candidate cell v = true /\ cell <> 0 /\ cell <> 1.
Proof.
  intros Hw Hv Hne Hc cell.
  assert (Hcell : candidate cell v = true).
  { unfold cell, new_cell, mask_of. rewrite candidate_mark by lia.
    rewrite candidate_land_mask by lia. rewrite Hc.
    rewrite candidate_set_value by lia.
    destruct (Z.eqb_spec w v); [congruence | reflexivity]. }
  split; [assumption|]. split; intros Heq; rewrite Heq in Hcell.
  - unfold candidate in Hcell. rewrite Z.land_0_l in Hcell. discriminate.
  - change 1 with (Z.shiftl 1 0) in Hcell.
    rewrite candidate_testbit, shiftl_1_testbit in Hcell by lia.
    apply Z.eqb_eq in Hcell. lia.
Qed.

Lemma reduce_keeps_solution (s g : grid) (row column : nat) :
  grid_ok g = true -> solves s g ->
  snd (reduce g row column) <> -1 /\ fits s (fst (reduce g row column)).
Proof.
  intros Hok (Hsok & Hvalid & Hfits).
  destruct (flagged (get_cell g row column)) eqn:Hf;
    [|rewrite reduce_unsolved by assumption; split; [simpl; lia | assumption]].
  rewrite reduce_solved by assumption.
  destruct (grid_ok_source g row column Hok Hf) as (w & Hw & Hsrc).
  assert (Hwf : wf_grid g = true) by (apply grid_ok_spec in Hok; tauto).
  destruct (get_nonzero_range g row column Hwf (flagged_nonzero _ Hf)) as [Hr Hc].
  destruct (solved_digit s row column Hsok Hvalid Hr Hc) as (w' & Hw' & _ & Hsw).
  assert (w' = w).
  { pose proof (Hfits row column Hr Hc) as H. rewrite Hsrc, Hsw in H.
    rewrite candidate_set_value in H by lia. apply Z.eqb_eq in H. lia. }
  subst w'. rewrite Hsrc.
  destruct (reduce_loop_rule row column (mask_of (set_value w))
              (fun _ g' c' => wf_grid g' = true /\ fits s g' /\ 0 <= c')
              (fun _ => False))
    with (ps := coords) (g := g) (changed := 0) as [[_ []]|(_ & Hfin & Hpos)].
  - intros i j ps g' ch HI _. assumption.
  - intros i j ps g' ch (Hwf' & Hfits' & Hch) Ht. cbv zeta.
    assert (Hnz : get_cell g' i j <> 0) by (eapply touched_nonzero; eassumption).
    destruct (get_nonzero_range g' i j Hwf' Hnz) as [Hi Hj].
    assert (Hpeer : is_peer row column i j = true)
      by (unfold touched in Ht; apply andb_true_iff in Ht; tauto).
    destruct (solved_digit s i j Hsok Hvalid Hi Hj) as (v & Hv & _ & Hsv).
    assert (Hne : v <> w).
    { pose proof (solution_peers_differ s row column i j Hsok Hvalid Hr Hc Hi Hj
                    Hpeer) as Hd. congruence. }
    pose proof (Hfits' i j Hi Hj) as Hcand. rewrite Hsv in Hcand.
    destruct (step_keeps_solution w v (get_cell g' i j) Hw Hv Hne Hcand)
      as (K1 & K2 & K3).
    apply Z.eqb_neq in K2, K3. rewrite K2, K3. cbn [orb].
    split; [rewrite wf_step_grid; assumption|]. split.
    + intros a b Ha Hb.
      destruct (Nat.eq_dec i a) as [<-|Hia]; [destruct (Nat.eq_dec j b) as [<-|Hjb]|].
      * rewrite get_step_grid_eq by assumption. rewrite Hsv. assumption.
      * rewrite get_step_grid_neq by congruence. auto.
      * rewrite get_step_grid_neq by congruence. auto.
    + match goal with |- 0 <= (if ?t then _ else _) => destruct t end; lia.
  - split; [assumption|]. split; [assumption | lia].
  - split; [lia | assumption].
Qed.

Lemma reduce_grid_loop_keeps_solution (s : grid) (ps : list (nat * nat)) :
  forall g n,
    grid_ok g = true -> solves s g -> 0 <= n ->
    n <= snd (reduce_grid_loop ps g n)
    /\ grid_ok (fst (reduce_grid_loop ps g n)) = true
    /\ solves s (fst (reduce_grid_loop ps g n)).
Proof.
  induction ps as [|[i j] ps IH]; intros g n Hok Hs Hn; cbn [reduce_grid_loop].
  - simpl. split; [lia | auto].
  - destruct (reduce_keeps_solution s g i j Hok Hs) as [Hr Hfits].
    pose proof (reduce_ok g i j Hok) as Hgok.
    pose proof (reduce_result g i j) as Hres.
    destruct (reduce g i j) as [g1 r]. simpl in *.
    destruct (Z.eqb_spec r (-1)) as [Hm|Hm]; [contradiction|].
    destruct Hgok as [Hgok|[Hgok _]]; [contradiction|].
    destruct Hres as [Hres|Hres]; [contradiction|].
    destruct Hs as (S1 & S2 & _).
    destruct (IH g1 (n + r) Hgok (conj S1 (conj S2 Hfits))) as (H1 & H2 & H3);
      [lia|].
    split; [lia | auto].
Qed.

Lemma reduce_until_keeps_solution (s : grid) (n : nat) :
  forall g g' r,
    grid_ok g = true -> solves s g ->
    reduce_until n g = Some (g', r) ->
    r <> -1 /\ grid_ok g' = true /\ solves s g'.
Proof.
  induction n as [|n IH]; intros g g' r Hok Hs H; simpl in H; [discriminate|].
  destruct (reduce_grid_loop_keeps_solution s coords g 0 Hok Hs) as (H1 & H2 & H3);
    [lia|].
  fold (reduce_grid g) in H1, H2, H3.
  destruct (reduce_grid g) as [g1 r1]. simpl in *.
  destruct (Z.eqb_spec r1 (-1)) as [Hm|Hm]; [lia|].
  destruct (0 <? r1).
  - apply (IH g1); assumption.
  - inversion H; subst. split; [assumption | auto].
Qed.

Lemma guess_fits (s wg : grid) (tr tc : nat) :
  grid_ok s = true -> valid_solution s -> fits s wg ->
  (tr < ROWS)%nat -> (tc < COLS)%nat ->
  fits s (set_cell (incr_solved wg) tr tc
            (set_value (get_value (get_cell s tr tc)))).
Proof.
  intros Hsok Hvalid Hfits Htr Htc i j Hi Hj.
  destruct (get_set_cases (incr_solved wg) tr tc i j
              (set_value (get_value (get_cell s tr tc)))) as [->|[Heq ->]].
  - unfold incr_solved. rewrite get_cell_recounter. auto.
  - inversion Heq; subst.
    destruct (solved_digit s i j Hsok Hvalid Hi Hj) as (v & Hv & _ & ->).
    rewrite candidate_set_value by lia. apply Z.eqb_refl.
Qed.

(** A call on a grid that has a solution does not return 0. *)
Lemma try_complete (s : grid) (depth : nat) :
  forall g og ret og',
    grid_ok g = true -> wf_grid og = true -> solves s g ->
    try depth g og = Some (ret, og') -> ret = 1.
Proof.
  induction depth as [|depth IH]; intros g og ret og' Hok Hog Hs H;
    [discriminate|].
  assert (Hwf : wf_grid g = true) by (apply grid_ok_spec in Hok; tauto).
  rewrite try_unfold in H by assumption.
  destruct (reduce_until (S (weight g)) g) as [[wg r]|] eqn:Hred; [|discriminate].
  destruct (reduce_until_keeps_solution s _ g wg r Hok Hs Hred)
    as (Hr & Hwok & Hws).
  destruct (Z.eqb_spec r (-1)) as [Hm|_]; [contradiction|].
  destruct (Z.eqb_spec (solved_counter wg) 81) as [Hcnt|Hcnt];
    [inversion H; reflexivity|].
  destruct (try_propagate g wg r Hok Hred Hr) as (_ & Hfix & _).
  destruct (branch_target wg Hwok Hfix Hcnt) as (Htr & Htc & Hf).
  set (tr := fst (choose_target_cell wg)) in *.
  set (tc := snd (choose_target_cell wg)) in *.
  destruct Hws as (Hsok & Hvalid & Hfits).
  destruct (solved_digit s tr tc Hsok Hvalid Htr Htc) as (v & Hv & _ & Hsv).
  assert (Hcand : candidate (get_cell wg tr tc) v = true)
    by (rewrite <- Hsv; apply Hfits; assumption).
  assert (Hloop : forall ks cur og0 ret0 og0',
             (forall k, In k ks -> 1 <= k <= 9) -> In v ks ->
             wf_grid og0 = true ->
             (forall k, set_cell cur tr tc (set_value k)
                        = set_cell (incr_solved wg) tr tc (set_value k)) ->
             guess_loop (try depth) ks (get_cell wg tr tc) tr tc cur og0
             = Some (ret0, og0') -> ret0 = 1).
  { induction ks as [|k ks IHks]; intros cur og0 ret0 og0' Hks Hin Hog0 Hcur Hg;
      [contradiction|].
    cbn [guess_loop] in Hg.
    assert (Hks' : forall k', In k' ks -> 1 <= k' <= 9)
      by (intros k' Hk'; apply Hks; right; assumption).
    destruct (candidate (get_cell wg tr tc) k) eqn:Hck.
    - rewrite Hcur in Hg.
      destruct (try depth (set_cell (incr_solved wg) tr tc (set_value k)) og0)
        as [[ret1 og1]|] eqn:Hcall; [|discriminate].
      destruct (guess_ok wg tr tc k Hwok Htr Htc Hf (Hks k (or_introl eq_refl)))
        as [Hgok _].
      assert (Hgwf : wf_grid (set_cell (incr_solved wg) tr tc (set_value k)) = true)
        by (apply grid_ok_spec in Hgok; tauto).
      destruct (try_rule (fun _ _ => True) (fun _ _ _ _ _ _ _ => I)
                  (fun _ _ _ _ _ _ _ _ _ _ _ _ => I) depth _ og0 ret1 og1
                  Hgwf Hog0 Hcall) as [[-> ->]|[-> _]].
      + cbn [Z.eqb] in Hg. destruct Hin as [->|Hin].
        * exfalso.
          assert (H1 : 0 = 1); [|discriminate].
          apply (IH _ og0 0 og0 Hgok Hog0); [|assumption].
          split; [assumption|]. split; [assumption|].
          rewrite <- Hsv. apply guess_fits; assumption.
        * apply (IHks _ og0 ret0 og0' Hks' Hin Hog0) in Hg; [assumption|].
          intros k'. apply set_set.
      + simpl in Hg. inversion Hg. reflexivity.
    - destruct Hin as [->|Hin]; [congruence|].
      apply (IHks cur og0 ret0 og0' Hks' Hin Hog0 Hcur Hg). }
  apply (Hloop values (incr_solved wg) og ret og'); try assumption.
  - intros k. apply in_values.
  - apply in_values. assumption.
  - reflexivity.
Qed.

(** X14. [try] is complete: when it returns 0 on a grid of the data model,
    that grid has no solution, that is, no completely solved grid with each
    digit once in every row, column and region whose digits are candidates
    of the corresponding cells. *)
Theorem try_failure_unsolvable (depth : nat) (g og og' : grid) :
  grid_ok g = true -> wf_grid og = true ->
  try depth g og = Some (0, og') ->
  forall s, ~ solves s g.
Proof.
  intros Hok Hog H s Hs.
  assert (H1 : 0 = 1) by (apply (try_complete s depth g og 0 og'); assumption).
  discriminate.
Qed.

Lemma try_failure_unsolvable_witness :
  try 1 clash_grid (grid_zero wg_local) = Some (0, grid_zero wg_local)
  /\ ~ solves example_solution clash_grid.
Proof.
  split; [vm_compute; reflexivity|].
  apply (try_failure_unsolvable 1 clash_grid (grid_zero wg_local) (grid_zero wg_local));
    vm_compute; reflexivity.
Defined.

Lemma try_finds (depth : nat) (g og og' : grid) :
  grid_ok g = true -> wf_grid og = true ->
  try depth g og = Some (1, og') -> solves og' g.
Proof.
  intros Hok Hog H.
  assert (Hwf : wf_grid g = true) by (apply grid_ok_spec in Hok; tauto).
  destruct (try_sound depth g og 1 og' Hwf Hog H) as [[H0 _]|[_ Hs]];
    [discriminate|].
  destruct (Hs Hok) as [Hsok Hvalid].
  destruct (try_narrow depth g og 1 og' Hwf Hog H) as [[H0 _]|[_ Hn]];
    [discriminate|].
  split; [assumption|]. split; [assumption|].
  intros i j Hi Hj.
  destruct (solved_digit og' i j Hsok Hvalid Hi Hj) as (v & Hv & Hcell & Hval).
  apply Hn; [lia|]. rewrite Hval, Hcell. rewrite candidate_set_value by lia.
  apply Z.eqb_refl.
Qed.

(** X15. [try] decides whether a grid of the data model has a solution:
    given more depth than the grid has unsolved cells, it either returns 1
    with a solution of the grid in the output grid, or it returns 0, leaves
    the output grid alone, and the grid has no solution. *)
Theorem try_decides (depth : nat) (g og : grid) :
  grid_ok g = true -> wf_grid og = true -> (count_unsolved g < depth)%nat ->
  (exists og', try depth g og = Some (1, og') /\ solves og' g)
  \/ (try depth g og = Some (0, og) /\ forall s, ~ solves s g).
Proof.
  intros Hok Hog Hd.
  destruct (try_returns depth g og Hok Hog Hd) as (ret & og' & H & [->| ->]).
  - right.
    assert (Hwf : wf_grid g = true) by (apply grid_ok_spec in Hok; tauto).
    destruct (try_rule (fun _ _ => True) (fun _ _ _ _ _ _ _ => I)
                (fun _ _ _ _ _ _ _ _ _ _ _ _ => I) depth g og 0 og' Hwf Hog H)
      as [[_ ->]|[H0 _]]; [|discriminate].
    split; [assumption|]. intros s Hs.
    assert (H1 : 0 = 1) by (apply (try_complete s depth g og 0 og); assumption).
    discriminate.
  - left. exists og'. split; [assumption|].
    apply (try_finds depth g og og'); assumption.
Qed.

Lemma try_decides_witness :
  (exists og', try 82 example_grid (grid_zero wg_local) = Some (1, og')
               /\ solves og' example_grid)
  \/ (try 82 example_grid (grid_zero wg_local) = Some (0, grid_zero wg_local)
      /\ forall s, ~ solves s example_grid).
Proof.
  apply (try_decides 82 example_grid (grid_zero wg_local));
    solve [reflexivity | vm_compute; lia].
Defined.

(** ** A grid that is already solved *)

Lemma sum_const {A : Type} (f : A -> nat) (l : list A) (c : nat) :
  (forall x, In x l -> f x = c) ->
  fold_right (fun x acc => (f x + acc)%nat) 0%nat l = (c * length l)%nat.
Proof.
  induction l as [|x l IH]; intros H; simpl; [lia|].
  rewrite IH by (intros y Hy; apply H; right; assumption).
  rewrite (H x (or_introl eq_refl)). lia.
Qed.

Lemma full_grid_weight (g : grid) :
  grid_ok g = true -> solved_counter g = 81 -> weight g = 81%nat.
Proof.
  intros Hok Hcnt. pose proof Hok as Hok'. apply grid_ok_spec in Hok'.
  destruct Hok' as (_ & Hcells & Hcounter).
  unfold weight. rewrite (sum_const _ coords 1); [reflexivity|].
  intros [i j] Hin. apply in_coords in Hin. destruct Hin as [Hi Hj].
  cbn [fst snd].
  assert (Hf : flagged (get_cell g i j) = true)
    by (apply count_solved_all; [lia | assumption | assumption]).
  destruct (cell_ok_solved _ (Hcells i j Hi Hj) Hf) as (v & Hv & ->).
  unfold cell_weight. rewrite flagged_set_value by lia.
  destruct (set_value_facts v Hv) as (-> & _). reflexivity.
Qed.

Lemma valid_solutionb_ok (g : grid) :
  valid_solutionb g = true -> valid_solution g.
Proof.
  unfold valid_solutionb. rewrite andb_true_iff, !forallb_forall.
  intros [Hflag Hunits]. split.
  - intros i j Hi Hj. apply (Hflag (i, j)). apply in_coords. split; assumption.
  - intros u Hu. specialize (Hunits u ltac:(apply in_seq; lia)).
    rewrite !andb_true_iff in Hunits. unfold each_digit_onceb in Hunits.
    rewrite !forallb_forall in Hunits. destruct Hunits as [[H1 H2] H3].
    repeat split; intros d Hd; apply Nat.eqb_eq;
      [apply H1 | apply H2 | apply H3]; apply in_values; assumption.
Qed.

(** X16. A grid that is already completely and validly solved is returned
    as it is, by the first call and without any guess: [try] with depth 1
    returns 1 and the output grid is the input grid. *)
Theorem try_solved_grid (depth : nat) (g og : grid) :
  grid_ok g = true -> valid_solution g -> wf_grid og = true ->
  try (S depth) g og = Some (1, g).
Proof.
  intros Hok Hvalid Hog.
  assert (Hwf : wf_grid g = true) by (apply grid_ok_spec in Hok; tauto).
  assert (Hcnt : solved_counter g = 81).
  { pose proof Hok as Hok'. apply grid_ok_spec in Hok'.
    destruct Hok' as (_ & _ & Hc). rewrite Hc.
    pose proof (count_solved_unsolved g) as Hsum.
    destruct (Nat.eq_dec (count_unsolved g) 0) as [Hz|Hnz]; [lia|].
    destruct (count_unsolved_exists g) as (i & j & Hi & Hj & Hf); [lia|].
    destruct Hvalid as [Hflag _]. rewrite (Hflag i j Hi Hj) in Hf. discriminate. }
  assert (Hs : solves g g).
  { split; [assumption|]. split; [assumption|]. intros i j Hi Hj.
    destruct (solved_digit g i j Hok Hvalid Hi Hj) as (v & Hv & Hc & Hg).
    rewrite Hg, Hc. rewrite candidate_set_value by lia. apply Z.eqb_refl. }
  assert (Hpass : reduce_grid g = (g, 0)).
  { destruct (reduce_grid_loop_keeps_solution g coords g 0 Hok Hs) as (H1 & H2 & _);
      [lia|].
    fold (reduce_grid g) in H1, H2.
    destruct (reduce_grid_ok g Hok) as [Hm|(_ & _ & Hw)]; [lia|].
    pose proof (reduce_grid_loop_tightens coords g 0) as [_ Hmono].
    fold (reduce_grid g) in Hmono.
    pose proof (grid_ok_counter_range _ H2) as Hrange.
    rewrite (full_grid_weight g Hok Hcnt) in Hw.
    rewrite (full_grid_weight _ H2) in Hw by lia.
    assert (Hzero : snd (reduce_grid g) = 0) by lia.
    destruct (reduce_grid g) as [g1 r1] eqn:Hrg. simpl in Hzero. subst r1.
    destruct (reduce_grid_still g g1 Hrg) as [-> _]. reflexivity. }
  rewrite try_unfold by assumption.
  cbn [reduce_until]. rewrite Hpass. cbn [Z.eqb Z.ltb Z.compare].
  rewrite Hcnt. cbn [Z.eqb Pos.eqb]. rewrite copy_grid_eq by assumption.
  reflexivity.
Qed.

Lemma try_solved_grid_witness :
  try 1 example_solution (grid_zero wg_local) = Some (1, example_solution).
Proof.
  apply (try_solved_grid 0 example_solution (grid_zero wg_local));
    [reflexivity | | reflexivity].
  apply valid_solutionb_ok. vm_compute. reflexivity.
Defined.

(** ** The cell [choose_target_cell] returns *)

(** X17. What [choose_target_cell] returns.  If some unsolved cell has fewer
    than nine candidates, it is an unsolved cell with the least number of
    candidates, the first such cell of the row-major scan.  Otherwise (every
    unsolved cell still has nine candidates, or no cell is unsolved) it is
    the default (0, 0), whether that cell is solved or not. *)
Theorem choose_target_cell_spec (g : grid) :
  let tr := fst (choose_target_cell g) in
  let tc := snd (choose_target_cell g) in
  (choose_target_cell g = (0%nat, 0%nat)
   /\ forall i j, (i < ROWS)%nat -> (j < COLS)%nat ->
        flagged (get_cell g i j) = false -> 9 <= count_poss (get_cell g i j))
  \/ ((tr < ROWS)%nat /\ (tc < COLS)%nat
      /\ flagged (get_cell g tr tc) = false
      /\ count_poss (get_cell g tr tc) < 9
      /\ forall i j, (i < ROWS)%nat -> (j < COLS)%nat ->
           flagged (get_cell g i j) = false ->
           count_poss (get_cell g tr tc) <= count_poss (get_cell g i j)
           /\ (scanned_before i j tr tc ->
               count_poss (get_cell g tr tc) < count_poss (get_cell g i j))).
Proof. apply choose_target_scan. Qed.

(** ** What [read_grid] accepts *)

Lemma text_rows_cons_end (c : ascii) (rest : list ascii) :
  is_newline_or_nul c = true -> text_rows (c :: rest) = [] :: text_rows rest.
Proof. intros H. simpl. rewrite H. reflexivity. Qed.

Lemma text_rows_nonempty (input : list ascii) : text_rows input <> [].
Proof.
  induction input as [|c rest IH]; simpl; [discriminate|].
  destruct (is_newline_or_nul c); [discriminate|].
  destruct (text_rows rest); discriminate.
Qed.

Lemma text_rows_cons_other (c : ascii) (rest : list ascii) :
  is_newline_or_nul c = false ->
  exists r rs, text_rows rest = r :: rs /\ text_rows (c :: rest) = (c :: r) :: rs.
Proof.
  intros H. simpl. rewrite H.
  destruct (text_rows rest) as [|r rs] eqn:E;
    [exfalso; apply (text_rows_nonempty rest); assumption|].
  exists r, rs. auto.
Qed.

Lemma put_row_skip (r : list ascii) (g : grid) (i j : nat) :
  (COLS <= j)%nat -> put_row r g i j = g.
Proof.
  revert j; induction r as [|c r IH]; intros j Hj; simpl; [reflexivity|].
  replace (j <? COLS)%nat with false by (symmetry; apply Nat.ltb_ge; assumption).
  simpl. apply IH. lia.
Qed.

(** What the loop of one row does, in terms of the first row of the text:
    the row ends if the text goes on after it and its first nine characters
    are cell characters; the function returns 0 at the first other
    character in a column below 9, or at the end of the text. *)
Lemma read_row_rows (input : list ascii) :
  forall (g : grid) (i j : nat) r rs,
    text_rows input = r :: rs ->
    let ok := forallb is_cell_char (firstn (9 - j) r) in
    match read_row input g i j with
    | RowEnd g' rest =>
      ok = true /\ rs <> [] /\ text_rows rest = rs /\ g' = put_row r g i j
    | RowBad _ => ok = false \/ rs = []
    end.
Proof.
  induction input as [|c rest IH]; intros g i j r rs Hrows; cbv zeta.
  - simpl in Hrows. inversion Hrows; subst. rewrite read_row_nil.
    right. reflexivity.
  - rewrite read_row_cons.
    destruct (is_newline_or_nul c) eqn:Hend.
    + rewrite (text_rows_cons_end c rest Hend) in Hrows.
      inversion Hrows; subst. unfold is_newline_or_nul in Hend.
      assert (Hres : (if Ascii.eqb c NUL then RowEnd g rest
                      else if Ascii.eqb c NL then RowEnd g rest
                      else if Ascii.eqb c " " || Ascii.eqb c "-" || (COLS <=? j)%nat
                           then read_row rest g i (S j)
                           else if is_digit c
                                then read_row rest
                                       (incr_solved
                                          (set_cell g i j (set_value (digit_of c))))
                                       i (S j)
                                else RowBad g) = RowEnd g rest).
      { destruct (Ascii.eqb c NUL); [reflexivity|].
        simpl in Hend. rewrite Hend. reflexivity. }
      rewrite Hres. rewrite firstn_nil. simpl.
      repeat split; try reflexivity. apply text_rows_nonempty.
    + destruct (text_rows_cons_other c rest Hend) as (r' & rs' & Hr' & Hc').
      rewrite Hc' in Hrows. inversion Hrows; subst.
      unfold is_newline_or_nul in Hend. apply orb_false_iff in Hend.
      destruct Hend as [E0 E1]. rewrite E0, E1.
      pose proof IH as IHg.
      specialize (IH g i (S j) r' rs Hr'). cbv zeta in IH.
      destruct (Nat.leb_spec COLS j) as [Hj|Hj]; unfold COLS in *.
      * rewrite orb_true_r.
        replace (9 - j)%nat with 0%nat in * by lia.
        replace (9 - S j)%nat with 0%nat in * by lia.
        cbn [firstn forallb length] in *.
        rewrite (put_row_skip (c :: r') g i j) by (unfold COLS; lia).
        rewrite (put_row_skip r' g i (S j)) in IH by (unfold COLS; lia).
        clear IHg. destruct (read_row rest g i (S j)).
        -- assumption.
        -- destruct IH as [IH|IH]; [discriminate | right; assumption].
      * rewrite orb_false_r.
        replace (9 - j)%nat with (S (9 - S j)) by lia.
        cbn [firstn forallb length put_row].
        replace (j <? COLS)%nat with true
          by (symmetry; apply Nat.ltb_lt; unfold COLS; lia).
        cbn [andb].
        destruct (Ascii.eqb c " " || Ascii.eqb c "-") eqn:Hsp.
        -- assert (Hd : is_digit c = false).
           { apply orb_true_iff in Hsp.
             destruct Hsp as [Hsp|Hsp]; apply Ascii.eqb_eq in Hsp; subst;
               reflexivity. }
           assert (Hcell : is_cell_char c = true).
           { unfold is_cell_char. rewrite <- orb_assoc, Hsp. apply orb_true_r. }
           rewrite Hd, Hcell. cbn [andb].
           destruct (read_row rest g i (S j)).
           ++ assumption.
           ++ assumption.
        -- assert (Hcell : is_cell_char c = is_digit c).
           { unfold is_cell_char. rewrite <- orb_assoc, Hsp. apply orb_false_r. }
           rewrite Hcell.
           destruct (is_digit c) eqn:Hd; cbn [andb].
           ++ clear IH.
              specialize
                (IHg (incr_solved (set_cell g i j (set_value (digit_of c))))
                     i (S j) r' rs Hr'). cbv zeta in IHg.
              destruct (read_row rest
                          (incr_solved (set_cell g i j (set_value (digit_of c))))
                          i (S j)).
              ** assumption.
              ** assumption.
           ++ left. reflexivity.
Qed.

Lemma read_rows_rows (n : nat) :
  forall (input : list ascii) (g : grid) (i : nat),
    (fst (read_rows n input g i) = 1
     /\ rows_accepted n (text_rows input)
     /\ snd (read_rows n input g i) = put_rows n (text_rows input) g i)
    \/ (fst (read_rows n input g i) = 0
        /\ ~ rows_accepted n (text_rows input)).
Proof.
  induction n as [|n IH]; intros input g i.
  - simpl. left. split; [reflexivity|]. split; [|reflexivity].
    split; [|intros k Hk; lia].
    destruct (text_rows input) eqn:E; [apply text_rows_nonempty in E; contradiction|].
    simpl. lia.
  - rewrite read_rows_succ.
    destruct (text_rows input) as [|r rs] eqn:Hrows;
      [apply text_rows_nonempty in Hrows; contradiction|].
    pose proof (read_row_rows input g i 0%nat r rs Hrows) as Hrow.
    cbv zeta in Hrow. change (9 - 0)%nat with 9%nat in Hrow.
    fold (row_ok r) in Hrow.
    destruct (read_row input g i 0) as [g1 rest|g1].
    + destruct Hrow as (Hok & Hne & Hrest & ->).
      specialize (IH rest (put_row r g i 0) (S i)). rewrite Hrest in IH.
      destruct IH as [(Hret & [Hlen Hall] & Hg)|(Hret & Hna)].
      * left. split; [assumption|]. split; [|assumption].
        split; [simpl; lia|]. intros [|k] Hk; simpl; [assumption|].
        apply Hall. lia.
      * right. split; [assumption|].
        intros [Hlen Hall]. apply Hna. split; [simpl in Hlen; lia|].
        intros k Hk. apply (Hall (S k)). lia.
    + right. split; [reflexivity|].
      intros [Hlen Hall]. specialize (Hall 0%nat ltac:(lia)). simpl in Hall.
      destruct Hrow as [Hrow| ->]; [congruence | simpl in Hlen; lia].
Qed.

Lemma row_ok_spec (r : list ascii) :
  row_ok r = true <->
  forall j c, (j < 9)%nat -> nth_error r j = Some c -> is_cell_char c = true.
Proof.
  unfold row_ok. rewrite forallb_forall. split.
  - intros H j c Hj Hc. apply H.
    rewrite <- (firstn_skipn 9 r) in Hc.
    destruct (Nat.lt_ge_cases j (length (firstn 9 r))) as [Hlt|Hge].
    + rewrite nth_error_app1 in Hc by assumption.
      apply nth_error_In in Hc. assumption.
    + rewrite length_firstn in Hge.
      assert (Hlen : (length r <= j)%nat) by lia.
      rewrite (firstn_skipn 9 r) in Hc.
      apply nth_error_None in Hlen. congruence.
  - intros H c Hc. apply In_nth_error in Hc. destruct Hc as (j & Hj).
    assert (Hlt : (j < length (firstn 9 r))%nat)
      by (apply nth_error_Some; congruence).
    rewrite length_firstn in Hlt.
    apply (H j c); [lia|].
    rewrite <- (firstn_skipn 9 r). rewrite nth_error_app1; [assumption|].
    rewrite length_firstn. lia.
Qed.

(** X18. What [read_grid] accepts.  With the text cut into rows at every
    newline and every NUL character, [read_grid] returns 1 exactly when the
    text has nine ended rows and every character in the first nine columns
    of those rows is a digit 1..9, a space or a hyphen.  Nothing else is
    looked at: what stands in a row from column 9 on, and what follows the
    ninth row, is ignored. *)
Theorem read_grid_accepts_iff (input : list ascii) (g : grid) :
  (exists g', read_grid input g = (1, g'))
  <-> ((9 < length (text_rows input))%nat
       /\ forall i j c, (i < 9)%nat -> (j < 9)%nat ->
            char_at input i j = Some c -> is_cell_char c = true).
Proof.
  unfold read_grid, char_at. change ROWS with 9%nat.
  pose proof (read_rows_rows 9 input g 0) as H.
  assert (Hacc : rows_accepted 9 (text_rows input)
                 <-> ((9 < length (text_rows input))%nat
                      /\ forall i j c, (i < 9)%nat -> (j < 9)%nat ->
                           nth_error (nth i (text_rows input) []) j = Some c ->
                           is_cell_char c = true)).
  { unfold rows_accepted. split; intros [Hlen Hall]; (split; [assumption|]).
    - intros i j c Hi Hj Hc.
      apply (proj1 (row_ok_spec _) (Hall i Hi) j c Hj Hc).
    - intros k Hk. apply row_ok_spec. intros j c Hj Hc.
      apply (Hall k j c Hk Hj Hc). }
  rewrite <- Hacc. split.
  - intros (g' & Hr). rewrite Hr in H.
    destruct H as [(_ & Ha & _)|(H0 & _)]; [assumption | discriminate].
  - intros Ha. destruct (read_rows 9 input g 0) as [ret g'].
    destruct H as [(Hret & _)|(_ & Hna)]; [|contradiction].
    cbn [fst] in Hret. subst ret. exists g'. reflexivity.
Qed.

(** X19. The end of the input.  [read_grid] returns 0 or 1, and it returns
    0 on every text with fewer than nine row ends: the end of the input is
    never taken for the end of a row, so a text whose ninth row lacks its
    newline is rejected, whatever that row holds. *)
Theorem read_grid_truncated (input : list ascii) (g : grid) :
  (fst (read_grid input g) = 0 \/ fst (read_grid input g) = 1)
  /\ ((length (text_rows input) <= 9)%nat -> fst (read_grid input g) = 0).
Proof.
  unfold read_grid. change ROWS with 9%nat.
  destruct (read_rows_rows 9 input g 0) as [(Hret & [Hlen _] & _)|(Hret & _)].
  - split; [right; assumption | intros Hshort; lia].
  - split; [left; assumption | intros _; assumption].
Qed.

Lemma read_grid_truncated_witness :
  fst (read_grid (removelast example_text) (grid_zero wg_local)) = 0.
Proof.
  apply (read_grid_truncated (removelast example_text) (grid_zero wg_local)).
  vm_compute. lia.
Defined.

Lemma put_row_facts (r : list ascii) :
  forall (g : grid) (i j : nat),
    wf_grid g = true -> (i < ROWS)%nat ->
    wf_grid (put_row r g i j) = true
    /\ solved_counter (put_row r g i j)
       = solved_counter g + Z.of_nat (length (filter is_digit (firstn (9 - j) r)))
    /\ forall a b, (a < ROWS)%nat -> (b < COLS)%nat ->
         get_cell (put_row r g i j) a b
         = if (a =? i)%nat && (j <=? b)%nat
           then match nth_error r (b - j) with
                | Some c => if is_digit c then set_value (digit_of c)
                            else get_cell g a b
                | None => get_cell g a b
                end
           else get_cell g a b.
Proof.
  induction r as [|c r IH]; intros g i j Hwf Hi.
  - simpl. split; [assumption|]. split; [rewrite firstn_nil; simpl; lia|].
    intros a b Ha Hb. destruct (b - j)%nat; simpl;
      destruct ((a =? i)%nat && (j <=? b)%nat); reflexivity.
  - cbn [put_row].
    destruct (Nat.ltb_spec j COLS) as [Hj|Hj].
    + change COLS with 9%nat in Hj.
      replace (9 - j)%nat with (S (9 - S j)) by lia. cbn [firstn filter andb].
      destruct (is_digit c) eqn:Hd.
      * set (g1 := incr_solved (set_cell g i j (set_value (digit_of c)))).
        assert (Hwf1 : wf_grid g1 = true).
        { unfold g1, incr_solved. rewrite wf_grid_recounter, wf_set. assumption. }
        destruct (IH g1 i (S j) Hwf1 Hi) as (Hw & Hc & Hg).
        split; [assumption|]. split.
        { rewrite Hc. unfold g1, incr_solved, set_cell. cbn [solved_counter length].
          lia. }
        intros a b Ha Hb. rewrite (Hg a b Ha Hb).
        assert (Hg1 : get_cell g1 a b
                      = if (a =? i)%nat && (b =? j)%nat
                        then set_value (digit_of c) else get_cell g a b).
        { unfold g1, incr_solved. rewrite get_cell_recounter.
          destruct (Nat.eqb_spec a i) as [->|Hai];
            [destruct (Nat.eqb_spec b j) as [->|Hbj]|]; cbn [andb].
          - apply get_set_eq; assumption.
          - apply get_set_neq. congruence.
          - apply get_set_neq. congruence. }
        rewrite Hg1.
        destruct (Nat.eqb_spec a i) as [->|Hai]; cbn [andb]; [|reflexivity].
        destruct (Nat.leb_spec (S j) b) as [H1|H1];
          destruct (Nat.leb_spec j b) as [H2|H2]; try lia.
        -- replace (b - j)%nat with (S (b - S j)) by lia. cbn [nth_error].
           replace (b =? j)%nat with false by (symmetry; apply Nat.eqb_neq; lia).
           reflexivity.
        -- assert (b = j) by lia. subst b. rewrite Nat.sub_diag. cbn [nth_error].
           rewrite Hd, Nat.eqb_refl. reflexivity.
        -- replace (b =? j)%nat with false by (symmetry; apply Nat.eqb_neq; lia).
           reflexivity.
      * destruct (IH g i (S j) Hwf Hi) as (Hw & Hc & Hg).
        split; [assumption|]. split; [assumption|].
        intros a b Ha Hb. rewrite (Hg a b Ha Hb).
        destruct (Nat.eqb_spec a i) as [->|Hai]; cbn [andb]; [|reflexivity].
        destruct (Nat.leb_spec (S j) b) as [H1|H1];
          destruct (Nat.leb_spec j b) as [H2|H2]; try lia.
        -- replace (b - j)%nat with (S (b - S j)) by lia. reflexivity.
        -- assert (b = j) by lia. subst b. rewrite Nat.sub_diag. cbn [nth_error].
           rewrite Hd. reflexivity.
    + cbn [andb]. rewrite put_row_skip by (change COLS with 9%nat in *; lia).
      change COLS with 9%nat in Hj.
      replace (9 - j)%nat with 0%nat by lia. cbn [firstn filter length].
      split; [assumption|]. split; [simpl; lia|].
      intros a b Ha Hb. change COLS with 9%nat in Hb.
      destruct (Nat.leb_spec j b) as [H2|H2]; [lia|].
      rewrite andb_false_r. reflexivity.
Qed.

Lemma put_rows_facts (n : nat) :
  forall (rows : list (list ascii)) (g : grid) (i : nat),
    wf_grid g = true -> (i + n <= ROWS)%nat ->
    solved_counter (put_rows n rows g i)
    = solved_counter g + Z.of_nat (clue_count n rows)
    /\ forall a b, (a < ROWS)%nat -> (b < COLS)%nat ->
         get_cell (put_rows n rows g i) a b
         = if (i <=? a)%nat && (a <? i + n)%nat
           then match nth_error (nth (a - i) rows []) b with
                | Some c => if is_digit c then set_value (digit_of c)
                            else get_cell g a b
                | None => get_cell g a b
                end
           else get_cell g a b.
Proof.
  induction n as [|n IH]; intros rows g i Hwf Hin.
  - simpl. split; [lia|]. intros a b Ha Hb.
    destruct (Nat.leb_spec i a); destruct (Nat.ltb_spec a (i + 0)); try lia;
      reflexivity.
  - destruct rows as [|r rs].
    + simpl. split; [lia|]. intros a b Ha Hb.
      destruct (a - i)%nat; destruct b; simpl;
        destruct ((i <=? a)%nat && (a <? i + S n)%nat); reflexivity.
    + cbn [put_rows clue_count].
      destruct (put_row_facts r g i 0%nat Hwf ltac:(lia)) as (Hw & Hc & Hg).
      destruct (IH rs (put_row r g i 0) (S i) Hw ltac:(lia)) as (Hc' & Hg').
      split.
      { rewrite Hc', Hc. change (9 - 0)%nat with 9%nat. lia. }
      intros a b Ha Hb. rewrite (Hg' a b Ha Hb), (Hg a b Ha Hb).
      rewrite Nat.sub_0_r.
      destruct (Nat.eqb_spec a i) as [->|Hai]; cbn [andb].
      * replace (S i <=? i)%nat with false by (symmetry; apply Nat.leb_gt; lia).
        replace (i <=? i)%nat with true by (symmetry; apply Nat.leb_le; lia).
        replace (i <? i + S n)%nat with true by (symmetry; apply Nat.ltb_lt; lia).
        rewrite Nat.sub_diag. cbn [andb nth Nat.leb]. reflexivity.
      * destruct (Nat.leb_spec (S i) a) as [H1|H1];
          destruct (Nat.leb_spec i a) as [H2|H2]; try lia; cbn [andb];
          [|reflexivity].
        replace (a <? S i + n)%nat with (a <? i + S n)%nat
          by (f_equal; lia).
        destruct (a <? i + S n)%nat; [|reflexivity].
        replace (a - i)%nat with (S (a - S i)) by lia. cbn [nth].
        reflexivity.
Qed.

(** X20. The grid [read_grid] builds.  When [read_grid] returns 1 on a 9x9
    grid, a cell holds the clue [set_value d] if the character in its row and
    column of the text is the digit [d], and is left as it was otherwise (a
    space, a hyphen, or a row that ends before that column); the counter has
    grown by the number of digits in the first nine columns of the nine
    rows. *)
Theorem read_grid_cells (input : list ascii) (g g' : grid) :
  wf_grid g = true ->
  read_grid input g = (1, g') ->
  solved_counter g' = solved_counter g + Z.of_nat (clue_count 9 (text_rows input))
  /\ forall i j, (i < 9)%nat -> (j < 9)%nat ->
       get_cell g' i j
       = match char_at input i j with
         | Some c => if is_digit c then set_value (digit_of c) else get_cell g i j
         | None => get_cell g i j
         end.
Proof.
  intros Hwf Hr. unfold read_grid in Hr. change ROWS with 9%nat in Hr.
  pose proof (read_rows_rows 9 input g 0) as H. rewrite Hr in H.
  destruct H as [(_ & _ & Hg')|(H0 & _)]; [|discriminate].
  cbn [snd] in Hg'. subst g'.
  destruct (put_rows_facts 9 (text_rows input) g 0 Hwf ltac:(reflexivity))
    as (Hc & Hg).
  split; [assumption|]. intros i j Hi Hj. rewrite (Hg i j Hi Hj).
  unfold char_at. rewrite Nat.sub_0_r.
  replace (0 <=? i)%nat with true by reflexivity.
  replace (i <? 0 + 9)%nat with true by (symmetry; apply Nat.ltb_lt; lia).
  reflexivity.
Qed.

Lemma read_grid_cells_witness :
  solved_counter example_grid
  = solved_counter (grid_zero wg_local)
    + Z.of_nat (clue_count 9 (text_rows example_text))
  /\ forall i j, (i < 9)%nat -> (j < 9)%nat ->
       get_cell example_grid i j
       = match char_at example_text i j with
         | Some c => if is_digit c then set_value (digit_of c)
                     else get_cell (grid_zero wg_local) i j
         | None => get_cell (grid_zero wg_local) i j
         end.
Proof.
  apply (read_grid_cells example_text (grid_zero wg_local) example_grid).
  - vm_compute. reflexivity.
  - vm_compute. reflexivity.
Defined.

(** ** The printed grid *)

Lemma get_value_range (c : Z) : cell_ok c = true -> 0 <= get_value c <= 9.
Proof.
  intros Hok.
  pose proof (cells_forall
                (fun c => negb (cell_ok c)
                          || ((0 <=? get_value c) && (get_value c <=? 9)))
                ltac:(vm_compute; reflexivity) c (cell_ok_range c Hok)) as H.
  cbv beta in H. rewrite Hok in H. cbn [negb orb] in H.
  apply andb_true_iff in H. lia.
Qed.

Lemma decimal_digit (v : Z) :
  1 <= v <= 9 -> decimal v = [ascii_of_nat (48 + Z.to_nat v)].
Proof.
  intros Hv.
  pose proof (values_forall
                (fun v => match decimal v with
                          | [c] => Ascii.eqb c (ascii_of_nat (48 + Z.to_nat v))
                          | _ => false
                          end)
                ltac:(vm_compute; reflexivity) v Hv) as H.
  cbv beta in H. destruct (decimal v) as [|c [|c' l]]; try discriminate.
  apply Ascii.eqb_eq in H. congruence.
Qed.

Lemma print_cell_layout (g : grid) (i j : nat) :
  cell_ok (get_cell g i j) = true ->
  print_cell g i j
  = [cell_char (get_value (get_cell g i j)); " "%char]
    ++ (if (j mod 3 =? 2)%nat then ["|"; " "]%char else []).
Proof.
  intros Hok. apply get_value_range in Hok. unfold print_cell, cell_char.
  cbv zeta. change (R_COLS - 1)%nat with 2%nat. change R_COLS with 3%nat.
  f_equal. destruct (Z.eqb_spec (get_value (get_cell g i j)) 0) as [_|Hne];
    [reflexivity|].
  rewrite decimal_digit by lia. reflexivity.
Qed.

Lemma flat_map_in_ext {A B : Type} (f h : A -> list B) (l : list A) :
  (forall a, In a l -> f a = h a) -> flat_map f l = flat_map h l.
Proof.
  induction l as [|a l IH]; intros H; [reflexivity|]. simpl.
  rewrite (H a) by (left; reflexivity). rewrite IH; [reflexivity|].
  intros b Hb. apply H. right. assumption.
Qed.

Lemma print_grid_layout (g : grid) :
  cells_ok g = true ->
  print_grid g = layout (fun i j => cell_char (get_value (get_cell g i j))).
Proof.
  intros Hok. unfold print_grid, layout. f_equal. f_equal.
  change ROWS with 9%nat. apply flat_map_in_ext. intros i Hi.
  apply in_seq in Hi. unfold print_row. f_equal. f_equal.
  change COLS with 9%nat. apply flat_map_in_ext. intros j Hj.
  apply in_seq in Hj. apply print_cell_layout.
  apply cells_ok_spec; [assumption | unfold ROWS; lia | unfold COLS; lia].
Qed.

Lemma layout_facts (f : nat -> nat -> ascii) :
  length (layout f) = 347%nat
  /\ forall i j, (i < 9)%nat -> (j < 9)%nat ->
       nth_error (layout f) (print_position i j) = Some (f i j).
Proof.
  split; [reflexivity|]. intros i j Hi Hj.
  do 9 (destruct i as [|i]; [do 9 (destruct j as [|j]; [reflexivity|]); lia|]).
  lia.
Qed.

(** X21. What [print_grid] shows.  For a grid whose cells are well formed,
    [print_grid] writes 347 characters (13 lines of 25 characters and their
    newlines), and the character at the place of cell (i, j) is the digit
    [get_value] gives for the cell, or a space when the cell is unsolved. *)
Theorem print_grid_shows (g : grid) :
  cells_ok g = true ->
  length (print_grid g) = 347%nat
  /\ forall i j, (i < 9)%nat -> (j < 9)%nat ->
       nth_error (print_grid g) (print_position i j)
       = Some (cell_char (get_value (get_cell g i j))).
Proof.
  intros Hok. rewrite (print_grid_layout g Hok).
  apply (layout_facts (fun i j => cell_char (get_value (get_cell g i j)))).
Qed.

Lemma print_grid_shows_witness :
  length (print_grid example_solution) = 347%nat
  /\ forall i j, (i < 9)%nat -> (j < 9)%nat ->
       nth_error (print_grid example_solution) (print_position i j)
       = Some (cell_char (get_value (get_cell example_solution i j))).
Proof. apply (print_grid_shows example_solution). vm_compute. reflexivity. Defined.


(** X22. The program cannot read what it prints: the text [print_grid]
    writes is rejected by [read_grid], whatever the grid printed.  The top
    line is taken for an empty first row, and the bar that opens the next
    line is not a cell character; the grid being read is left as it was. *)
Theorem print_grid_not_readable (g g0 : grid) :
  read_grid (print_grid g) g0 = (0, g0).
Proof.
  unfold read_grid, print_grid. change ROWS with 9%nat.
  change (seq 0 9) with (0%nat :: seq 1 8). cbn [flat_map].
  unfold print_row at 1. rewrite <- !app_assoc. cbn [app].
  rewrite read_rows_succ.
  match goal with
  | |- context [read_row (H_LINE ++ NL :: "|"%char :: ?r) g0 0 0] =>
    change (read_row (H_LINE ++ NL :: "|"%char :: r) g0 0 0)
      with (RowEnd g0 ("|"%char :: r))
  end.
  cbv iota beta. rewrite read_rows_succ. reflexivity.
Qed.

(** ** The program from end to end *)

Lemma read_grid_result (input : list ascii) (g : grid) (r : Z) (g' : grid) :
  read_grid input g = (r, g') ->
  r = 0 \/ (r = 1 /\ g' = put_rows 9 (text_rows input) g 0).
Proof.
  intros Hr. unfold read_grid in Hr. change ROWS with 9%nat in Hr.
  pose proof (read_rows_rows 9 input g 0) as H. rewrite Hr in H.
  cbn [fst snd] in H.
  destruct H as [(-> & _ & ->)|(-> & _)];
    [right; split; reflexivity | left; reflexivity].
Qed.

(** X23. The three ways the program ends.  With more depth than the 81
    cells of a grid the program always ends: it prints the message of a
    failed read and exits with status 1 when [read_grid] returns 0;
    otherwise it prints the grid read and then either a solution of that
    grid, with status 0, or the message of a failed search, with status 1,
    and in that case the grid has no solution. *)
Theorem main_outcomes (depth : nat) (input : list ascii) :
  (81 < depth)%nat ->
  let r := fst (read_grid input (grid_zero wg_local)) in
  let ig := snd (read_grid input (grid_zero wg_local)) in
  (r = 0 /\ main depth input = Some (1, read_failure))
  \/ (r = 1
      /\ ((exists s, solves s ig
                     /\ main depth input = Some (0, print_grid ig ++ print_grid s))
          \/ ((forall s, ~ solves s ig)
              /\ main depth input = Some (1, print_grid ig ++ solve_failure)))).
Proof.
  intros Hd. unfold main. cbv zeta.
  destruct (read_grid input (grid_zero wg_local)) as [r ig] eqn:Hr.
  cbn [fst snd].
  destruct (read_grid_result _ _ _ _ Hr) as [->|[-> _]];
    [left; split; reflexivity|].
  right. split; [reflexivity|]. change (1 =? 0) with false. cbv iota.
  assert (Hok : grid_ok ig = true)
    by (apply (read_grid_ok input wg_local ig wg_local_wf Hr)).
  assert (Hog : wf_grid (grid_zero wg_local) = true)
    by (rewrite grid_zero_wf; apply wg_local_wf).
  assert (Hcnt : (count_unsolved ig < depth)%nat)
    by (pose proof (count_solved_unsolved ig); lia).
  destruct (try_returns depth ig (grid_zero wg_local) Hok Hog Hcnt)
    as (ret & og' & Htry & [-> | ->]); rewrite Htry.
  - right. split; [|reflexivity]. intros s Hs.
    assert (H1 : 0 = 1)
      by (apply (try_complete s depth ig (grid_zero wg_local) 0 og'); assumption).
    discriminate.
  - left. exists og'. split; [|reflexivity].
    apply (try_finds depth ig (grid_zero wg_local) og'); assumption.
Qed.

Lemma main_outcomes_witness :
  (fst (read_grid example_text (grid_zero wg_local)) = 0
   /\ main 82 example_text = Some (1, read_failure))
  \/ (fst (read_grid example_text (grid_zero wg_local)) = 1
      /\ ((exists s, solves s example_grid
                     /\ main 82 example_text
                        = Some (0, print_grid example_grid ++ print_grid s))
          \/ ((forall s, ~ solves s example_grid)
              /\ main 82 example_text
                 = Some (1, print_grid example_grid ++ solve_failure)))).
Proof. apply (main_outcomes 82 example_text). lia. Defined.

Lemma digit_char (c : ascii) :
  is_digit c = true ->
  1 <= digit_of c <= 9 /\ cell_char (digit_of c) = c.
Proof.
  intros Hd. unfold is_digit in Hd. apply andb_true_iff in Hd.
  destruct Hd as [H1 H2]. apply Nat.leb_le in H1, H2.
  unfold digit_of, cell_char. split; [lia|].
  destruct (Z.eqb_spec (Z.of_nat (nat_of_ascii c) - 48) 0) as [H0|_]; [lia|].
  replace (48 + Z.to_nat (Z.of_nat (nat_of_ascii c) - 48))%nat
    with (nat_of_ascii c) by lia.
  apply ascii_nat_embedding.
Qed.

Lemma get_value_clue (v : Z) : 1 <= v <= 9 -> get_value (set_value v) = v.
Proof.
  intros Hv.
  pose proof (values_forall (fun v => get_value (set_value v) =? v)
                ltac:(vm_compute; reflexivity) v Hv) as H.
  apply Z.eqb_eq in H. assumption.
Qed.

(** X24. What a successful run prints.  When the program exits with status
    0 it has written two grids of 347 characters.  The first shows the
    text: at the place of cell (i, j) stands the digit the text has in row
    i, column j, and a space when the text has no digit there.  The second
    shows a digit 1..9 at the place of every cell, and where the text has a
    digit it is that digit. *)
Theorem main_echo (depth : nat) (input out : list ascii) :
  main depth input = Some (0, out) ->
  length out = 694%nat
  /\ forall i j, (i < 9)%nat -> (j < 9)%nat ->
       nth_error out (print_position i j) = Some (text_char input i j)
       /\ exists d, 1 <= d <= 9
            /\ nth_error out (347 + print_position i j) = Some (cell_char d)
            /\ forall c, char_at input i j = Some c -> is_digit c = true ->
                 cell_char d = c.
Proof.
  unfold main. cbv zeta.
  destruct (read_grid input (grid_zero wg_local)) as [r ig] eqn:Hr.
  destruct (read_grid_result _ _ _ _ Hr) as [->|[-> Hig]]; [discriminate|].
  change (1 =? 0) with false. cbv iota.
  assert (Hok : grid_ok ig = true)
    by (apply (read_grid_ok input wg_local ig wg_local_wf Hr)).
  assert (Hog : wf_grid (grid_zero wg_local) = true)
    by (rewrite grid_zero_wf; apply wg_local_wf).
  destruct (try depth ig (grid_zero wg_local)) as [[t s]|] eqn:Htry;
    [|discriminate].
  destruct (Z.eqb_spec t 0) as [_|Ht]; [discriminate|].
  intros Hout.
  assert (Hout' : out = print_grid ig ++ print_grid s) by congruence.
  subst out. clear Hout.
  assert (Hwf : wf_grid ig = true) by (apply grid_ok_spec in Hok; tauto).
  assert (Ht1 : t = 1).
  { destruct (try_rule (fun _ _ => True) (fun _ _ _ _ _ _ _ => I)
                (fun _ _ _ _ _ _ _ _ _ _ _ _ => I) depth ig _ t s Hwf Hog Htry)
      as [[H0 _]|[H1 _]]; [contradiction | assumption]. }
  subst t.
  destruct (try_finds depth ig _ s Hok Hog Htry) as (Hsok & Hvalid & Hfits).
  assert (Hcells : cells_ok ig = true)
    by (apply cells_ok_spec; apply grid_ok_spec in Hok; tauto).
  assert (Hscells : cells_ok s = true)
    by (apply cells_ok_spec; apply grid_ok_spec in Hsok; tauto).
  rewrite (print_grid_layout ig Hcells), (print_grid_layout s Hscells).
  set (f := fun i j => cell_char (get_value (get_cell ig i j))).
  set (h := fun i j => cell_char (get_value (get_cell s i j))).
  destruct (layout_facts f) as [Hlf Hnf]. destruct (layout_facts h) as [Hlh Hnh].
  split; [rewrite length_app, Hlf, Hlh; reflexivity|].
  intros i j Hi Hj.
  destruct (put_rows_facts 9 (text_rows input) (grid_zero wg_local) 0 Hog
              ltac:(reflexivity)) as (_ & Hget).
  specialize (Hget i j Hi Hj). rewrite <- Hig in Hget.
  rewrite Nat.sub_0_r in Hget.
  replace (0 <=? i)%nat with true in Hget by reflexivity.
  replace (i <? 0 + 9)%nat with true in Hget by (symmetry; apply Nat.ltb_lt; lia).
  cbn [andb] in Hget. fold (char_at input i j) in Hget.
  rewrite (grid_zero_get wg_local i j wg_local_wf Hi Hj) in Hget.
  split.
  - rewrite nth_error_app1
      by (rewrite Hlf; unfold print_position;
          pose proof (Nat.Div0.mul_div_le i 3); pose proof (Nat.Div0.mul_div_le j 3);
          lia).
    rewrite (Hnf i j Hi Hj). unfold f, text_char. rewrite Hget. f_equal.
    destruct (char_at input i j) as [c|]; [|reflexivity].
    destruct (is_digit c) eqn:Hd; [|reflexivity].
    destruct (digit_char c Hd) as [Hrange Hchar].
    rewrite get_value_clue by assumption. assumption.
  - destruct (solved_digit s i j Hsok Hvalid Hi Hj) as (v & Hv & _ & Hval).
    exists v. split; [assumption|]. split.
    + rewrite nth_error_app2 by (rewrite Hlf; lia).
      rewrite Hlf. replace (347 + print_position i j - 347)%nat
        with (print_position i j) by lia.
      rewrite (Hnh i j Hi Hj). unfold h. rewrite Hval. reflexivity.
    + intros c Hc Hd. rewrite Hc, Hd in Hget.
      destruct (digit_char c Hd) as [Hrange Hchar].
      specialize (Hfits i j Hi Hj). rewrite Hget, Hval in Hfits.
      rewrite candidate_set_value in Hfits by lia.
      apply Z.eqb_eq in Hfits. rewrite <- Hfits. assumption.
Qed.

Lemma main_echo_witness :
  length (print_grid example_grid ++ print_grid example_solution) = 694%nat
  /\ forall i j, (i < 9)%nat -> (j < 9)%nat ->
       nth_error (print_grid example_grid ++ print_grid example_solution)
         (print_position i j) = Some (text_char example_text i j)
       /\ exists d, 1 <= d <= 9
            /\ nth_error (print_grid example_grid ++ print_grid example_solution)
                 (347 + print_position i j) = Some (cell_char d)
            /\ forall c, char_at example_text i j = Some c -> is_digit c = true ->
                 cell_char d = c.
Proof. apply (main_echo 82 example_text). vm_compute. reflexivity. Defined.
